(** * Mancala: the rules engine (engine.js), the move evaluator of the
      front end and the game class around them, embedded as Rocq functions.

    The numbers of the program are binary64 floating-point numbers.  Stone
    counts, slot indices and player ids are integers, written here as [Z]:
    binary64 holds every integer up to [MAX_SAFE_INTEGER] = 2^53 - 1, and a
    sum or difference of such integers that stays within it is the integers'
    own, so the engine's [+ 1], [- 1], [+=] and [total +=] are those of [Z]
    as long as the stones of the board total at most [MAX_SAFE_INTEGER].
    Every result about stone counts carries that bound, and shows that no
    count leaves the range.  The scores of the move evaluator are not
    integers (it multiplies by 0.6): they are binary64 numbers, modelled by
    [spec_float] and the operations of the Standard Library's specification
    of IEEE 754 arithmetic, which round as the program does.

    The board is a JavaScript array, here a [list Z] read with [slot] and
    written with [setSlot].  A read outside the array is [undefined] in
    JavaScript; [slot] answers [0] there, which agrees with the program for
    the test [board[i] > 0] only, so every result that reads the board is
    stated for a board of 14 slots, where no such read happens.

    The engine is an object whose methods mutate it and may throw: a method
    is a function [Engine -> result A * Engine].  The [while] loop of
    [applyMove] is run with fuel; [sow_loop_returns] and [applyMove_run] show
    that the fuel [applyMove] passes is always enough.

    Of the game class [MancalaGame] the methods that decide something are
    embedded: the guards of a click, a hint and an AI move, the hand-over of
    the turn after a move, the board an animation replays, a new game and the
    verdict.  Each is a function of the game's state.  Of the [async]
    methods, [animateMove] is followed through its delays on the local board
    it draws, and [makeAIMove] up to its call of [performMove]. *)

From stdpp Require Import base option list numbers sorting strings.
From Stdlib Require Import ZArith Lia Floats.SpecFloat.

Local Open Scope Z_scope.

(** ** Exceptions and results *)

Inductive exn : Type :=
| GameEnded                      (* "Cannot make a move after the game has ended" *)
| InvalidMove (pitIndex : Z)     (* "Invalid move: pit ${pitIndex}" *)
| TypeError.                     (* property access on [undefined] *)

Inductive result (A : Type) : Type :=
| Returned (a : A)
| Raised (x : exn)
| Diverged.

Arguments Returned {A} a.
Arguments Raised {A} x.
Arguments Diverged {A}.

(** ** Board *)

Definition INITIAL_BOARD : list Z := [4; 4; 4; 4; 4; 4; 0; 4; 4; 4; 4; 4; 4; 0].

Record Range : Type := { start : Z; end_ : Z; store : Z }.

Definition PIT_RANGE (player : Z) : option Range :=
  if player =? 0 then Some {| start := 0; end_ := 5; store := 6 |}
  else if player =? 1 then Some {| start := 7; end_ := 12; store := 13 |}
  else None.

(** [Number.MAX_SAFE_INTEGER] = 2^53 - 1.  The numbers of the program are
    binary64 floating-point numbers, which hold every integer up to this
    one, so that a sum or difference of integers is the integers' own as long
    as it stays within it; from 2^53 on the program's [+ 1] rounds (see
    [beyond_MAX_SAFE_INTEGER]).  The stone counts of the model are
    integers: they are the program's for boards whose stones total at most
    this number. *)
Definition MAX_SAFE_INTEGER : Z := 9007199254740991.

(** [board[i]]: the element at index [i], and 0 where the array has none.
    The program reads [undefined] at a negative index or beyond the end of
    the array. *)
Definition slot (b : list Z) (i : Z) : Z :=
  if i <? 0 then 0 else default 0 (b !! Z.to_nat i).

(** [board[i] = v], for an index inside the array; outside it the list is
    left as it is (the program extends the array, or sets a property of it
    for a negative index). *)
Definition setSlot (b : list Z) (i v : Z) : list Z :=
  if i <? 0 then b else <[Z.to_nat i := v]> b.

(** The positions [start, start + 1, ..., end] of a [for] loop. *)
Definition pits (first last : Z) : list Z := seqZ first (last - first + 1).

(** ** Engine state *)

Record Engine : Type := {
  initialBoard : list Z;
  initialPlayer : Z;
  board : list Z;
  currentPlayer : Z;
  gameOver : bool
}.

Record Scores : Type := { human : Z; ai : Z }.

Module Capture.
Record t : Type := {
  pit : Z;
  opposite : Z;
  store : Z;
  captured : Z
}.
End Capture.

Module Sweep.
Record t : Type := {
  humanRemaining : Z;
  aiRemaining : Z;
  board : list Z;
  scores : Scores
}.
End Sweep.

Module MoveSummary.
Record t : Type := {
  player : Z;
  pitIndex : Z;
  stonesPicked : Z;
  sequence : list Z;
  lastPosition : Z;
  landedInStore : bool;
  capture : option Capture.t;
  sweep : option Sweep.t;
  extraTurn : bool;
  board : list Z;
  currentPlayer : Z;
  gameOver : bool;
  scores : Scores
}.
End MoveSummary.

(** ** Methods as state transformers that may throw *)

Definition M (A : Type) : Type := Engine -> result A * Engine.

Definition ret {A} (a : A) : M A := fun e => (Returned a, e).

Definition throw {A} (x : exn) : M A := fun e => (Raised x, e).

Definition diverge {A} : M A := fun e => (Diverged, e).

Definition bind {A B} (c : M A) (k : A -> M B) : M B :=
  fun e =>
    match c e with
    | (Returned a, e') => k a e'
    | (Raised x, e') => (Raised x, e')
    | (Diverged, e') => (Diverged, e')
    end.

(** Read [this] through a function that does not throw. *)
Definition this {A} (f : Engine -> A) : M A := fun e => (Returned (f e), e).

(** Call a method that reads [this] and may throw but does not mutate. *)
Definition call {A} (f : Engine -> result A) : M A := fun e => (f e, e).

Notation "x <- c ;; k" := (bind c (fun x => k))
  (at level 100, c at next level, right associativity).
Notation "c ;; k" := (bind c (fun _ => k))
  (at level 100, right associativity).

(** [this.currentPlayer = p] *)
Definition setCurrentPlayer (p : Z) (e : Engine) : Engine :=
  {| initialBoard := initialBoard e; initialPlayer := initialPlayer e;
     board := board e; currentPlayer := p; gameOver := gameOver e |}.

(** [this.gameOver = g] *)
Definition setGameOver (g : bool) (e : Engine) : Engine :=
  {| initialBoard := initialBoard e; initialPlayer := initialPlayer e;
     board := board e; currentPlayer := currentPlayer e; gameOver := g |}.

Definition setBoard (b : list Z) (e : Engine) : Engine :=
  {| initialBoard := initialBoard e; initialPlayer := initialPlayer e;
     board := b; currentPlayer := currentPlayer e; gameOver := gameOver e |}.

Definition assign (f : Engine -> Engine) : M unit := fun e => (Returned tt, f e).

(** [this.board[i] = v] *)
Definition writeSlot (i v : Z) : M unit :=
  assign (fun e => setBoard (setSlot (board e) i v) e).

(** ** The engine (engine.js) *)

(** [reset(board, currentPlayer)].  [None] for the board is an argument that
    is not an array, [None] for the player one that is not a number. *)
Definition reset (newBoard : option (list Z)) (newPlayer : option Z) (e : Engine)
  : Engine :=
  let hasCustomBoard := bool_decide (is_Some newBoard) in
  let sourceBoard := match newBoard with Some b => b | None => initialBoard e end in
  let initialBoard' := match newBoard with Some b => b | None => initialBoard e end in
  let nextPlayer :=
    match newPlayer with
    | Some p => p
    | None => if hasCustomBoard then 0 else initialPlayer e
    end in
  {| initialBoard := initialBoard';
     initialPlayer := nextPlayer;
     board := sourceBoard;
     currentPlayer := nextPlayer;
     gameOver := false |}.

(** [new MancalaEngine(board, currentPlayer = 0)].  The fields [board],
    [currentPlayer] and [gameOver] do not exist before the call of [reset],
    which sets all three. *)
Definition new_engine (b : option (list Z)) (p : option Z) : Engine :=
  let currentPlayer0 := default 0 p in
  let initialBoard0 := default INITIAL_BOARD b in
  reset (Some initialBoard0) (Some currentPlayer0)
    {| initialBoard := initialBoard0; initialPlayer := currentPlayer0;
       board := []; currentPlayer := currentPlayer0; gameOver := false |}.

Definition clone (e : Engine) : Engine :=
  let c := new_engine (Some (board e)) (Some (currentPlayer e)) in
  setGameOver (gameOver e) c.

Definition getBoard (e : Engine) : list Z := board e.

Definition getScores (e : Engine) : Scores :=
  {| human := slot (board e) 6; ai := slot (board e) 13 |}.

Definition getValidMoves (e : Engine) (player : Z) : result (list Z) :=
  if gameOver e then Returned []
  else
    match PIT_RANGE player with
    | None => Raised TypeError
    | Some range =>
        Returned (filter (fun pit => 0 < slot (board e) pit)
                    (pits (start range) (end_ range)))
    end.

Definition isValidMove (e : Engine) (pitIndex player : Z) : bool :=
  if gameOver e then false
  else
    match PIT_RANGE player with
    | None => false
    | Some range =>
        (start range <=? pitIndex) && (pitIndex <=? end_ range)
        && (0 <? slot (board e) pitIndex)
    end.

Definition shouldSkipPosition (position player : Z) : bool :=
  ((player =? 0) && (position =? 13)) || ((player =? 1) && (position =? 6)).

Definition isOwnStore (position player : Z) : result bool :=
  match PIT_RANGE player with
  | None => Raised TypeError
  | Some range => Returned (position =? store range)
  end.

Definition isOwnSide (position player : Z) : result bool :=
  match PIT_RANGE player with
  | None => Raised TypeError
  | Some range => Returned ((start range <=? position) && (position <=? end_ range))
  end.

(** [for (pit = first; pit <= last; pit++) if (b[pit] !== 0) return false;
    return true] *)
Definition allZero (b : list Z) (first last : Z) : bool :=
  forallb (fun pit => slot b pit =? 0) (pits first last).

Definition isSideEmpty (player : Z) (e : Engine) : result bool :=
  match PIT_RANGE player with
  | None => Raised TypeError
  | Some range => Returned (allZero (board e) (start range) (end_ range))
  end.

(** [total = 0; for (pit = first; pit <= last; pit++) total += b[pit]].
    On a board without negative counts every running total is at most the
    whole, so the sums are the program's when the whole is at most
    [MAX_SAFE_INTEGER]. *)
Definition sumSlots (b : list Z) (first last : Z) : Z :=
  foldl (fun total pit => total + slot b pit) 0 (pits first last).

Definition sumRange (first last : Z) (e : Engine) : Z :=
  sumSlots (board e) first last.

(** [captured = oppositeStones + 1] and [board[store] += captured] are
    integers' sums, the program's up to [MAX_SAFE_INTEGER]. *)
Definition tryCapture (position player : Z) : M (option Capture.t) :=
  own <- call (fun _ => isOwnSide position player) ;;
  if negb own then ret None
  else
    landed <- this (fun e => slot (board e) position) ;;
    if negb (landed =? 1) then ret None
    else
      let opposite := 12 - position in
      oppositeStones <- this (fun e => slot (board e) opposite) ;;
      if oppositeStones =? 0 then ret None
      else
        match PIT_RANGE player with
        | None => throw TypeError
        | Some range =>
            let store := store range in
            let captured := oppositeStones + 1 in
            inStore <- this (fun e => slot (board e) store) ;;
            writeSlot store (inStore + captured) ;;
            writeSlot position 0 ;;
            writeSlot opposite 0 ;;
            ret (Some {| Capture.pit := position; Capture.opposite := opposite;
                         Capture.store := store; Capture.captured := captured |})
        end.

(** [for (let pit = first; pit <= last; pit++) b[pit] = 0] *)
Definition clearSlots (b : list Z) (first last : Z) : list Z :=
  foldl (fun b pit => setSlot b pit 0) b (pits first last).

Definition clearRange (first last : Z) : M unit :=
  assign (fun e => setBoard (clearSlots (board e) first last) e).

(** Each store receives [inStore + remaining], an integers' sum, the
    program's up to [MAX_SAFE_INTEGER]. *)
Definition collectRemainingStones : M Sweep.t :=
  humanRemaining <- this (sumRange 0 5) ;;
  aiRemaining <- this (sumRange 7 12) ;;
  (if 0 <? humanRemaining then
     inStore <- this (fun e => slot (board e) 6) ;;
     writeSlot 6 (inStore + humanRemaining) ;;
     clearRange 0 5
   else ret tt) ;;
  (if 0 <? aiRemaining then
     inStore <- this (fun e => slot (board e) 13) ;;
     writeSlot 13 (inStore + aiRemaining) ;;
     clearRange 7 12
   else ret tt) ;;
  b <- this getBoard ;;
  sc <- this getScores ;;
  ret {| Sweep.humanRemaining := humanRemaining; Sweep.aiRemaining := aiRemaining;
         Sweep.board := b; Sweep.scores := sc |}.

(** The [while (stones > 0)] loop of [applyMove]; its local variables are
    [stones], [position] and the [sequence] of the summary.  [stones - 1]
    and [here + 1] are the program's for counts up to [MAX_SAFE_INTEGER];
    beyond it the program's [stones -= 1] can leave [stones] as it is. *)
Fixpoint sow_loop (fuel : nat) (player stones position : Z) (sequence : list Z)
  : M (Z * list Z) :=
  if 0 <? stones then
    match fuel with
    | O => diverge
    | S fuel' =>
        let position := Z.rem (position + 1) 14 in
        if shouldSkipPosition position player then
          sow_loop fuel' player stones position sequence
        else
          here <- this (fun e => slot (board e) position) ;;
          writeSlot position (here + 1) ;;
          sow_loop fuel' player (stones - 1) position (sequence ++ [position])
    end
  else ret (position, sequence).

(** Every second iteration at least drops a stone. *)
Definition sow_fuel (stones : Z) : nat := Z.to_nat (2 * stones).

(** The phases of [applyMove] after validation, in the order of the source:
    sowing (lines 90-102), capture (107-112), end of game (114-117) and the
    turn (119-121). *)
Definition sowing (pitIndex player stonesPicked : Z) : M (Z * list Z) :=
  writeSlot pitIndex 0 ;;
  sow_loop (sow_fuel stonesPicked) player stonesPicked pitIndex [].

Definition capturing (position player : Z) (landedInStore : bool)
  : M (option Capture.t) :=
  if negb landedInStore then tryCapture position player else ret None.

Definition ending : M (option Sweep.t) :=
  empty0 <- call (isSideEmpty 0) ;;
  empty <- (if empty0 then ret true else call (isSideEmpty 1)) ;;
  if empty then
    s <- collectRemainingStones ;;
    assign (setGameOver true) ;;
    ret (Some s)
  else ret None.

Definition passing (player : Z) (landedInStore : bool) : M unit :=
  over <- this gameOver ;;
  if negb landedInStore && negb over then assign (setCurrentPlayer (1 - player))
  else ret tt.

Definition applyMove (pitIndex : Z) : M MoveSummary.t :=
  over <- this gameOver ;;
  if over then throw GameEnded
  else
    valid <- this (fun e => isValidMove e pitIndex (currentPlayer e)) ;;
    if negb valid then throw (InvalidMove pitIndex)
    else
      player <- this currentPlayer ;;
      stonesPicked <- this (fun e => slot (board e) pitIndex) ;;
      walk <- sowing pitIndex player stonesPicked ;;
      let position := fst walk in
      let sequence := snd walk in
      landedInStore <- call (fun _ => isOwnStore position player) ;;
      capture <- capturing position player landedInStore ;;
      sweep <- ending ;;
      passing player landedInStore ;;
      b <- this getBoard ;;
      cp <- this currentPlayer ;;
      go <- this gameOver ;;
      sc <- this getScores ;;
      ret {| MoveSummary.player := player;
             MoveSummary.pitIndex := pitIndex;
             MoveSummary.stonesPicked := stonesPicked;
             MoveSummary.sequence := sequence;
             MoveSummary.lastPosition := position;
             MoveSummary.landedInStore := landedInStore;
             MoveSummary.capture := capture;
             MoveSummary.sweep := sweep;
             MoveSummary.extraTurn := landedInStore;
             MoveSummary.board := b;
             MoveSummary.currentPlayer := cp;
             MoveSummary.gameOver := go;
             MoveSummary.scores := sc |}.

Definition simulateMove (e : Engine) (pitIndex : Z) : result (Engine * MoveSummary.t) :=
  match applyMove pitIndex (clone e) with
  | (Returned r, c) => Returned (c, r)
  | (Raised x, _) => Raised x
  | (Diverged, _) => Diverged
  end.

(** ** The move evaluator of the front end

    The front end keeps the engine in [this.engine]; its evaluator only
    simulates on clones, so it is a function of the engine.  A score is a
    JavaScript number, that is a binary64 floating-point number: it is a
    [spec_float] of the Standard Library, and [+], [-], [*] and [>] on
    scores are the operations of its specification of IEEE 754 arithmetic at
    precision 53 and maximal exponent 1024, which round to nearest, ties to
    even, and know the infinities and NaN. *)

Module Number.

Definition t : Type := spec_float.

Definition prec : Z := 53.
Definition emax : Z := 1024.

(** The number of the program that an integer of the model stands for: the
    integer itself up to [MAX_SAFE_INTEGER], the nearest binary64 number
    beyond. *)
Definition of_Z (z : Z) : t := binary_normalize prec emax z 0 false.

Definition add (a b : t) : t := SFadd prec emax a b.
Definition sub (a b : t) : t := SFsub prec emax a b.
Definition mul (a b : t) : t := SFmul prec emax a b.

(** [a > b] *)
Definition gt (a b : t) : bool := SFltb b a.

(** [-Infinity] *)
Definition NegInfinity : t := S754_infinity true.

(** [0.6]: the binary64 number nearest to 6/10, which is
    5404319552844595 / 2^53. *)
Definition zero_point_six : t := S754_finite false 5404319552844595 (-53).

Definition isNaN (a : t) : bool :=
  match a with S754_nan => true | _ => false end.

End Number.

Definition num : Type := Number.t.

(** [score - worst * 0.6] *)
Definition dampen (score worst : num) : num :=
  Number.sub score (Number.mul worst Number.zero_point_six).

Definition HUMAN_PLAYER : Z := 0.
Definition AI_PLAYER : Z := 1.

Inductive Key : Type := human_key | ai_key.

(** [scores[key]] *)
Definition score_of (sc : Scores) (k : Key) : Z :=
  match k with human_key => human sc | ai_key => ai sc end.

(** [for (const x of l) body], with the loop's variables in [s] *)
Fixpoint for_of {A S : Type} (l : list A) (body : S -> A -> result S) (s : S)
  : result S :=
  match l with
  | [] => Returned s
  | x :: l' =>
      match body s x with
      | Returned s' => for_of l' body s'
      | Raised ex => Raised ex
      | Diverged => Diverged
      end
  end.

(** [(scores[a] - scores[b]) * factor] *)
Definition lead (sc : Scores) (a b : Key) (factor : Z) : num :=
  Number.mul (Number.sub (Number.of_Z (score_of sc a)) (Number.of_Z (score_of sc b)))
    (Number.of_Z factor).

(** The score of a reply, from the opponent's side (the same in both
    versions of the front end). *)
Definition reply_score (playerKey opponentKey : Key) (oppResult : MoveSummary.t)
  : num :=
  let sc := MoveSummary.scores oppResult in
  let oppScore := lead sc opponentKey playerKey 6 in
  let oppScore :=
    if MoveSummary.extraTurn oppResult then Number.add oppScore (Number.of_Z 35)
    else oppScore in
  let oppScore :=
    match MoveSummary.capture oppResult with
    | Some c =>
        Number.add oppScore
          (Number.add (Number.of_Z 15)
             (Number.mul (Number.of_Z (Capture.captured c)) (Number.of_Z 2)))
    | None => oppScore
    end in
  if MoveSummary.gameOver oppResult
  then Number.add oppScore (lead sc opponentKey playerKey 15)
  else oppScore.

(** The score of the move itself, before looking at replies. *)
Definition own_score (playerKey opponentKey : Key) (result : MoveSummary.t) : num :=
  let sc := MoveSummary.scores result in
  let score := lead sc playerKey opponentKey 6 in
  let score :=
    if MoveSummary.extraTurn result then Number.add score (Number.of_Z 40)
    else score in
  match MoveSummary.capture result with
  | Some c =>
      Number.add score
        (Number.add (Number.of_Z 15)
           (Number.mul (Number.of_Z (Capture.captured c)) (Number.of_Z 3)))
  | None => score
  end.

(** [chooseBestAIMove], and the same loop in [showHint], for [player]. *)
Section ChooseBest.
Variable evaluateMove : Engine -> Z -> Z -> result num.

Definition better (e : Engine) (player : Z) (best : Z * num) (pit : Z)
  : result (Z * num) :=
  match evaluateMove e player pit with
  | Returned score =>
      Returned (if Number.gt score (snd best) then (pit, score) else best)
  | Raised ex => Raised ex
  | Diverged => Diverged
  end.

Definition chooseBest (e : Engine) (player : Z) : result (option Z) :=
  match getValidMoves e player with
  | Returned candidateMoves =>
      match candidateMoves with
      | [] => Returned None
      | first :: _ =>
          match for_of candidateMoves (better e player)
                  (first, Number.NegInfinity) with
          | Returned best => Returned (Some (fst best))
          | Raised ex => Raised ex
          | Diverged => Diverged
          end
      end
  | Raised ex => Raised ex
  | Diverged => Diverged
  end.
End ChooseBest.

(** The front end with animation (first copy of the front end). *)
Module Game.

Definition reply (sim : Engine) (opponent : Z) (playerKey opponentKey : Key)
    (worstOpponent : num) (oppPit : Z) : result num :=
  let opponentPerspective := setCurrentPlayer opponent (clone sim) in
  match simulateMove opponentPerspective oppPit with
  | Returned (_, oppResult) =>
      let oppScore := reply_score playerKey opponentKey oppResult in
      Returned (if Number.gt oppScore worstOpponent then oppScore else worstOpponent)
  | Raised ex => Raised ex
  | Diverged => Diverged
  end.

Definition evaluateMove (e : Engine) (player pitIndex : Z) : result num :=
  match simulateMove e pitIndex with
  | Returned (simulatedEngine, result) =>
      let playerKey := if player =? HUMAN_PLAYER then human_key else ai_key in
      let opponentKey := if player =? HUMAN_PLAYER then ai_key else human_key in
      let score := own_score playerKey opponentKey result in
      if MoveSummary.gameOver result then
        let finalScores := MoveSummary.scores result in
        Returned (Number.add score (lead finalScores playerKey opponentKey 20))
      else if MoveSummary.extraTurn result then Returned score
      else
        let opponent := if player =? HUMAN_PLAYER then AI_PLAYER else HUMAN_PLAYER in
        match getValidMoves simulatedEngine opponent with
        | Returned opponentMoves =>
            if (Z.of_nat (length opponentMoves) =? 0)
            then Returned (Number.add score (Number.of_Z 10))
            else
              match for_of opponentMoves
                      (reply simulatedEngine opponent playerKey opponentKey)
                      Number.NegInfinity with
              | Returned worstOpponent => Returned (dampen score worstOpponent)
              | Raised ex => Raised ex
              | Diverged => Diverged
              end
        | Raised ex => Raised ex
        | Diverged => Diverged
        end
  | Raised ex => Raised ex
  | Diverged => Diverged
  end.

Definition chooseBestAIMove (e : Engine) : result (option Z) :=
  chooseBest evaluateMove e AI_PLAYER.

(** The move [showHint] suggests. *)
Definition hintMove (e : Engine) : result (option Z) :=
  chooseBest evaluateMove e HUMAN_PLAYER.

End Game.

(** The front end without animation (second copy of the front end): replies
    are simulated on the engine after the move as it is, and a move that
    earns an extra turn is looked ahead like any other. *)
Module PlainGame.

Definition reply (sim : Engine) (playerKey opponentKey : Key)
    (worstOpponent : num) (oppPit : Z) : result num :=
  match simulateMove sim oppPit with
  | Returned (_, oppResult) =>
      let oppScore := reply_score playerKey opponentKey oppResult in
      Returned (if Number.gt oppScore worstOpponent then oppScore else worstOpponent)
  | Raised ex => Raised ex
  | Diverged => Diverged
  end.

Definition evaluateMove (e : Engine) (player pitIndex : Z) : result num :=
  match simulateMove e pitIndex with
  | Returned (simulatedEngine, result) =>
      let playerKey := if player =? HUMAN_PLAYER then human_key else ai_key in
      let opponentKey := if player =? HUMAN_PLAYER then ai_key else human_key in
      let score := own_score playerKey opponentKey result in
      if MoveSummary.gameOver result then
        let finalScores := MoveSummary.scores result in
        Returned (Number.add score (lead finalScores playerKey opponentKey 20))
      else
        let opponent := if player =? HUMAN_PLAYER then AI_PLAYER else HUMAN_PLAYER in
        match getValidMoves simulatedEngine opponent with
        | Returned opponentMoves =>
            if (Z.of_nat (length opponentMoves) =? 0)
            then Returned (Number.add score (Number.of_Z 10))
            else
              match for_of opponentMoves
                      (reply simulatedEngine playerKey opponentKey)
                      Number.NegInfinity with
              | Returned worstOpponent => Returned (dampen score worstOpponent)
              | Raised ex => Raised ex
              | Diverged => Diverged
              end
        | Raised ex => Raised ex
        | Diverged => Diverged
        end
  | Raised ex => Raised ex
  | Diverged => Diverged
  end.

Definition chooseBestAIMove (e : Engine) : result (option Z) :=
  chooseBest evaluateMove e AI_PLAYER.

End PlainGame.

(** ** The game around the engine (first copy of the front end)

    [MancalaGame] keeps the engine, the lock on the input and the flag of a
    running animation.  Of what it shows, the state below records the
    messages of [showMessage] and the sounds asked of the sound manager
    (latest first), the pending [setTimeout] calls for [makeAIMove] with
    their delays (latest first), and what the game-over dialog displays when
    it is open.  The elements of the page that the class looks up are taken
    to exist.  Drawing the board reads the state and changes none of it. *)
Module MancalaGame.

Inductive Message : Type :=
| YourTurnClick          (* Your turn! Click on any of your pits to start. *)
| PleaseWait             (* Please wait for the AI to finish its turn. *)
| NotYourTurn            (* It's not your turn right now! *)
| ChooseAPit             (* Choose a pit that contains stones. *)
| Captured (n : Z)       (* Captured n stones! *)
| AICaptured (n : Z)     (* AI captured n stones! *)
| AnotherTurn            (* You get another turn! *)
| AIAnotherTurn          (* AI gets another turn! *)
| AIThinking             (* AI is thinking... *)
| AINoMoves              (* AI has no moves. *)
| YouWon                 (* Congratulations! You won! *)
| AIWon                  (* AI wins this time. Try again! *)
| ItsATie                (* It's a tie! Great game! *)
| GameIsOver             (* The game is over. *)
| HintsOnYourTurn        (* Hints are only available on your turn! *)
| NoMovesAvailable       (* No moves available! *)
| Hint (n : Z)           (* Hint: Try pit n. *)
| NewGameStarted.        (* New game started! Your turn. *)

Inductive Sound : Type := playMove | playCapture | playWin.

Inductive ResultText : Type := YouWin | AIWins | Tie.

Record GameOver : Type := {
  resultText : ResultText;
  humanScore : Z;
  aiScore : Z
}.

Record t : Type := {
  engine : Engine;
  soundManager : bool;
  inputLocked : bool;
  animationInProgress : bool;
  messages : list Message;
  sounds : list Sound;
  timers : list Z;
  gameOverModal : option GameOver
}.

Definition setEngine (e : Engine) (g : t) : t :=
  {| engine := e; soundManager := soundManager g; inputLocked := inputLocked g;
     animationInProgress := animationInProgress g; messages := messages g;
     sounds := sounds g; timers := timers g; gameOverModal := gameOverModal g |}.

Definition lockInput (locked : bool) (g : t) : t :=
  {| engine := engine g; soundManager := soundManager g; inputLocked := locked;
     animationInProgress := animationInProgress g; messages := messages g;
     sounds := sounds g; timers := timers g; gameOverModal := gameOverModal g |}.

Definition showMessage (m : Message) (g : t) : t :=
  {| engine := engine g; soundManager := soundManager g; inputLocked := inputLocked g;
     animationInProgress := animationInProgress g; messages := m :: messages g;
     sounds := sounds g; timers := timers g; gameOverModal := gameOverModal g |}.

(** [if (this.soundManager) this.soundManager.play...()] *)
Definition play (s : Sound) (g : t) : t :=
  if soundManager g then
    {| engine := engine g; soundManager := soundManager g;
       inputLocked := inputLocked g; animationInProgress := animationInProgress g;
       messages := messages g; sounds := s :: sounds g; timers := timers g;
       gameOverModal := gameOverModal g |}
  else g.

(** [setTimeout(() => void this.makeAIMove(), delay)] *)
Definition setTimeout (delay : Z) (g : t) : t :=
  {| engine := engine g; soundManager := soundManager g; inputLocked := inputLocked g;
     animationInProgress := animationInProgress g; messages := messages g;
     sounds := sounds g; timers := delay :: timers g;
     gameOverModal := gameOverModal g |}.

Definition setGameOverModal (m : option GameOver) (g : t) : t :=
  {| engine := engine g; soundManager := soundManager g; inputLocked := inputLocked g;
     animationInProgress := animationInProgress g; messages := messages g;
     sounds := sounds g; timers := timers g; gameOverModal := m |}.

(** [new MancalaGame({ soundManager })] *)
Definition new_game (soundManager : bool) : t :=
  {| engine := new_engine None None; soundManager := soundManager;
     inputLocked := false; animationInProgress := false;
     messages := [YourTurnClick]; sounds := []; timers := [];
     gameOverModal := None |}.

(** [makeMove(pitIndex)]: the game with the message shown, and the pit
    handed to [performMove] when the click is accepted. *)
Definition makeMove (pitIndex : Z) (g : t) : t * option Z :=
  if gameOver (engine g) then (g, None)
  else if inputLocked g then (showMessage PleaseWait g, None)
  else if negb (currentPlayer (engine g) =? HUMAN_PLAYER)
  then (showMessage NotYourTurn g, None)
  else if negb (isValidMove (engine g) pitIndex HUMAN_PLAYER)
  then (showMessage ChooseAPit g, None)
  else (g, Some pitIndex).

(** [shouldEnable] of [updatePitInteractivity(board)] for the pit drawn at
    [index]. *)
Definition shouldEnable (g : t) (board : list Z) (index : Z) : bool :=
  negb (gameOver (engine g)) && negb (inputLocked g)
  && (currentPlayer (engine g) =? HUMAN_PLAYER) && (0 <? slot board index).

Definition handleGameOver (g : t) : t :=
  let board := getBoard (engine g) in
  let humanScore := slot board 6 in
  let aiScore := slot board 13 in
  let shown :=
    if aiScore <? humanScore then (YouWin, showMessage YouWon (play playWin g))
    else if humanScore <? aiScore then (AIWins, showMessage AIWon g)
    else (Tie, showMessage ItsATie g) in
  setGameOverModal
    (Some {| resultText := fst shown; humanScore := humanScore; aiScore := aiScore |})
    (snd shown).

Definition AI_MOVE_DELAY_MS : Z := 0.
Definition AI_EXTRA_TURN_DELAY_MS : Z := 0.

Definition scheduleAIMove (delay : Z) (g : t) : t :=
  if gameOver (engine g) then lockInput false g
  else
    let g := lockInput true g in
    let actualDelay := Z.max 0 delay in
    let g := if 0 <? actualDelay then showMessage AIThinking g else g in
    setTimeout actualDelay g.

Definition handleMoveOutcome (result : MoveSummary.t) (g : t) : t :=
  let g :=
    match MoveSummary.capture result with
    | Some c =>
        let captured := Capture.captured c in
        play playCapture
          (if MoveSummary.player result =? HUMAN_PLAYER
           then showMessage (Captured captured) g
           else showMessage (AICaptured captured) g)
    | None => g
    end in
  if MoveSummary.gameOver result then handleGameOver (lockInput true g)
  else if MoveSummary.extraTurn result then
    if MoveSummary.player result =? HUMAN_PLAYER
    then showMessage AnotherTurn (lockInput false g)
    else scheduleAIMove AI_EXTRA_TURN_DELAY_MS (showMessage AIAnotherTurn g)
  else if currentPlayer (engine g) =? AI_PLAYER then scheduleAIMove AI_MOVE_DELAY_MS g
  else lockInput false g.

(** [makeAIMove()] up to its call of [performMove]: the game, and the move
    handed to [performMove] when there is one. *)
Definition makeAIMove (g : t) : result (t * option Z) :=
  if gameOver (engine g) then Returned (lockInput true g, None)
  else if negb (currentPlayer (engine g) =? AI_PLAYER)
  then Returned (lockInput false g, None)
  else
    match Game.chooseBestAIMove (engine g) with
    | Returned None =>
        let g := lockInput false g in
        Returned (if negb (gameOver (engine g)) then showMessage AINoMoves g else g,
                  None)
    | Returned (Some move) => Returned (g, Some move)
    | Raised ex => Raised ex
    | Diverged => Diverged
    end.

Definition showHint (g : t) : result t :=
  if gameOver (engine g) then Returned (showMessage GameIsOver g)
  else if negb (currentPlayer (engine g) =? HUMAN_PLAYER)
  then Returned (showMessage HintsOnYourTurn g)
  else if inputLocked g then Returned (showMessage PleaseWait g)
  else
    match Game.hintMove (engine g) with
    | Returned None => Returned (showMessage NoMovesAvailable g)
    | Returned (Some bestMove) => Returned (showMessage (Hint (bestMove + 1)) g)
    | Raised ex => Raised ex
    | Diverged => Diverged
    end.

Definition newGame (g : t) : t :=
  let g := setEngine (reset None None (engine g)) g in
  let g := lockInput false g in
  let g := setGameOverModal None g in
  showMessage NewGameStarted g.

(** [index >= 0 && index < animationBoard.length] *)
Definition inside (animationBoard : list Z) (index : Z) : bool :=
  (0 <=? index) && (index <? Z.of_nat (length animationBoard)).

(** [animationBoard[position] = v] under the guard of [animateMove] *)
Definition redraw (animationBoard : list Z) (position : Z) (v : Z -> Z) : list Z :=
  if inside animationBoard position
  then setSlot animationBoard position (v (slot animationBoard position))
  else animationBoard.

(** The board [animateMove(boardBeforeMove, result)] has drawn when it
    reaches its last [renderBoard]: the local [animationBoard] after the
    origin has been emptied, the stones dropped along [result.sequence], the
    capture moved and the sweep copied; [None] when [boardBeforeMove] has
    fewer than 14 slots and nothing is animated.  A slot of [sweepBoard]
    beyond its end is read as 0, as by [slot]. *)
Definition animateMove (boardBeforeMove : list Z) (result : MoveSummary.t)
  : option (list Z) :=
  if Z.of_nat (length boardBeforeMove) <? 14 then None
  else
    let animationBoard := boardBeforeMove in
    let animationBoard :=
      redraw animationBoard (MoveSummary.pitIndex result) (fun _ => 0) in
    let animationBoard :=
      foldl (fun b position => redraw b position (fun v => v + 1)) animationBoard
        (MoveSummary.sequence result) in
    let animationBoard :=
      match MoveSummary.capture result with
      | Some c =>
          let b := redraw animationBoard (Capture.pit c) (fun _ => 0) in
          let b := redraw b (Capture.opposite c) (fun _ => 0) in
          redraw b (Capture.store c) (fun v => v + Capture.captured c)
      | None => animationBoard
      end in
    Some
      match MoveSummary.sweep result with
      | Some s =>
          foldl (fun b i => setSlot b i (slot (Sweep.board s) i)) animationBoard
            (seqZ 0 (Z.of_nat (length animationBoard)))
      | None => animationBoard
      end.

End MancalaGame.

(** ** The key listener of the page (the Konami code) *)

Definition konamiSequence : list string :=
  ["ArrowUp"; "ArrowUp"; "ArrowDown"; "ArrowDown"; "ArrowLeft"; "ArrowRight";
   "ArrowLeft"; "ArrowRight"; "KeyB"; "KeyA"]%string.

(** [codes.join(",")] *)
Definition join (codes : list string) : string := String.concat "," codes.

(** The [keydown] listener on a key with code [code]: the buffer
    [konamiInput] after it, and whether it switches rainbow mode on. *)
Definition konami_keydown (konamiInput : list string) (code : string)
  : list string * bool :=
  let konamiInput := konamiInput ++ [code] in
  let konamiInput :=
    if (length konamiSequence <? length konamiInput)%nat then tail konamiInput
    else konamiInput in
  (konamiInput, bool_decide (join konamiInput = join konamiSequence)).

(** The listener over the keys pressed since the page was loaded. *)
Definition konami_keys (codes : list string) : list string * bool :=
  foldl (fun state code => konami_keydown (fst state) code) ([], false) codes.

(** ** Vocabulary of the properties *)

(** The position after [position] on the board: [(position + 1) % 14]. *)
Definition next (position : Z) : Z := Z.rem (position + 1) 14.
Arguments next : simpl never.

(** One stone dropped into [position]. *)
Definition drop (position : Z) (e : Engine) : Engine :=
  setBoard (setSlot (board e) position (slot (board e) position + 1)) e.

(** How often the walk dropped a stone into slot [j]. *)
Definition drops (j : Z) (dropped : list Z) : Z :=
  Z.of_nat (count_occ Z.eq_dec dropped j).

(** What a run of the loop from [(stones, position)] on engine [e] gives:
    the final [position'], the positions [dropped] into, and the engine
    [e']. *)
Record sown (player stones position : Z) (e : Engine)
    (position' : Z) (dropped : list Z) (e' : Engine) : Prop := {
  sown_frame : e' = setBoard (board e') e;
  sown_length : length (board e') = 14%nat;
  sown_count : Z.of_nat (length dropped) = stones;
  sown_range :
    Forall (fun p => 0 <= p < 14 /\ shouldSkipPosition p player = false) dropped;
  sown_slots :
    forall j, 0 <= j -> slot (board e') j = slot (board e) j + drops j dropped;
  sown_sum : sumSlots (board e') 0 13 = sumSlots (board e) 0 13 + stones;
  sown_last :
    if decide (stones = 0) then position' = position /\ dropped = []
    else list.last dropped = Some position';
  sown_position : 0 <= position' < 14
}.

(** The board after a capture at [position] into [store]. *)
Definition capture_board (b : list Z) (position store : Z) : list Z :=
  let opposite := 12 - position in
  setSlot (setSlot (setSlot b store (slot b store + (slot b opposite + 1))) position 0)
    opposite 0.

(** The board after [collectRemainingStones]. *)
Definition swept (b : list Z) : list Z :=
  let h := sumSlots b 0 5 in
  let a := sumSlots b 7 12 in
  let b1 := if 0 <? h then clearSlots (setSlot b 6 (slot b 6 + h)) 0 5 else b in
  if 0 <? a then clearSlots (setSlot b1 13 (slot b1 13 + a)) 7 12 else b1.

(** A board of the data model: 14 slots, none negative. *)
Definition board_ok (b : list Z) : Prop :=
  length b = 14%nat /\ Forall (fun v => 0 <= v) b.


(** The states a game goes through: successful calls of [applyMove]. *)
Inductive reachable (e0 : Engine) : Engine -> Prop :=
| reach_start : reachable e0 e0
| reach_move e pitIndex summary e' :
    reachable e0 e ->
    applyMove pitIndex e = (Returned summary, e') ->
    reachable e0 e'.

(** The engine after the turn has been passed or kept. *)
Definition passed (player : Z) (landedInStore : bool) (e : Engine) : Engine :=
  if negb landedInStore && negb (gameOver e) then setCurrentPlayer (1 - player) e
  else e.

(** Boards of the examples. *)
Definition default_engine : Engine := new_engine None None.

Definition skip_engine : Engine :=
  new_engine (Some [10; 0; 0; 0; 0; 0; 0; 4; 4; 4; 4; 4; 4; 0]) (Some 0).

Definition sweep_engine : Engine :=
  new_engine (Some [0; 0; 0; 0; 0; 1; 20; 0; 0; 0; 0; 0; 5; 15]) (Some 0).

Definition capture_engine : Engine :=
  new_engine (Some [0; 0; 0; 1; 0; 0; 0; 4; 3; 4; 4; 4; 4; 0]) (Some 0).

(** The default game after the first player has sown pit 0. *)
Definition reply_engine : Engine :=
  new_engine (Some [0; 5; 5; 5; 5; 4; 0; 4; 4; 4; 4; 4; 4; 0]) (Some 1).

(** The score of a pit where the evaluator returns. *)
Definition score_of_move (evaluateMove : Engine -> Z -> Z -> result num)
    (e : Engine) (player pit : Z) : num :=
  match evaluateMove e player pit with
  | Returned score => score
  | _ => S754_nan
  end.

(** The slot a stone is dropped into after [position]: the next one, or the
    one after it when the next is the opponent's store. *)
Definition step (player position : Z) : Z :=
  if shouldSkipPosition (next position) player then next (next position)
  else next position.

(** The slots the next [n] stones are dropped into, starting after
    [position]. *)
Fixpoint walk (player position : Z) (n : nat) : list Z :=
  match n with
  | O => []
  | S n' => step player position :: walk player (step player position) n'
  end.

(** The engine [e] with other recorded initial board and starting player. *)
Definition reinit (b : list Z) (p : Z) (e : Engine) : Engine :=
  {| initialBoard := b; initialPlayer := p;
     board := board e; currentPlayer := currentPlayer e; gameOver := gameOver e |}.

(** The own store of a player. *)
Definition store_of (player : Z) : Z := if player =? 0 then 6 else 13.

(** A method that neither reads nor writes the recorded initial board and
    starting player. *)
Definition respects {A} (c : M A) : Prop :=
  forall b p e, c (reinit b p e) = (fst (c e), reinit b p (snd (c e))).

(** The key of a player in the scores, and the other player, as
    [evaluateMove] computes them. *)
Definition key_of (player : Z) : Key :=
  if player =? HUMAN_PLAYER then human_key else ai_key.

Definition opponent_of (player : Z) : Z :=
  if player =? HUMAN_PLAYER then AI_PLAYER else HUMAN_PLAYER.


(** [best] is the choice of [chooseBest] among the valid pits of [player]: it
    is one of them, no valid pit scores more than it, and it scores more than
    every valid pit of lower index whose score is not NaN. *)
Definition chosen (evaluateMove : Engine -> Z -> Z -> result num)
    (e : Engine) (player best : Z) : Prop :=
  isValidMove e best player = true
  /\ exists sb,
       evaluateMove e player best = Returned sb
       /\ forall pit, isValidMove e pit player = true ->
            exists sp,
              evaluateMove e player pit = Returned sp
              /\ Number.gt sp sb = false
              /\ (pit < best -> Number.isNaN sp = false -> Number.gt sb sp = true).

(** The order of the numbers that compare: [a > b] holds exactly when neither
    is NaN and the rank of [b] comes before the rank of [a]. *)
Definition rank (a : num) : Z * Z * Z :=
  match a with
  | S754_nan => (0, 0, 0)
  | S754_infinity true => (-2, 0, 0)
  | S754_infinity false => (2, 0, 0)
  | S754_zero _ => (0, 0, 0)
  | S754_finite false m e => (1, e, Zpos m)
  | S754_finite true m e => (-1, - e, Zneg m)
  end.

Definition before (r r' : Z * Z * Z) : Prop :=
  r.1.1 < r'.1.1
  \/ (r.1.1 = r'.1.1 /\ (r.1.2 < r'.1.2 \/ (r.1.2 = r'.1.2 /\ r.2 < r'.2))).

(** * Properties *)

(** ** Reading and writing slots *)

Section Slots.
Implicit Types (b : list Z) (i j v first last : Z).

Lemma length_setSlot b i v : length (setSlot b i v) = length b.
Proof. unfold setSlot. destruct (i <? 0); [done|apply length_insert]. Qed.

Lemma slot_setSlot_eq b i v :
  0 <= i < Z.of_nat (length b) -> slot (setSlot b i v) i = v.
Proof.
  intros Hi. unfold slot, setSlot.
  replace (i <? 0) with false by (symmetry; apply Z.ltb_ge; lia).
  rewrite list_lookup_insert_eq by lia. reflexivity.
Qed.

Lemma slot_setSlot_ne b i j v :
  0 <= i -> 0 <= j -> i <> j -> slot (setSlot b i v) j = slot b j.
Proof.
  intros Hi Hj Hne. unfold slot, setSlot.
  replace (i <? 0) with false by (symmetry; apply Z.ltb_ge; lia).
  replace (j <? 0) with false by (symmetry; apply Z.ltb_ge; lia).
  rewrite list_lookup_insert_ne by lia. reflexivity.
Qed.

Lemma slot_setSlot b i j v :
  0 <= i < Z.of_nat (length b) -> 0 <= j ->
  slot (setSlot b i v) j = if decide (i = j) then v else slot b j.
Proof.
  intros Hi Hj. destruct (decide (i = j)) as [->|Hne].
  - now apply slot_setSlot_eq.
  - apply slot_setSlot_ne; lia.
Qed.

Lemma pits_nil first last : last < first -> pits first last = [].
Proof. intros H. unfold pits. apply seqZ_nil. lia. Qed.

Lemma pits_cons first last :
  first <= last -> pits first last = first :: pits (first + 1) last.
Proof.
  intros H. unfold pits. rewrite seqZ_cons by lia.
  f_equal. f_equal; lia.
Qed.

Lemma elem_of_pits first last k : k ∈ pits first last <-> first <= k <= last.
Proof. unfold pits. rewrite elem_of_seqZ. lia. Qed.

(** Induction along a [for] loop from [first] to [last]. *)
Lemma range_ind (P : Z -> Z -> Prop) :
  (forall first last, last < first -> P first last) ->
  (forall first last, first <= last -> P (first + 1) last -> P first last) ->
  forall first last, P first last.
Proof.
  intros Hnil Hcons first last.
  remember (Z.to_nat (last - first + 1)) as n eqn:Hn.
  revert first Hn. induction n as [|n IH]; intros first Hn.
  - apply Hnil. lia.
  - apply Hcons; [lia|]. apply IH. lia.
Qed.

Ltac range_induction first last H IH :=
  revert first last; refine (range_ind _ _ _);
  [intros first last H|intros first last H IH].

Lemma sum_acc b (l : list Z) a :
  foldl (fun total pit => total + slot b pit) a l
  = a + foldl (fun total pit => total + slot b pit) 0 l.
Proof.
  revert a. induction l as [|x l IH]; intros a; simpl; [lia|].
  rewrite (IH (a + slot b x)), (IH (0 + slot b x)). lia.
Qed.

Lemma sumSlots_nil b first last : last < first -> sumSlots b first last = 0.
Proof. intros H. unfold sumSlots. now rewrite pits_nil. Qed.

Lemma sumSlots_cons b first last :
  first <= last ->
  sumSlots b first last = slot b first + sumSlots b (first + 1) last.
Proof.
  intros H. unfold sumSlots. rewrite pits_cons by lia. simpl.
  now rewrite sum_acc.
Qed.

Lemma sumSlots_ext b b' first last :
  (forall j, first <= j <= last -> slot b j = slot b' j) ->
  sumSlots b first last = sumSlots b' first last.
Proof.
  range_induction first last H IH.
  - intros _. now rewrite (sumSlots_nil b), (sumSlots_nil b').
  - intros Hext. rewrite (sumSlots_cons b), (sumSlots_cons b') by lia.
    f_equal; [apply Hext; lia|]. apply IH. intros j Hj. apply Hext. lia.
Qed.

Lemma sumSlots_split b first mid last :
  first <= mid -> mid <= last + 1 ->
  sumSlots b first last = sumSlots b first (mid - 1) + sumSlots b mid last.
Proof.
  range_induction first last H IH.
  - intros H1 H2. assert (mid = first) as -> by lia.
    rewrite (sumSlots_nil b first (first - 1)) by lia. lia.
  - intros H1 H2. destruct (decide (mid = first)) as [->|Hne].
    + rewrite (sumSlots_nil b first (first - 1)) by lia. lia.
    + rewrite (sumSlots_cons b first last), (sumSlots_cons b first (mid - 1)) by lia.
      rewrite IH by lia. lia.
Qed.

Lemma sumSlots_setSlot b i v first last :
  0 <= first -> 0 <= i < Z.of_nat (length b) ->
  sumSlots (setSlot b i v) first last
  = sumSlots b first last
    + (if decide (first <= i <= last) then v - slot b i else 0).
Proof.
  range_induction first last H IH.
  - intros _ Hi.
    rewrite (sumSlots_nil b), (sumSlots_nil (setSlot b i v)) by lia.
    destruct (decide (first <= i <= last)); lia.
  - intros Hf Hi.
    rewrite (sumSlots_cons b), (sumSlots_cons (setSlot b i v)) by lia.
    rewrite IH by lia. rewrite slot_setSlot by lia.
    repeat case_decide; subst; lia.
Qed.

Lemma sumSlots_nonneg b first last :
  (forall j, first <= j <= last -> 0 <= slot b j) ->
  0 <= sumSlots b first last.
Proof.
  range_induction first last H IH.
  - intros _. rewrite sumSlots_nil; lia.
  - intros Hnn. rewrite sumSlots_cons by lia.
    assert (0 <= slot b first) by (apply Hnn; lia).
    assert (0 <= sumSlots b (first + 1) last) by (apply IH; intros; apply Hnn; lia).
    lia.
Qed.

Lemma sumSlots_zero b first last :
  (forall j, first <= j <= last -> slot b j = 0) -> sumSlots b first last = 0.
Proof.
  range_induction first last H IH.
  - intros _. now apply sumSlots_nil.
  - intros Hz. rewrite sumSlots_cons by lia.
    rewrite Hz by lia. rewrite IH; [lia|]. intros; apply Hz; lia.
Qed.

(** On a range of non-negative slots, "sums to zero" and "every slot is
    zero" are the same. *)
Lemma sumSlots_zero_iff b first last :
  (forall j, first <= j <= last -> 0 <= slot b j) ->
  sumSlots b first last = 0 <-> (forall j, first <= j <= last -> slot b j = 0).
Proof.
  intros Hnn. split; [|apply sumSlots_zero].
  revert Hnn. range_induction first last H IH.
  - intros; lia.
  - intros Hnn Hsum j Hj. rewrite sumSlots_cons in Hsum by lia.
    assert (0 <= slot b first) by (apply Hnn; lia).
    assert (0 <= sumSlots b (first + 1) last)
      by (apply sumSlots_nonneg; intros; apply Hnn; lia).
    destruct (decide (j = first)) as [->|Hne]; [lia|].
    apply IH; [intros; apply Hnn; lia|lia|lia].
Qed.

Lemma allZero_true b first last :
  allZero b first last = true <-> (forall j, first <= j <= last -> slot b j = 0).
Proof.
  unfold allZero. rewrite forallb_forall. split.
  - intros H j Hj. apply Z.eqb_eq, H, list_elem_of_In, elem_of_pits. lia.
  - intros H j Hj. apply Z.eqb_eq, H, elem_of_pits, list_elem_of_In, Hj.
Qed.

Lemma length_clearSlots b first last :
  length (clearSlots b first last) = length b.
Proof.
  revert first last b. refine (range_ind _ _ _);
    [intros first last H b|intros first last H IH b]; unfold clearSlots in *.
  - now rewrite pits_nil.
  - rewrite pits_cons by lia. simpl. rewrite IH. apply length_setSlot.
Qed.

Lemma slot_clearSlots b first last j :
  0 <= first -> last < Z.of_nat (length b) -> 0 <= j ->
  slot (clearSlots b first last) j
  = if decide (first <= j <= last) then 0 else slot b j.
Proof.
  revert first last b. refine (range_ind _ _ _);
    [intros first last H b|intros first last H IH b];
    unfold clearSlots in *; intros Hf Hl Hj.
  - rewrite pits_nil by lia. simpl. case_decide; [lia|done].
  - rewrite pits_cons by lia. simpl.
    rewrite IH by (rewrite ?length_setSlot; lia).
    rewrite slot_setSlot by lia. repeat case_decide; try lia; done.
Qed.

End Slots.

(** ** The sowing loop *)

Section Sowing.
Variable player : Z.
Hypothesis Hplayer : player = 0 \/ player = 1.

Lemma next_range position : 0 <= position < 14 -> 0 <= next position < 14.
Proof.
  unfold next. intros H. rewrite Z.rem_mod_nonneg by lia.
  apply Z.mod_pos_bound. lia.
Qed.

(** The walk never skips twice in a row. *)
Lemma skip_once position :
  0 <= position < 14 ->
  shouldSkipPosition position player = true ->
  shouldSkipPosition (next position) player = false.
Proof.
  unfold shouldSkipPosition, next. intros H Hs.
  rewrite Z.rem_mod_nonneg by lia.
  destruct Hplayer; subst player; simpl in *.
  - rewrite orb_false_r in Hs. apply Z.eqb_eq in Hs. now subst.
  - apply Z.eqb_eq in Hs. now subst.
Qed.

Lemma sow_loop_eq fuel stones position sequence e :
  sow_loop fuel player stones position sequence e
  = if 0 <? stones then
      match fuel with
      | O => (Diverged, e)
      | S fuel' =>
          if shouldSkipPosition (next position) player
          then sow_loop fuel' player stones (next position) sequence e
          else sow_loop fuel' player (stones - 1) (next position)
                 (sequence ++ [next position]) (drop (next position) e)
      end
    else (Returned (position, sequence), e).
Proof.
  destruct fuel as [|fuel']; simpl; fold (next position);
    destruct (0 <? stones); try reflexivity.
  destruct (shouldSkipPosition (next position) player); reflexivity.
Qed.

Lemma drops_nil j : drops j [] = 0.
Proof. reflexivity. Qed.

Lemma drops_cons j p dropped :
  drops j (p :: dropped) = (if decide (p = j) then 1 else 0) + drops j dropped.
Proof.
  unfold drops. simpl. destruct (Z.eq_dec p j); case_decide; try lia; congruence.
Qed.

Lemma sow_loop_sown fuel : forall stones position sequence e,
  length (board e) = 14%nat ->
  0 <= position < 14 ->
  0 <= stones ->
  2 * stones + (if shouldSkipPosition (next position) player then 1 else 0)
    <= Z.of_nat fuel ->
  exists position' dropped e',
    sow_loop fuel player stones position sequence e
    = (Returned (position', sequence ++ dropped), e')
    /\ sown player stones position e position' dropped e'.
Proof.
  induction fuel as [|fuel' IH]; intros stones position sequence e Hlen Hpos Hst Hfuel;
    rewrite sow_loop_eq.
  - assert (stones = 0) as -> by (destruct (shouldSkipPosition _ _); lia).
    simpl. exists position, [], e. rewrite app_nil_r. split; [done|].
    split; simpl; try done; try lia.
    + now destruct e.
    + intros j _. rewrite drops_nil. lia.
  - destruct (Z.ltb_spec 0 stones) as [Hpos'|Hzero].
    2:{ assert (stones = 0) as -> by lia.
        exists position, [], e. rewrite app_nil_r. split; [done|].
        split; simpl; try done; try lia.
        - now destruct e.
        - intros j _. rewrite drops_nil. lia. }
    pose proof (next_range position Hpos) as Hnext.
    destruct (shouldSkipPosition (next position) player) eqn:Hskip.
    + (* the opponent's store: one step further, nothing dropped *)
      destruct (IH stones (next position) sequence e) as (p' & d & e' & Hrun & Hs);
        try done.
      { rewrite (skip_once (next position)) by done. lia. }
      exists p', d, e'. split; [done|].
      destruct Hs. split; try done.
      destruct (decide (stones = 0)); [lia|done].
    + (* a stone is dropped *)
      destruct (IH (stones - 1) (next position) (sequence ++ [next position])
                  (drop (next position) e)) as (p' & d & e' & Hrun & Hs).
      { simpl. now rewrite length_setSlot. }
      { done. }
      { lia. }
      { destruct (shouldSkipPosition (next (next position)) player); lia. }
      exists p', (next position :: d), e'.
      split; [now rewrite Hrun, <- app_assoc|].
      destruct Hs as [Hfr Hl Hc Hr Hsl Hsum Hlast Hp]. simpl in *.
      split; simpl; try done.
      * lia.
      * constructor; [split; [lia|done]|done].
      * intros j Hj. rewrite Hsl, drops_cons by done.
        rewrite slot_setSlot by lia.
        destruct (decide (next position = j)) as [<-|]; lia.
      * rewrite Hsum, sumSlots_setSlot by lia.
        destruct (decide (0 <= next position <= 13)); lia.
      * destruct (decide (stones = 0)); [lia|].
        destruct (decide (stones - 1 = 0)) as [Hone|Hmore].
        -- destruct Hlast as [-> ->]. done.
        -- destruct d as [|x d]; [done|]. done.
Qed.

(** The loop ends, whatever the board: the fuel bounds the iterations only. *)
Lemma sow_loop_returns fuel : forall stones position sequence e,
  0 <= position < 14 ->
  2 * stones + (if shouldSkipPosition (next position) player then 1 else 0)
    <= Z.of_nat fuel ->
  exists walk e', sow_loop fuel player stones position sequence e = (Returned walk, e').
Proof.
  induction fuel as [|fuel' IH]; intros stones position sequence e Hpos Hfuel;
    rewrite sow_loop_eq.
  - destruct (Z.ltb_spec 0 stones) as [Hlt|Hle]; [|by eexists _, _].
    destruct (shouldSkipPosition _ _); lia.
  - destruct (Z.ltb_spec 0 stones) as [Hlt|Hle]; [|by eexists _, _].
    pose proof (next_range position Hpos) as Hnext.
    destruct (shouldSkipPosition (next position) player) eqn:Hskip.
    + apply IH; [done|]. rewrite (skip_once (next position)) by done. lia.
    + apply IH; [done|].
      destruct (shouldSkipPosition (next (next position)) player); lia.
Qed.

(** The result does not depend on the fuel, once there is enough of it. *)
Lemma sow_loop_more_fuel fuel : forall fuel' stones position sequence e walk e',
  (fuel <= fuel')%nat ->
  sow_loop fuel player stones position sequence e = (Returned walk, e') ->
  sow_loop fuel' player stones position sequence e = (Returned walk, e').
Proof.
  induction fuel as [|fuel IH];
    intros fuel' stones position sequence e walk e' Hle Hrun;
    rewrite sow_loop_eq in Hrun; rewrite sow_loop_eq;
    destruct (0 <? stones); try done.
  destruct fuel' as [|fuel']; [lia|].
  destruct (shouldSkipPosition (next position) player);
    (apply IH; [lia|exact Hrun]).
Qed.

End Sowing.

(** ** The phases of [applyMove] *)

Lemma bind_run {A B} (c : M A) (k : A -> M B) e a e' :
  c e = (Returned a, e') -> bind c k e = k a e'.
Proof. intros H. unfold bind. now rewrite H. Qed.

Lemma setBoard_same e : setBoard (board e) e = e.
Proof. now destruct e. Qed.

Lemma PIT_RANGE_Some player range :
  PIT_RANGE player = Some range ->
  (player = 0 /\ range = {| start := 0; end_ := 5; store := 6 |})
  \/ (player = 1 /\ range = {| start := 7; end_ := 12; store := 13 |}).
Proof.
  unfold PIT_RANGE. destruct (Z.eqb_spec player 0); [intros [= <-]; auto|].
  destruct (Z.eqb_spec player 1); [intros [= <-]; auto|]. discriminate.
Qed.

Lemma isValidMove_true e pitIndex player :
  isValidMove e pitIndex player = true <->
  gameOver e = false
  /\ exists range, PIT_RANGE player = Some range
      /\ start range <= pitIndex <= end_ range
      /\ 0 < slot (board e) pitIndex.
Proof.
  unfold isValidMove. destruct (gameOver e); [split; [discriminate|intros [? _]; done]|].
  destruct (PIT_RANGE player) as [range|].
  - rewrite !andb_true_iff, !Z.leb_le, Z.ltb_lt. split.
    + intros [[H1 H2] H3]. split; [done|]. exists range. repeat split; done.
    + intros (_ & r & [= <-] & [H1 H2] & H3). done.
  - split; [discriminate|]. intros (_ & r & Hr & _). discriminate.
Qed.

Lemma Forall_slot (b : list Z) :
  Forall (fun v => 0 <= v) b -> forall j, 0 <= slot b j.
Proof.
  intros Hb j. unfold slot. destruct (j <? 0); [done|].
  destruct (b !! Z.to_nat j) as [v|] eqn:Hv; simpl; [|done].
  rewrite list.Forall_forall in Hb. apply Hb.
  eapply list_elem_of_lookup_2. exact Hv.
Qed.

Lemma slot_Forall (b : list Z) :
  (forall j, 0 <= j -> 0 <= slot b j) -> Forall (fun v => 0 <= v) b.
Proof.
  intros H. apply Forall_lookup_2. intros i v Hv.
  specialize (H (Z.of_nat i) ltac:(lia)). unfold slot in H.
  replace (Z.of_nat i <? 0) with false in H by (symmetry; apply Z.ltb_ge; lia).
  rewrite Nat2Z.id, Hv in H. exact H.
Qed.

Lemma total_split b :
  sumSlots b 0 13 = sumSlots b 0 5 + slot b 6 + sumSlots b 7 12 + slot b 13.
Proof.
  rewrite (sumSlots_split b 0 6 13), (sumSlots_split b 6 7 13),
    (sumSlots_split b 7 13 13) by lia.
  rewrite (sumSlots_cons b 6 (7 - 1)), (sumSlots_nil b (6 + 1)) by lia.
  rewrite (sumSlots_cons b 13 13), (sumSlots_nil b (13 + 1)) by lia.
  replace (6 - 1) with 5 by lia. replace (13 - 1) with 12 by lia. lia.
Qed.

Lemma tryCapture_eq position player range e :
  PIT_RANGE player = Some range ->
  tryCapture position player e
  = if (start range <=? position) && (position <=? end_ range)
       && (slot (board e) position =? 1)
       && negb (slot (board e) (12 - position) =? 0)
    then (Returned (Some {| Capture.pit := position; Capture.opposite := 12 - position;
                            Capture.store := store range;
                            Capture.captured := slot (board e) (12 - position) + 1 |}),
          setBoard (capture_board (board e) position (store range)) e)
    else (Returned None, e).
Proof.
  intros Hr. unfold tryCapture, bind, call, this, isOwnSide. rewrite Hr.
  destruct ((start range <=? position) && (position <=? end_ range)); simpl; [|done].
  destruct (slot (board e) position =? 1); simpl; [|done].
  destruct (slot (board e) (12 - position) =? 0); simpl; done.
Qed.

Lemma collectRemainingStones_eq e :
  collectRemainingStones e
  = (Returned {| Sweep.humanRemaining := sumSlots (board e) 0 5;
                 Sweep.aiRemaining := sumSlots (board e) 7 12;
                 Sweep.board := swept (board e);
                 Sweep.scores := getScores (setBoard (swept (board e)) e) |},
     setBoard (swept (board e)) e).
Proof.
  unfold collectRemainingStones, swept, bind, this, sumRange, writeSlot, clearRange,
    assign, ret, getBoard, getScores.
  destruct (0 <? sumSlots (board e) 0 5), (0 <? sumSlots (board e) 7 12); simpl;
    try reflexivity.
  now rewrite setBoard_same.
Qed.

Lemma ending_eq e :
  ending e
  = if allZero (board e) 0 5 || allZero (board e) 7 12
    then (Returned (Some {| Sweep.humanRemaining := sumSlots (board e) 0 5;
                            Sweep.aiRemaining := sumSlots (board e) 7 12;
                            Sweep.board := swept (board e);
                            Sweep.scores := getScores (setBoard (swept (board e)) e) |}),
          setGameOver true (setBoard (swept (board e)) e))
    else (Returned None, e).
Proof.
  unfold ending, bind, call, isSideEmpty, ret. simpl.
  destruct (allZero (board e) 0 5); simpl.
  - now rewrite collectRemainingStones_eq.
  - destruct (allZero (board e) 7 12); simpl; [|done].
    now rewrite collectRemainingStones_eq.
Qed.

(** ** Capture and sweep on the board *)

Lemma length_capture_board b position store :
  length (capture_board b position store) = length b.
Proof. unfold capture_board. now rewrite !length_setSlot. Qed.

Lemma slot_capture_board b position store j :
  length b = 14%nat -> 0 <= position <= 12 -> 0 <= store < 14 -> 0 <= j ->
  store <> position -> store <> 12 - position ->
  slot (capture_board b position store) j
  = if decide (j = position \/ j = 12 - position) then 0
    else if decide (j = store) then slot b store + (slot b (12 - position) + 1)
    else slot b j.
Proof.
  intros Hlen Hp Hs Hj Hne1 Hne2. unfold capture_board.
  rewrite !slot_setSlot by (rewrite ?length_setSlot; lia).
  repeat case_decide; subst; try lia; done.
Qed.

Lemma total_capture_board b position store :
  length b = 14%nat -> 0 <= position <= 12 -> 0 <= store < 14 ->
  store <> position -> store <> 12 - position -> position <> 6 ->
  slot b position = 1 ->
  sumSlots (capture_board b position store) 0 13 = sumSlots b 0 13.
Proof.
  intros Hlen Hp Hs Hne1 Hne2 Hne3 Hone. unfold capture_board.
  rewrite !sumSlots_setSlot by (rewrite ?length_setSlot; lia).
  rewrite !slot_setSlot by (rewrite ?length_setSlot; lia).
  repeat case_decide; subst; lia.
Qed.

Lemma length_swept b : length (swept b) = length b.
Proof.
  unfold swept.
  destruct (0 <? sumSlots b 0 5), (0 <? sumSlots b 7 12);
    rewrite ?length_clearSlots, ?length_setSlot, ?length_clearSlots, ?length_setSlot;
    done.
Qed.

Lemma slot_swept b j :
  length b = 14%nat -> 0 <= j ->
  slot (swept b) j
  = if decide (0 <= j <= 5) then (if 0 <? sumSlots b 0 5 then 0 else slot b j)
    else if decide (j = 6)
      then (if 0 <? sumSlots b 0 5 then slot b 6 + sumSlots b 0 5 else slot b 6)
    else if decide (7 <= j <= 12) then (if 0 <? sumSlots b 7 12 then 0 else slot b j)
    else if decide (j = 13)
      then (if 0 <? sumSlots b 7 12 then slot b 13 + sumSlots b 7 12 else slot b 13)
    else slot b j.
Proof.
  intros Hlen Hj. unfold swept.
  destruct (0 <? sumSlots b 0 5), (0 <? sumSlots b 7 12);
    rewrite ?slot_clearSlots, ?slot_setSlot, ?slot_clearSlots, ?slot_setSlot
      by (rewrite ?length_clearSlots, ?length_setSlot, ?length_clearSlots,
            ?length_setSlot; lia);
    repeat case_decide; subst; try lia; done.
Qed.

Lemma total_swept b : length b = 14%nat -> sumSlots (swept b) 0 13 = sumSlots b 0 13.
Proof.
  intros Hlen. rewrite (total_split (swept b)), (total_split b).
  rewrite !(slot_swept b) by lia. simpl.
  assert (sumSlots (swept b) 0 5
          = if 0 <? sumSlots b 0 5 then 0 else sumSlots b 0 5) as ->.
  { destruct (0 <? sumSlots b 0 5) eqn:Hh.
    - apply sumSlots_zero. intros j Hj. rewrite slot_swept, Hh by lia.
      case_decide; [done|lia].
    - apply sumSlots_ext. intros j Hj. rewrite slot_swept, Hh by lia.
      case_decide; [done|lia]. }
  assert (sumSlots (swept b) 7 12
          = if 0 <? sumSlots b 7 12 then 0 else sumSlots b 7 12) as ->.
  { destruct (0 <? sumSlots b 7 12) eqn:Ha.
    - apply sumSlots_zero. intros j Hj. rewrite slot_swept, Ha by lia.
      repeat case_decide; try lia; done.
    - apply sumSlots_ext. intros j Hj. rewrite slot_swept, Ha by lia.
      repeat case_decide; try lia; done. }
  destruct (0 <? sumSlots b 0 5), (0 <? sumSlots b 7 12); lia.
Qed.

(** On a board without negative slots the sweep leaves no stone in a pit. *)
Lemma swept_pits b j :
  board_ok b -> 0 <= j <= 5 \/ 7 <= j <= 12 -> slot (swept b) j = 0.
Proof.
  intros [Hlen Hnn] Hj. rewrite slot_swept by lia.
  pose proof (Forall_slot b Hnn) as Hs.
  assert (forall first last, sumSlots b first last <= 0 ->
            first <= j <= last -> slot b j = 0) as Hz.
  { intros first last Hle Hin.
    assert (sumSlots b first last = 0) as H0
      by (pose proof (sumSlots_nonneg b first last (fun k _ => Hs k)); lia).
    apply (proj1 (sumSlots_zero_iff b first last (fun k _ => Hs k)) H0). done. }
  repeat case_decide; try lia.
  - destruct (Z.ltb_spec 0 (sumSlots b 0 5)); [done|]. apply (Hz 0 5); lia.
  - destruct (Z.ltb_spec 0 (sumSlots b 7 12)); [done|]. apply (Hz 7 12); lia.
Qed.

Lemma swept_stores b :
  length b = 14%nat ->
  slot (swept b) 6 = slot b 6 + Z.max 0 (sumSlots b 0 5)
  /\ slot (swept b) 13 = slot b 13 + Z.max 0 (sumSlots b 7 12).
Proof.
  intros Hlen. rewrite !slot_swept by lia. simpl.
  destruct (Z.ltb_spec 0 (sumSlots b 0 5)), (Z.ltb_spec 0 (sumSlots b 7 12)); lia.
Qed.

Lemma board_ok_swept b : board_ok b -> board_ok (swept b).
Proof.
  intros [Hlen Hnn]. split; [now rewrite length_swept|].
  apply slot_Forall. intros j Hj. rewrite slot_swept by lia.
  pose proof (Forall_slot b Hnn) as Hs.
  pose proof (sumSlots_nonneg b 0 5 (fun k _ => Hs k)).
  pose proof (sumSlots_nonneg b 7 12 (fun k _ => Hs k)).
  pose proof (Hs j). pose proof (Hs 6). pose proof (Hs 13).
  repeat case_decide; subst;
    destruct (0 <? sumSlots b 0 5), (0 <? sumSlots b 7 12); lia.
Qed.

Lemma board_ok_capture_board b position store :
  board_ok b -> 0 <= position <= 12 -> 0 <= store < 14 ->
  store <> position -> store <> 12 - position ->
  board_ok (capture_board b position store).
Proof.
  intros [Hlen Hnn] Hp Hs Hne1 Hne2. split; [now rewrite length_capture_board|].
  apply slot_Forall. intros j Hj. rewrite slot_capture_board by lia.
  pose proof (Forall_slot b Hnn) as Hsl.
  pose proof (Hsl j). pose proof (Hsl store). pose proof (Hsl (12 - position)).
  repeat case_decide; lia.
Qed.

(** ** A successful move, phase by phase *)

Lemma applyMove_throws_or_moves pitIndex e :
  applyMove pitIndex e
  = if gameOver e then (Raised GameEnded, e)
    else if negb (isValidMove e pitIndex (currentPlayer e))
    then (Raised (InvalidMove pitIndex), e)
    else
      (walk <- sowing pitIndex (currentPlayer e) (slot (board e) pitIndex) ;;
       landedInStore <- call (fun _ => isOwnStore (fst walk) (currentPlayer e)) ;;
       capture <- capturing (fst walk) (currentPlayer e) landedInStore ;;
       sweep <- ending ;;
       passing (currentPlayer e) landedInStore ;;
       b <- this getBoard ;;
       cp <- this currentPlayer ;;
       go <- this gameOver ;;
       sc <- this getScores ;;
       ret {| MoveSummary.player := currentPlayer e;
              MoveSummary.pitIndex := pitIndex;
              MoveSummary.stonesPicked := slot (board e) pitIndex;
              MoveSummary.sequence := snd walk;
              MoveSummary.lastPosition := fst walk;
              MoveSummary.landedInStore := landedInStore;
              MoveSummary.capture := capture;
              MoveSummary.sweep := sweep;
              MoveSummary.extraTurn := landedInStore;
              MoveSummary.board := b;
              MoveSummary.currentPlayer := cp;
              MoveSummary.gameOver := go;
              MoveSummary.scores := sc |}) e.
Proof.
  unfold applyMove at 1. unfold bind at 1. unfold this at 1.
  destruct (gameOver e) eqn:Hover; [reflexivity|].
  unfold bind at 1. unfold this at 1.
  destruct (isValidMove e pitIndex (currentPlayer e)); reflexivity.
Qed.

Lemma applyMove_Returned pitIndex e summary e' :
  applyMove pitIndex e = (Returned summary, e') ->
  gameOver e = false /\ isValidMove e pitIndex (currentPlayer e) = true.
Proof.
  rewrite applyMove_throws_or_moves.
  destruct (gameOver e); [discriminate|].
  destruct (isValidMove e pitIndex (currentPlayer e)); [done|discriminate].
Qed.

Lemma own_pit_not_skipped player range pitIndex :
  PIT_RANGE player = Some range -> start range <= pitIndex <= end_ range ->
  shouldSkipPosition (next pitIndex) player = false.
Proof.
  intros Hr Hp. unfold next. rewrite Z.rem_mod_nonneg;
    [|destruct (PIT_RANGE_Some _ _ Hr) as [[-> ->]|[-> ->]]; simpl in *; lia|lia].
  unfold shouldSkipPosition.
  destruct (PIT_RANGE_Some _ _ Hr) as [[-> ->]|[-> ->]]; simpl in *.
  - rewrite orb_false_r. apply Z.eqb_neq.
    rewrite Z.mod_small by lia. lia.
  - apply Z.eqb_neq. intros Heq.
    destruct (decide (pitIndex = 12)) as [->|]; [done|].
    rewrite Z.mod_small in Heq by lia. lia.
Qed.

Lemma sowing_returns pitIndex e range :
  PIT_RANGE (currentPlayer e) = Some range ->
  start range <= pitIndex <= end_ range ->
  exists position sequence e1,
    sowing pitIndex (currentPlayer e) (slot (board e) pitIndex) e
    = (Returned (position, sequence), e1).
Proof.
  intros Hr Hp.
  assert (currentPlayer e = 0 \/ currentPlayer e = 1) as Hpl
    by (destruct (PIT_RANGE_Some _ _ Hr) as [[-> _]|[-> _]]; auto).
  assert (0 <= pitIndex < 14) as Hpit
    by (destruct (PIT_RANGE_Some _ _ Hr) as [[_ ->]|[_ ->]]; simpl in *; lia).
  destruct (sow_loop_returns (currentPlayer e) Hpl (sow_fuel (slot (board e) pitIndex))
              (slot (board e) pitIndex) pitIndex []
              (setBoard (setSlot (board e) pitIndex 0) e))
    as ([position sequence] & e1 & Hrun); [done| |].
  - rewrite (own_pit_not_skipped _ _ _ Hr Hp). unfold sow_fuel. lia.
  - exists position, sequence, e1. unfold sowing, bind, writeSlot, assign. exact Hrun.
Qed.

Lemma sowing_sown pitIndex e range position sequence e1 :
  length (board e) = 14%nat ->
  PIT_RANGE (currentPlayer e) = Some range ->
  start range <= pitIndex <= end_ range ->
  0 < slot (board e) pitIndex ->
  sowing pitIndex (currentPlayer e) (slot (board e) pitIndex) e
  = (Returned (position, sequence), e1) ->
  sown (currentPlayer e) (slot (board e) pitIndex) pitIndex
    (setBoard (setSlot (board e) pitIndex 0) e) position sequence e1.
Proof.
  intros Hlen Hr Hp Hst Hsow.
  assert (currentPlayer e = 0 \/ currentPlayer e = 1) as Hpl
    by (destruct (PIT_RANGE_Some _ _ Hr) as [[-> _]|[-> _]]; auto).
  assert (0 <= pitIndex < 14) as Hpit
    by (destruct (PIT_RANGE_Some _ _ Hr) as [[_ ->]|[_ ->]]; simpl in *; lia).
  destruct (sow_loop_sown (currentPlayer e) Hpl (sow_fuel (slot (board e) pitIndex))
              (slot (board e) pitIndex) pitIndex []
              (setBoard (setSlot (board e) pitIndex 0) e))
    as (position' & dropped & e1' & Hrun & Hs).
  - simpl. now rewrite length_setSlot.
  - done.
  - lia.
  - rewrite (own_pit_not_skipped _ _ _ Hr Hp). unfold sow_fuel. lia.
  - unfold sowing, bind, writeSlot, assign in Hsow. simpl in Hrun.
    rewrite Hrun in Hsow. injection Hsow as <- <- <-. exact Hs.
Qed.

Lemma passing_eq player landedInStore e :
  passing player landedInStore e = (Returned tt, passed player landedInStore e).
Proof.
  unfold passing, passed, bind, this, assign, ret.
  destruct (negb landedInStore && negb (gameOver e)); reflexivity.
Qed.

Lemma applyMove_run pitIndex e :
  gameOver e = false ->
  isValidMove e pitIndex (currentPlayer e) = true ->
  exists range position sequence e1 capture e2 sweep e3,
    PIT_RANGE (currentPlayer e) = Some range
    /\ start range <= pitIndex <= end_ range
    /\ 0 < slot (board e) pitIndex
    /\ sowing pitIndex (currentPlayer e) (slot (board e) pitIndex) e
       = (Returned (position, sequence), e1)
    /\ capturing position (currentPlayer e) (position =? store range) e1
       = (Returned capture, e2)
    /\ ending e2 = (Returned sweep, e3)
    /\ applyMove pitIndex e
       = (Returned
            {| MoveSummary.player := currentPlayer e;
               MoveSummary.pitIndex := pitIndex;
               MoveSummary.stonesPicked := slot (board e) pitIndex;
               MoveSummary.sequence := sequence;
               MoveSummary.lastPosition := position;
               MoveSummary.landedInStore := (position =? store range);
               MoveSummary.capture := capture;
               MoveSummary.sweep := sweep;
               MoveSummary.extraTurn := (position =? store range);
               MoveSummary.board :=
                 board (passed (currentPlayer e) (position =? store range) e3);
               MoveSummary.currentPlayer :=
                 currentPlayer (passed (currentPlayer e) (position =? store range) e3);
               MoveSummary.gameOver :=
                 gameOver (passed (currentPlayer e) (position =? store range) e3);
               MoveSummary.scores :=
                 getScores (passed (currentPlayer e) (position =? store range) e3) |},
          passed (currentPlayer e) (position =? store range) e3).
Proof.
  intros Hover Hvalid.
  destruct (proj1 (isValidMove_true _ _ _) Hvalid) as (_ & range & Hr & Hp & Hst).
  destruct (sowing_returns pitIndex e range Hr Hp)
    as (position & sequence & e1 & Hsow).
  assert (exists capture e2,
            capturing position (currentPlayer e) (position =? store range) e1
            = (Returned capture, e2)) as (capture & e2 & Hcap).
  { unfold capturing. destruct (position =? store range); simpl; [by eexists _, _|].
    rewrite (tryCapture_eq _ _ range) by done.
    match goal with |- context [if ?c then _ else _] => destruct c end;
      by eexists _, _. }
  assert (exists sweep e3, ending e2 = (Returned sweep, e3)) as (sweep & e3 & Hend).
  { rewrite ending_eq.
    destruct (allZero (board e2) 0 5 || allZero (board e2) 7 12); by eexists _, _. }
  exists range, position, sequence, e1, capture, e2, sweep, e3.
  repeat (split; [done|]).
  rewrite applyMove_throws_or_moves, Hover, Hvalid. simpl.
  rewrite (bind_run _ _ _ _ _ Hsow). simpl.
  unfold bind at 1, call at 1, isOwnStore. rewrite Hr.
  rewrite (bind_run _ _ _ _ _ Hcap).
  rewrite (bind_run _ _ _ _ _ Hend).
  rewrite (bind_run _ _ _ _ _ (passing_eq _ _ _)).
  reflexivity.
Qed.

Lemma capturing_cases position player range e1 capture e2 :
  PIT_RANGE player = Some range ->
  capturing position player (position =? store range) e1 = (Returned capture, e2) ->
  (start range <= position <= end_ range
   /\ slot (board e1) position = 1
   /\ slot (board e1) (12 - position) <> 0
   /\ capture = Some {| Capture.pit := position; Capture.opposite := 12 - position;
                        Capture.store := store range;
                        Capture.captured := slot (board e1) (12 - position) + 1 |}
   /\ e2 = setBoard (capture_board (board e1) position (store range)) e1)
  \/ (~ (start range <= position <= end_ range
         /\ slot (board e1) position = 1
         /\ slot (board e1) (12 - position) <> 0)
      /\ capture = None /\ e2 = e1).
Proof.
  intros Hr. unfold capturing.
  destruct (Z.eqb_spec position (store range)) as [Hst|Hst]; simpl.
  - intros [= <- <-]. right. split; [|done].
    destruct (PIT_RANGE_Some _ _ Hr) as [[_ ->]|[_ ->]]; simpl in *; lia.
  - rewrite (tryCapture_eq _ _ range) by done.
    destruct (Z.leb_spec (start range) position), (Z.leb_spec position (end_ range)),
      (Z.eqb_spec (slot (board e1) position) 1),
      (Z.eqb_spec (slot (board e1) (12 - position)) 0); simpl;
      intros [= <- <-]; first [left; repeat split; done | right; split; [lia|done]].
Qed.

Lemma ending_cases e2 sweep e3 :
  ending e2 = (Returned sweep, e3) ->
  (((forall j, 0 <= j <= 5 -> slot (board e2) j = 0)
    \/ (forall j, 7 <= j <= 12 -> slot (board e2) j = 0))
   /\ sweep = Some {| Sweep.humanRemaining := sumSlots (board e2) 0 5;
                      Sweep.aiRemaining := sumSlots (board e2) 7 12;
                      Sweep.board := swept (board e2);
                      Sweep.scores := getScores (setBoard (swept (board e2)) e2) |}
   /\ e3 = setGameOver true (setBoard (swept (board e2)) e2))
  \/ (~ ((forall j, 0 <= j <= 5 -> slot (board e2) j = 0)
         \/ (forall j, 7 <= j <= 12 -> slot (board e2) j = 0))
      /\ sweep = None /\ e3 = e2).
Proof.
  rewrite ending_eq.
  destruct (allZero (board e2) 0 5) eqn:H0; simpl.
  { intros [= <- <-]. left. split; [|done]. left. now apply allZero_true. }
  destruct (allZero (board e2) 7 12) eqn:H1; simpl.
  { intros [= <- <-]. left. split; [|done]. right. now apply allZero_true. }
  intros [= <- <-]. right. split; [|done].
  intros [H|H]; apply allZero_true in H; congruence.
Qed.

(** The board after sowing, against the board before the move. *)
Lemma sown_total player stones pitIndex e position sequence e1 :
  length (board e) = 14%nat -> 0 <= pitIndex < 14 ->
  stones = slot (board e) pitIndex ->
  sown player stones pitIndex (setBoard (setSlot (board e) pitIndex 0) e)
    position sequence e1 ->
  sumSlots (board e1) 0 13 = sumSlots (board e) 0 13.
Proof.
  intros Hlen Hp -> Hs. rewrite (sown_sum _ _ _ _ _ _ _ Hs). simpl.
  rewrite sumSlots_setSlot by lia. case_decide; lia.
Qed.

Lemma drops_nonneg j dropped : 0 <= drops j dropped.
Proof. unfold drops. lia. Qed.

Lemma sown_board_ok player stones pitIndex e position sequence e1 :
  board_ok (board e) -> 0 <= pitIndex < 14 ->
  sown player stones pitIndex (setBoard (setSlot (board e) pitIndex 0) e)
    position sequence e1 ->
  board_ok (board e1).
Proof.
  intros [Hlen Hnn] Hp Hs. split; [apply (sown_length _ _ _ _ _ _ _ Hs)|].
  apply slot_Forall. intros j Hj. rewrite (sown_slots _ _ _ _ _ _ _ Hs) by done.
  simpl. rewrite slot_setSlot by lia.
  pose proof (Forall_slot _ Hnn j). pose proof (drops_nonneg j sequence).
  case_decide; lia.
Qed.

Lemma own_side_facts player range position :
  PIT_RANGE player = Some range -> start range <= position <= end_ range ->
  0 <= position <= 12 /\ 0 <= store range < 14 /\ store range <> position
  /\ store range <> 12 - position /\ position <> 6.
Proof.
  intros Hr Hp.
  destruct (PIT_RANGE_Some _ _ Hr) as [[_ ->]|[_ ->]]; simpl in *; lia.
Qed.

Lemma capturing_total position player range e1 capture e2 :
  length (board e1) = 14%nat ->
  PIT_RANGE player = Some range ->
  capturing position player (position =? store range) e1 = (Returned capture, e2) ->
  length (board e2) = 14%nat
  /\ sumSlots (board e2) 0 13 = sumSlots (board e1) 0 13.
Proof.
  intros Hlen Hr Hcap.
  destruct (capturing_cases _ _ _ _ _ _ Hr Hcap)
    as [(Hown & Hone & Hopp & _ & ->)|(_ & _ & ->)]; [|done].
  destruct (own_side_facts _ _ _ Hr Hown) as (? & ? & ? & ? & ?). simpl.
  split; [now rewrite length_capture_board|].
  now apply total_capture_board.
Qed.

Lemma capturing_board_ok position player range e1 capture e2 :
  board_ok (board e1) ->
  PIT_RANGE player = Some range ->
  capturing position player (position =? store range) e1 = (Returned capture, e2) ->
  board_ok (board e2).
Proof.
  intros Hok Hr Hcap.
  destruct (capturing_cases _ _ _ _ _ _ Hr Hcap)
    as [(Hown & Hone & Hopp & _ & ->)|(_ & _ & ->)]; [|done].
  destruct (own_side_facts _ _ _ Hr Hown) as (? & ? & ? & ? & ?). simpl.
  now apply board_ok_capture_board.
Qed.

Lemma ending_total e2 sweep e3 :
  length (board e2) = 14%nat ->
  ending e2 = (Returned sweep, e3) ->
  length (board e3) = 14%nat
  /\ sumSlots (board e3) 0 13 = sumSlots (board e2) 0 13.
Proof.
  intros Hlen Hend.
  destruct (ending_cases _ _ _ Hend) as [(_ & _ & ->)|(_ & _ & ->)]; [|done].
  simpl. split; [now rewrite length_swept|now apply total_swept].
Qed.

Lemma board_passed player landedInStore e :
  board (passed player landedInStore e) = board e.
Proof. unfold passed. now destruct (negb landedInStore && negb (gameOver e)). Qed.

Lemma gameOver_passed player landedInStore e :
  gameOver (passed player landedInStore e) = gameOver e.
Proof. unfold passed. now destruct (negb landedInStore && negb (gameOver e)). Qed.

(** From [H : applyMove pitIndex e = (Returned summary, e')] to the phases of
    the move. *)
Ltac run_move H :=
  destruct (applyMove_Returned _ _ _ _ H) as [Hover Hvalid];
  destruct (applyMove_run _ _ Hover Hvalid)
    as (range & position & sequence & e1 & capture & e2 & sweep & e3
        & Hr & Hp & Hst & Hsow & Hcap & Hend & Heq);
  rewrite Heq in H; injection H as <- <-.

(** One successful move keeps the 14 slots and their total. *)
Lemma applyMove_total pitIndex e summary e' :
  length (board e) = 14%nat ->
  applyMove pitIndex e = (Returned summary, e') ->
  length (board e') = 14%nat
  /\ sumSlots (board e') 0 13 = sumSlots (board e) 0 13.
Proof.
  intros Hlen Hmove. run_move Hmove.
  pose proof (sowing_sown _ _ _ _ _ _ Hlen Hr Hp Hst Hsow) as Hs.
  assert (0 <= pitIndex < 14) as Hpit
    by (destruct (own_side_facts _ _ _ Hr Hp) as (? & _); lia).
  pose proof (sown_total _ _ _ _ _ _ _ Hlen Hpit eq_refl Hs) as Ht1.
  pose proof (sown_length _ _ _ _ _ _ _ Hs) as Hl1.
  destruct (capturing_total _ _ _ _ _ _ Hl1 Hr Hcap) as [Hl2 Ht2].
  destruct (ending_total _ _ _ Hl2 Hend) as [Hl3 Ht3].
  rewrite board_passed. split; [done|lia].
Qed.

(** One successful move keeps the board in the data model. *)
Lemma applyMove_board_ok pitIndex e summary e' :
  board_ok (board e) ->
  applyMove pitIndex e = (Returned summary, e') ->
  board_ok (board e').
Proof.
  intros Hok Hmove. run_move Hmove.
  assert (0 <= pitIndex < 14) as Hpit
    by (destruct (own_side_facts _ _ _ Hr Hp) as (? & _); lia).
  pose proof (sowing_sown _ _ _ _ _ _ (proj1 Hok) Hr Hp Hst Hsow) as Hs.
  pose proof (sown_board_ok _ _ _ _ _ _ _ Hok Hpit Hs) as Hok1.
  pose proof (capturing_board_ok _ _ _ _ _ _ Hok1 Hr Hcap) as Hok2.
  rewrite board_passed.
  destruct (ending_cases _ _ _ Hend) as [(_ & _ & ->)|(_ & _ & ->)]; [|done].
  simpl. now apply board_ok_swept.
Qed.

Lemma reachable_board_ok e0 e :
  board_ok (board e0) -> reachable e0 e -> board_ok (board e).
Proof.
  intros Hok Hreach. induction Hreach as [|e pitIndex summary e' _ IH Hmove];
    [done|]. exact (applyMove_board_ok _ _ _ _ IH Hmove).
Qed.

Lemma reachable_total e0 e :
  length (board e0) = 14%nat -> reachable e0 e ->
  length (board e) = 14%nat /\ sumSlots (board e) 0 13 = sumSlots (board e0) 0 13.
Proof.
  intros Hlen Hreach. induction Hreach as [|e pitIndex summary e' _ [IHl IHt] Hmove].
  - done.
  - destruct (applyMove_total _ _ _ _ IHl Hmove) as [Hl Ht]. split; [done|lia].
Qed.

(** ** Counts within the exact range *)

(** Where integers stop being exact in the program: [+ 1] reaches 2^53 from
    [MAX_SAFE_INTEGER] and stays there, and at 2^54 [- 1] changes nothing. *)
Example beyond_MAX_SAFE_INTEGER :
  Number.add (Number.of_Z (MAX_SAFE_INTEGER - 1)) (Number.of_Z 1)
  = Number.of_Z MAX_SAFE_INTEGER
  /\ Number.add (Number.of_Z MAX_SAFE_INTEGER) (Number.of_Z 1)
     = Number.of_Z (MAX_SAFE_INTEGER + 1)
  /\ Number.add (Number.of_Z (MAX_SAFE_INTEGER + 1)) (Number.of_Z 1)
     = Number.of_Z (MAX_SAFE_INTEGER + 1)
  /\ Number.gt (Number.of_Z (MAX_SAFE_INTEGER + 1)) (Number.of_Z MAX_SAFE_INTEGER) = true
  /\ Number.sub (Number.of_Z (2 * (MAX_SAFE_INTEGER + 1))) (Number.of_Z 1)
     = Number.of_Z (2 * (MAX_SAFE_INTEGER + 1)).
Proof. repeat split; vm_compute; reflexivity. Qed.

Lemma sumRange_sumSlots first last e :
  sumRange first last e = sumSlots (board e) first last.
Proof. reflexivity. Qed.

Lemma slot_le_total b j : board_ok b -> slot b j <= sumSlots b 0 13.
Proof.
  intros [Hlen Hnn]. pose proof (Forall_slot _ Hnn) as Hslots.
  destruct (decide (0 <= j < 14)) as [Hj|Hj].
  - pose proof (sumSlots_setSlot b j 0 0 13 ltac:(lia) ltac:(lia)) as Hsum.
    rewrite decide_True in Hsum by lia.
    assert (0 <= sumSlots (setSlot b j 0) 0 13); [|lia].
    apply sumSlots_nonneg. intros k Hk. rewrite slot_setSlot by lia.
    case_decide; [lia|apply Hslots].
  - assert (slot b j = 0) as ->.
    { unfold slot. destruct (Z.ltb_spec j 0); [done|].
      rewrite lookup_ge_None_2 by lia. done. }
    apply sumSlots_nonneg. intros k _. apply Hslots.
Qed.

(** On a board of the data model whose stones total at most
    [MAX_SAFE_INTEGER], no slot leaves the exact range in any phase of a
    move. *)
Lemma phases_safe e pitIndex range position sequence e1 capture e2 sweep e3 :
  board_ok (board e) ->
  sumSlots (board e) 0 13 <= MAX_SAFE_INTEGER ->
  PIT_RANGE (currentPlayer e) = Some range ->
  start range <= pitIndex <= end_ range ->
  0 < slot (board e) pitIndex ->
  sowing pitIndex (currentPlayer e) (slot (board e) pitIndex) e
  = (Returned (position, sequence), e1) ->
  capturing position (currentPlayer e) (position =? store range) e1
  = (Returned capture, e2) ->
  ending e2 = (Returned sweep, e3) ->
  forall j,
    0 <= slot (board e1) j <= MAX_SAFE_INTEGER
    /\ 0 <= slot (board e2) j <= MAX_SAFE_INTEGER
    /\ 0 <= slot (board e3) j <= MAX_SAFE_INTEGER.
Proof.
  intros Hok Hsafe Hr Hp Hst Hsow Hcap Hend j.
  assert (0 <= pitIndex < 14) as Hpit
    by (destruct (own_side_facts _ _ _ Hr Hp) as (? & _); lia).
  pose proof (sowing_sown _ _ _ _ _ _ (proj1 Hok) Hr Hp Hst Hsow) as Hs.
  pose proof (sown_board_ok _ _ _ _ _ _ _ Hok Hpit Hs) as Hok1.
  pose proof (capturing_board_ok _ _ _ _ _ _ Hok1 Hr Hcap) as Hok2.
  assert (board_ok (board e3)) as Hok3.
  { destruct (ending_cases _ _ _ Hend) as [(_ & _ & ->)|(_ & _ & ->)]; [|done].
    simpl. now apply board_ok_swept. }
  pose proof (sown_total _ _ _ _ _ _ _ (proj1 Hok) Hpit eq_refl Hs) as Ht1.
  destruct (capturing_total _ _ _ _ _ _ (proj1 Hok1) Hr Hcap) as [_ Ht2].
  destruct (ending_total _ _ _ (proj1 Hok2) Hend) as [_ Ht3].
  pose proof (slot_le_total _ j Hok1). pose proof (slot_le_total _ j Hok2).
  pose proof (slot_le_total _ j Hok3).
  pose proof (Forall_slot _ (proj2 Hok1) j). pose proof (Forall_slot _ (proj2 Hok2) j).
  pose proof (Forall_slot _ (proj2 Hok3) j).
  lia.
Qed.

Lemma reachable_safe e0 e :
  board_ok (board e0) ->
  sumSlots (board e0) 0 13 <= MAX_SAFE_INTEGER ->
  reachable e0 e ->
  board_ok (board e)
  /\ sumSlots (board e) 0 13 <= MAX_SAFE_INTEGER
  /\ forall j, 0 <= slot (board e) j <= MAX_SAFE_INTEGER.
Proof.
  intros Hok Hsafe Hreach.
  pose proof (reachable_board_ok _ _ Hok Hreach) as Hoke.
  destruct (reachable_total _ _ (proj1 Hok) Hreach) as [_ Htotal].
  split; [done|]. split; [lia|]. intros j.
  pose proof (slot_le_total _ j Hoke). pose proof (Forall_slot _ (proj2 Hoke) j). lia.
Qed.

(** [H : applyMove pitIndex e = v], with [v] the computed outcome of the move
    on a concrete engine. *)
Ltac compute_move pitIndex e H :=
  let v := eval vm_compute in (applyMove pitIndex e) in
  assert (H : applyMove pitIndex e = v) by (vm_compute; reflexivity).

(** ** Stone conservation *)

(** C1. Stone conservation: a successful [applyMove] (sowing, capture and
    sweep included) on a board of the data model whose stones total at most
    [MAX_SAFE_INTEGER] leaves the sum of the 14 slots as it was; so every
    state reached from such an initial state by successful moves has the sum
    of the initial board, which is 48 for the default board, and no slot of
    it leaves the range in which the program counts exactly. *)
Theorem stone_conservation e0 :
  board_ok (board e0) ->
  sumRange 0 13 e0 <= MAX_SAFE_INTEGER ->
  (forall pitIndex summary e',
      applyMove pitIndex e0 = (Returned summary, e') ->
      sumRange 0 13 e' = sumRange 0 13 e0)
  /\ (forall e, reachable e0 e ->
        sumRange 0 13 e = sumRange 0 13 e0
        /\ forall j, 0 <= slot (board e) j <= MAX_SAFE_INTEGER)
  /\ (board e0 = INITIAL_BOARD ->
      forall e, reachable e0 e -> sumRange 0 13 e = 48).
Proof.
  intros Hok Hsafe. pose proof (proj1 Hok) as Hlen.
  rewrite sumRange_sumSlots in Hsafe. unfold sumRange.
  split; [|split].
  - intros pitIndex summary e' Hmove.
    exact (proj2 (applyMove_total _ _ _ _ Hlen Hmove)).
  - intros e Hreach. split.
    + exact (proj2 (reachable_total _ _ Hlen Hreach)).
    + exact (proj2 (proj2 (reachable_safe _ _ Hok Hsafe Hreach))).
  - intros Hinit e Hreach.
    rewrite (proj2 (reachable_total _ _ Hlen Hreach)), Hinit. reflexivity.
Qed.

Lemma stone_conservation_witness :
  board_ok (board default_engine)
  /\ sumRange 0 13 default_engine <= MAX_SAFE_INTEGER
  /\ exists summary e',
       applyMove 2 default_engine = (Returned summary, e')
       /\ reachable default_engine e'
       /\ sumRange 0 13 e' = 48.
Proof.
  compute_move 2 default_engine Hrun.
  assert (board_ok (board default_engine)) as Hok
    by (split; [reflexivity|repeat constructor; lia]).
  assert (sumRange 0 13 default_engine <= MAX_SAFE_INTEGER) as Hsafe
    by (vm_compute; discriminate).
  split; [exact Hok|]. split; [exact Hsafe|].
  eexists _, _. split; [exact Hrun|].
  pose proof (reach_move _ _ _ _ _ (reach_start default_engine) Hrun) as Hreach.
  split; [exact Hreach|].
  apply (stone_conservation default_engine Hok Hsafe); [reflexivity|exact Hreach].
Defined.

(** ** What a move leaves alone *)

Lemma sow_loop_frame player fuel : forall stones position sequence e walk e',
  sow_loop fuel player stones position sequence e = (walk, e') ->
  e' = setBoard (board e') e.
Proof.
  induction fuel as [|fuel' IH]; intros stones position sequence e walk e';
    rewrite sow_loop_eq; destruct (0 <? stones);
    try (intros [= <- <-]; now rewrite setBoard_same).
  destruct (shouldSkipPosition (next position) player).
  - apply IH.
  - intros Hrun. apply IH in Hrun. exact Hrun.
Qed.

Lemma sowing_frame pitIndex player stones e walk e1 :
  sowing pitIndex player stones e = (walk, e1) -> e1 = setBoard (board e1) e.
Proof.
  unfold sowing, bind, writeSlot, assign. intros Hrun.
  apply sow_loop_frame in Hrun. exact Hrun.
Qed.

Lemma capturing_frame position player range e1 capture e2 :
  PIT_RANGE player = Some range ->
  capturing position player (position =? store range) e1 = (Returned capture, e2) ->
  e2 = setBoard (board e2) e1.
Proof.
  intros Hr Hcap.
  destruct (capturing_cases _ _ _ _ _ _ Hr Hcap) as [(_ & _ & _ & _ & ->)|(_ & _ & ->)].
  - reflexivity.
  - now rewrite setBoard_same.
Qed.

Lemma ending_frame e2 sweep e3 :
  ending e2 = (Returned sweep, e3) ->
  currentPlayer e3 = currentPlayer e2
  /\ initialBoard e3 = initialBoard e2 /\ initialPlayer e3 = initialPlayer e2.
Proof.
  intros Hend. now destruct (ending_cases _ _ _ Hend) as [(_ & _ & ->)|(_ & _ & ->)].
Qed.

(** ** Turn transition *)

(** C5. Turn transition and extra turn: after a successful [applyMove] by
    player [p], [landedInStore] holds exactly when [lastPosition] is [p]'s
    own store, [extraTurn] equals [landedInStore], and the engine's
    [currentPlayer] is the other side exactly when the move did not land in
    the store and the game did not end; otherwise it is still [p].  On the
    default board, player 0 playing pit 2 gives [lastPosition = 6],
    [extraTurn = true], [currentPlayer] 0 and [board[6] = 1]. *)
Theorem turn_transition :
  (forall e pitIndex summary e',
      applyMove pitIndex e = (Returned summary, e') ->
      let p := currentPlayer e in
      MoveSummary.player summary = p
      /\ (p = 0 \/ p = 1)
      /\ (exists range, PIT_RANGE p = Some range
          /\ (MoveSummary.landedInStore summary = true
              <-> MoveSummary.lastPosition summary = store range))
      /\ MoveSummary.extraTurn summary = MoveSummary.landedInStore summary
      /\ (currentPlayer e' = 1 - p
          <-> MoveSummary.landedInStore summary = false /\ gameOver e' = false)
      /\ (MoveSummary.landedInStore summary = true \/ gameOver e' = true ->
          currentPlayer e' = p)
      /\ MoveSummary.currentPlayer summary = currentPlayer e'
      /\ MoveSummary.gameOver summary = gameOver e')
  /\ (exists summary e',
        applyMove 2 default_engine = (Returned summary, e')
        /\ MoveSummary.lastPosition summary = 6
        /\ MoveSummary.extraTurn summary = true
        /\ currentPlayer default_engine = 0
        /\ currentPlayer e' = 0
        /\ slot (board e') 6 = 1).
Proof.
  split.
  - intros e pitIndex summary e' Hmove p. run_move Hmove. simpl.
    assert (currentPlayer e3 = p) as Hcp.
    { destruct (ending_frame _ _ _ Hend) as (-> & _).
      rewrite (capturing_frame _ _ _ _ _ _ Hr Hcap). simpl.
      now rewrite (sowing_frame _ _ _ _ _ _ Hsow). }
    assert (p = 0 \/ p = 1) as Hp01
      by (destruct (PIT_RANGE_Some _ _ Hr) as [[? _]|[? _]]; auto).
    rewrite gameOver_passed.
    split; [done|]. split; [done|].
    split; [exists range; split; [done|apply Z.eqb_eq]|].
    split; [done|].
    unfold passed.
    destruct (position =? store range), (gameOver e3); simpl;
      rewrite ?Hcp; repeat split; try done; try lia;
      try (intros [? ?]; done); try (intros [?|?]; done).
  - eexists _, _. split; [vm_compute; reflexivity|]. by vm_compute.
Qed.

Lemma turn_transition_witness :
  exists summary e',
    applyMove 0 default_engine = (Returned summary, e')
    /\ MoveSummary.landedInStore summary = false
    /\ gameOver e' = false
    /\ currentPlayer e' = 1 - currentPlayer default_engine.
Proof.
  compute_move 0 default_engine Hrun.
  eexists _, _. split; [exact Hrun|].
  split; [reflexivity|]. split; [reflexivity|].
  destruct (proj1 turn_transition default_engine 0 _ _ Hrun)
    as (_ & _ & _ & _ & Hturn & _).
  apply Hturn. split; reflexivity.
Defined.

(** ** The walk of a move *)

(** C10. Sowing consistency of the summary: after a successful [applyMove] on
    a board of the data model whose stones total at most [MAX_SAFE_INTEGER],
    [sequence] has [stonesPicked] elements (every stone picked up is dropped
    once: each slot holds what it held, the played pit counted as empty, plus
    the number of times it occurs in [sequence], which is within the range in
    which the program counts exactly), [sequence] is not empty and its final
    element is [lastPosition]. *)
Theorem summary_sowing_consistent e pitIndex summary e' :
  board_ok (board e) ->
  sumRange 0 13 e <= MAX_SAFE_INTEGER ->
  applyMove pitIndex e = (Returned summary, e') ->
  MoveSummary.stonesPicked summary = slot (board e) pitIndex
  /\ 0 < MoveSummary.stonesPicked summary
  /\ Z.of_nat (length (MoveSummary.sequence summary)) = MoveSummary.stonesPicked summary
  /\ MoveSummary.sequence summary <> []
  /\ list.last (MoveSummary.sequence summary) = Some (MoveSummary.lastPosition summary)
  /\ exists e1,
       sowing pitIndex (currentPlayer e) (MoveSummary.stonesPicked summary) e
       = (Returned (MoveSummary.lastPosition summary, MoveSummary.sequence summary), e1)
       /\ forall j, 0 <= j ->
            slot (board e1) j
            = (if decide (j = pitIndex) then 0 else slot (board e) j)
              + drops j (MoveSummary.sequence summary)
            /\ 0 <= slot (board e1) j <= MAX_SAFE_INTEGER.
Proof.
  intros Hok Hsafe Hmove. pose proof (proj1 Hok) as Hlen. run_move Hmove. simpl.
  rewrite sumRange_sumSlots in Hsafe.
  pose proof (phases_safe _ _ _ _ _ _ _ _ _ _ Hok Hsafe Hr Hp Hst Hsow Hcap Hend)
    as Hexact.
  destruct (sowing_sown _ _ _ _ _ _ Hlen Hr Hp Hst Hsow)
    as [_ _ Hcount _ Hslots _ Hlast _].
  destruct (decide (slot (board e) pitIndex = 0)) as [|_]; [lia|].
  repeat split; try done.
  - intros ->. simpl in Hcount. lia.
  - exists e1. split; [done|]. intros j Hj.
    split; [|exact (proj1 (Hexact j))].
    rewrite Hslots by done. simpl.
    assert (0 <= pitIndex < 14)
      by (destruct (own_side_facts _ _ _ Hr Hp) as (? & _); lia).
    rewrite slot_setSlot by lia.
    destruct (decide (pitIndex = j)), (decide (j = pitIndex)); subst; try lia; done.
Qed.

Lemma summary_sowing_consistent_witness :
  board_ok (board skip_engine)
  /\ sumRange 0 13 skip_engine <= MAX_SAFE_INTEGER
  /\ exists summary e',
       applyMove 0 skip_engine = (Returned summary, e')
       /\ Z.of_nat (length (MoveSummary.sequence summary))
          = MoveSummary.stonesPicked summary
       /\ list.last (MoveSummary.sequence summary)
          = Some (MoveSummary.lastPosition summary).
Proof.
  compute_move 0 skip_engine Hrun.
  assert (board_ok (board skip_engine)) as Hok
    by (split; [reflexivity|repeat constructor; lia]).
  assert (sumRange 0 13 skip_engine <= MAX_SAFE_INTEGER) as Hsafe
    by (vm_compute; discriminate).
  split; [exact Hok|]. split; [exact Hsafe|]. eexists _, _. split; [exact Hrun|].
  destruct (summary_sowing_consistent skip_engine 0 _ _ Hok Hsafe Hrun)
    as (_ & _ & Hcount & _ & Hlast & _).
  split; [exact Hcount|exact Hlast].
Defined.

(** C4. Sowing skips the opponent's store: after a successful [applyMove] by
    player [p] on a board of 14 slots, [sequence] does not contain the
    opponent's store (13 for player 0, 6 for player 1), it has as many
    elements as stones were picked, and the sowing phase leaves the
    opponent's store as it was; an iteration of the loop at a skipped
    position changes neither the stones left, nor the board, nor the
    sequence.  On board [10,0,0,0,0,0,0,4,4,4,4,4,4,0], player 0 playing pit 0
    gives a sequence without 13 and leaves [board[13]] at 0. *)
Theorem sowing_skips_opponent_store :
  (forall e pitIndex summary e',
      length (board e) = 14%nat ->
      applyMove pitIndex e = (Returned summary, e') ->
      let opponentStore := if currentPlayer e =? 0 then 13 else 6 in
      (opponentStore ∉ MoveSummary.sequence summary)
      /\ Z.of_nat (length (MoveSummary.sequence summary))
         = MoveSummary.stonesPicked summary
      /\ exists e1,
           sowing pitIndex (currentPlayer e) (MoveSummary.stonesPicked summary) e
           = (Returned (MoveSummary.lastPosition summary,
                        MoveSummary.sequence summary), e1)
           /\ slot (board e1) opponentStore = slot (board e) opponentStore)
  /\ (forall player fuel stones position sequence e,
        0 < stones ->
        shouldSkipPosition (next position) player = true ->
        sow_loop (S fuel) player stones position sequence e
        = sow_loop fuel player stones (next position) sequence e)
  /\ (exists summary e',
        applyMove 0 skip_engine = (Returned summary, e')
        /\ (13 ∉ MoveSummary.sequence summary)
        /\ slot (board skip_engine) 13 = 0
        /\ slot (board e') 13 = 0).
Proof.
  split; [|split].
  - intros e pitIndex summary e' Hlen Hmove opponentStore. run_move Hmove. simpl.
    destruct (sowing_sown _ _ _ _ _ _ Hlen Hr Hp Hst Hsow)
      as [_ _ Hcount Hrange Hslots _ _ _].
    assert (shouldSkipPosition opponentStore (currentPlayer e) = true
            /\ 0 <= opponentStore /\ opponentStore <> pitIndex) as (Hskip & H0 & Hne).
    { subst opponentStore.
      destruct (PIT_RANGE_Some _ _ Hr) as [[-> ->]|[-> ->]]; simpl in *;
        repeat split; lia. }
    assert (opponentStore ∉ sequence) as Hnotin.
    { intros Hin. rewrite list.Forall_forall in Hrange.
      destruct (Hrange _ Hin) as [_ Hno]. congruence. }
    split; [done|]. split; [done|].
    exists e1. split; [done|]. rewrite Hslots by done. simpl.
    assert (0 <= pitIndex < 14)
      by (destruct (own_side_facts _ _ _ Hr Hp) as (? & _); lia).
    rewrite slot_setSlot by lia. destruct (decide (pitIndex = opponentStore)); [lia|].
    unfold drops. rewrite (proj1 (count_occ_not_In Z.eq_dec _ _)); [lia|].
    intros Hin. apply Hnotin. now apply list_elem_of_In.
  - intros player fuel stones position sequence e Hst Hskip.
    rewrite sow_loop_eq, Hskip. now destruct (Z.ltb_spec 0 stones); [|lia].
  - eexists _, _. split; [vm_compute; reflexivity|].
    split; [|split; reflexivity].
    intros Hin. apply list_elem_of_In in Hin. simpl in Hin.
    repeat (destruct Hin as [Hin|Hin]; [discriminate|]). exact Hin.
Qed.

Lemma sowing_skips_opponent_store_witness :
  length (board skip_engine) = 14%nat
  /\ (exists summary e',
        applyMove 0 skip_engine = (Returned summary, e')
        /\ 13 ∉ MoveSummary.sequence summary)
  /\ sow_loop 2 0 1 12 [] skip_engine = sow_loop 1 0 1 (next 12) [] skip_engine.
Proof.
  compute_move 0 skip_engine Hrun.
  split; [reflexivity|]. split.
  - eexists _, _. split; [exact Hrun|].
    destruct (proj1 sowing_skips_opponent_store skip_engine 0 _ _ eq_refl Hrun)
      as (Hnotin & _).
    exact Hnotin.
  - apply (proj1 (proj2 sowing_skips_opponent_store) 0 1%nat 1 12 [] skip_engine);
      [lia|reflexivity].
Defined.

(** ** Errors *)



(** ** Capture *)

Lemma drops_last position sequence :
  list.last sequence = Some position -> 1 <= drops position sequence.
Proof.
  intros Hlast. apply last_Some in Hlast as [l' ->].
  unfold drops. rewrite count_occ_app. simpl.
  destruct (Z.eq_dec position position); [lia|done].
Qed.

(** The capture of the engine's tests: on board [0,0,0,1,0,0,0,4,3,4,4,4,4,0]
    player 0 plays pit 3, lands in the empty pit 4 and captures the 3 stones
    of pit 8 with the stone landed. *)
Example capture_example :
  exists summary e',
    applyMove 3 capture_engine = (Returned summary, e')
    /\ (Capture.captured <$> MoveSummary.capture summary) = Some 4
    /\ slot (board e') 6 = 4 /\ slot (board e') 4 = 0 /\ slot (board e') 8 = 0.
Proof. eexists _, _. split; [vm_compute; reflexivity|]. by vm_compute. Qed.

(** C2. Capture rule: after a successful [applyMove] by player [p] on a
    board of the data model whose stones total at most [MAX_SAFE_INTEGER]
    (so that no slot leaves the range in which the program counts exactly,
    before or after the capture), a capture is recorded exactly when
    [lastPosition] lies in [p]'s pit range, holds exactly 1 stone after the
    drop and the opposite slot [12 - lastPosition] holds more than 0 stones;
    then [captured] is the opposite count plus 1, it is added to [p]'s
    store, and the landed pit and the opposite pit are zeroed (they are still
    zero when the move returns).  When the last stone lands in a pit that
    already held a stone (so it now holds at least 2), there is no capture. *)
Theorem capture_rule e pitIndex summary e' :
  board_ok (board e) ->
  sumRange 0 13 e <= MAX_SAFE_INTEGER ->
  applyMove pitIndex e = (Returned summary, e') ->
  let p := currentPlayer e in
  let position := MoveSummary.lastPosition summary in
  exists range e1 e2,
    PIT_RANGE p = Some range
    /\ sowing pitIndex p (MoveSummary.stonesPicked summary) e
       = (Returned (position, MoveSummary.sequence summary), e1)
    /\ capturing position p (MoveSummary.landedInStore summary) e1
       = (Returned (MoveSummary.capture summary), e2)
    /\ (is_Some (MoveSummary.capture summary)
        <-> start range <= position <= end_ range
            /\ slot (board e1) position = 1
            /\ 0 < slot (board e1) (12 - position))
    /\ (forall c, MoveSummary.capture summary = Some c ->
          MoveSummary.landedInStore summary = false
          /\ Capture.pit c = position /\ Capture.opposite c = 12 - position
          /\ Capture.store c = store range
          /\ Capture.captured c = slot (board e1) (12 - position) + 1
          /\ slot (board e2) (store range)
             = slot (board e1) (store range) + Capture.captured c
          /\ slot (board e2) position = 0
          /\ slot (board e2) (12 - position) = 0
          /\ (forall j, 0 <= j -> j <> position -> j <> 12 - position ->
                j <> store range -> slot (board e2) j = slot (board e1) j)
          /\ slot (board e') position = 0
          /\ slot (board e') (12 - position) = 0)
    /\ (MoveSummary.capture summary = None -> e2 = e1)
    /\ (2 <= slot (board e1) position -> MoveSummary.capture summary = None)
    /\ (position <> pitIndex -> 1 <= slot (board e) position ->
        MoveSummary.capture summary = None)
    /\ (forall j,
          0 <= slot (board e1) j <= MAX_SAFE_INTEGER
          /\ 0 <= slot (board e2) j <= MAX_SAFE_INTEGER
          /\ 0 <= slot (board e') j <= MAX_SAFE_INTEGER).
Proof.
  intros Hok Hsafe Hmove p. run_move Hmove. simpl.
  rewrite sumRange_sumSlots in Hsafe.
  pose proof (phases_safe _ _ _ _ _ _ _ _ _ _ Hok Hsafe Hr Hp Hst Hsow Hcap Hend)
    as Hexact.
  rewrite <- (board_passed (currentPlayer e) (position =? store range) e3) in Hexact.
  destruct Hok as [Hlen Hnn].
  assert (0 <= pitIndex < 14) as Hpit
    by (destruct (own_side_facts _ _ _ Hr Hp) as (? & _); lia).
  pose proof (sowing_sown _ _ _ _ _ _ Hlen Hr Hp Hst Hsow) as Hs.
  pose proof (sown_board_ok _ _ _ _ _ _ _ (conj Hlen Hnn) Hpit Hs) as [Hl1 Hnn1].
  pose proof (Forall_slot _ Hnn1 (12 - position)) as Hopp0.
  exists range, e1, e2. repeat (split; [done|]).
  destruct (capturing_cases _ _ _ _ _ _ Hr Hcap)
    as [(Hown & Hone & Hopp & -> & ->)|(Hno & -> & ->)].
  - destruct (own_side_facts _ _ _ Hr Hown) as (? & ? & ? & ? & ?).
    split; [split; [intros _; repeat split; lia|by eexists]|].
    split.
    { intros c [= <-]. simpl.
      rewrite !slot_capture_board by lia.
      split; [apply Z.eqb_neq; lia|]. repeat (split; [done|]).
      split; [repeat case_decide; lia|].
      split; [repeat case_decide; lia|].
      split; [repeat case_decide; lia|].
      split; [intros j ? ? ? ?; rewrite slot_capture_board by lia;
              repeat case_decide; lia|].
      rewrite board_passed.
      assert (forall j, 0 <= j -> j = position \/ j = 12 - position ->
                slot (board e3) j = 0) as Hzero.
      { intros j Hj Hj'.
        assert (slot (capture_board (board e1) position (store range)) j = 0) as Hz
          by (rewrite slot_capture_board by lia; case_decide; [done|lia]).
        destruct (ending_cases _ _ _ Hend) as [(_ & _ & ->)|(_ & _ & ->)];
          simpl; [|done].
        rewrite slot_swept by (rewrite ?length_capture_board; lia). rewrite Hz.
        repeat case_decide; subst; try lia;
          repeat match goal with |- context [if ?c then _ else _] => destruct c end;
          lia. }
      split; apply Hzero; lia. }
    split; [done|]. split; [lia|]. split; [|exact Hexact].
    intros Hne Hheld. exfalso.
    rewrite (sown_slots _ _ _ _ _ _ _ Hs) in Hone by lia. simpl in Hone.
    rewrite slot_setSlot in Hone by lia.
    destruct (decide (pitIndex = position)); [done|].
    pose proof (sown_last _ _ _ _ _ _ _ Hs) as Hlast.
    destruct (decide (slot (board e) pitIndex = 0)); [lia|].
    pose proof (drops_last _ _ Hlast). lia.
  - split; [split; [intros [c [=]]|intros (? & ? & ?); exfalso; apply Hno; lia]|].
    split; [intros c [=]|]. repeat (split; [done|]). exact Hexact.
Qed.

Lemma capture_rule_witness :
  board_ok (board capture_engine)
  /\ sumRange 0 13 capture_engine <= MAX_SAFE_INTEGER
  /\ exists summary e',
       applyMove 3 capture_engine = (Returned summary, e')
       /\ is_Some (MoveSummary.capture summary).
Proof.
  compute_move 3 capture_engine Hrun.
  assert (board_ok (board capture_engine)) as Hok
    by (split; [reflexivity|repeat constructor; lia]).
  assert (sumRange 0 13 capture_engine <= MAX_SAFE_INTEGER) as Hsafe
    by (vm_compute; discriminate).
  split; [exact Hok|]. split; [exact Hsafe|]. eexists _, _. split; [exact Hrun|].
  destruct (capture_rule capture_engine 3 _ _ Hok Hsafe Hrun)
    as (range & e1 & e2 & Hr & Hsow & _ & Hiff & _).
  injection Hr as <-. vm_compute in Hsow. injection Hsow as <-.
  apply Hiff. vm_compute. repeat split; discriminate.
Defined.

(** ** End of the game *)

(** C3. Game-end sweep: after a successful [applyMove] on a board of the data
    model whose stones total at most [MAX_SAFE_INTEGER] (so that no slot
    leaves the range in which the program counts exactly, before or after the
    sweep), if after sowing and capture one side's pits (0-5 or 7-12) sum to
    zero, then the stones left in the pits go to the store of their side, all
    pits are zero and [gameOver] is true, whatever the move earned; if neither
    side is empty the game goes on and nothing is swept.  From board
    [0,0,0,0,0,1,20,0,0,0,0,0,5,15], player 0 playing pit 5 ends the game with
    [board[6] = 21], [board[13] = 20] and every pit zero. *)
Theorem game_end_sweep :
  (forall e pitIndex summary e',
      board_ok (board e) ->
      sumRange 0 13 e <= MAX_SAFE_INTEGER ->
      applyMove pitIndex e = (Returned summary, e') ->
      exists e1 e2,
        sowing pitIndex (currentPlayer e) (MoveSummary.stonesPicked summary) e
        = (Returned (MoveSummary.lastPosition summary,
                     MoveSummary.sequence summary), e1)
        /\ capturing (MoveSummary.lastPosition summary) (currentPlayer e)
             (MoveSummary.landedInStore summary) e1
           = (Returned (MoveSummary.capture summary), e2)
        /\ (sumRange 0 5 e2 = 0 \/ sumRange 7 12 e2 = 0 ->
            gameOver e' = true
            /\ MoveSummary.gameOver summary = true
            /\ is_Some (MoveSummary.sweep summary)
            /\ (forall j, 0 <= j <= 5 \/ 7 <= j <= 12 -> slot (board e') j = 0)
            /\ slot (board e') 6 = slot (board e2) 6 + sumRange 0 5 e2
            /\ slot (board e') 13 = slot (board e2) 13 + sumRange 7 12 e2)
        /\ (sumRange 0 5 e2 <> 0 /\ sumRange 7 12 e2 <> 0 ->
            gameOver e' = false
            /\ MoveSummary.sweep summary = None
            /\ board e' = board e2)
        /\ (forall j,
              0 <= slot (board e1) j <= MAX_SAFE_INTEGER
              /\ 0 <= slot (board e2) j <= MAX_SAFE_INTEGER
              /\ 0 <= slot (board e') j <= MAX_SAFE_INTEGER))
  /\ (exists summary e',
        applyMove 5 sweep_engine = (Returned summary, e')
        /\ board sweep_engine = [0; 0; 0; 0; 0; 1; 20; 0; 0; 0; 0; 0; 5; 15]
        /\ currentPlayer sweep_engine = 0
        /\ MoveSummary.gameOver summary = true
        /\ gameOver e' = true
        /\ board e' = [0; 0; 0; 0; 0; 0; 21; 0; 0; 0; 0; 0; 0; 20]).
Proof.
  split.
  - intros e pitIndex summary e' Hok Hsafe Hmove. run_move Hmove. simpl.
    rewrite sumRange_sumSlots in Hsafe.
    pose proof (phases_safe _ _ _ _ _ _ _ _ _ _ Hok Hsafe Hr Hp Hst Hsow Hcap Hend)
      as Hexact.
    assert (0 <= pitIndex < 14) as Hpit
      by (destruct (own_side_facts _ _ _ Hr Hp) as (? & _); lia).
    pose proof (sowing_sown _ _ _ _ _ _ (proj1 Hok) Hr Hp Hst Hsow) as Hs.
    pose proof (sown_board_ok _ _ _ _ _ _ _ Hok Hpit Hs) as Hok1.
    pose proof (capturing_board_ok _ _ _ _ _ _ Hok1 Hr Hcap) as Hok2.
    pose proof (Forall_slot _ (proj2 Hok2)) as Hnn2.
    assert (gameOver e2 = false) as Hover2.
    { rewrite (capturing_frame _ _ _ _ _ _ Hr Hcap). simpl.
      now rewrite (sowing_frame _ _ _ _ _ _ Hsow). }
    exists e1, e2. repeat (split; [done|]).
    rewrite board_passed, gameOver_passed. unfold sumRange.
    destruct (ending_cases _ _ _ Hend) as [(Hempty & -> & ->)|(Hfull & -> & ->)];
      simpl.
    + split; [|split; [|exact Hexact]].
      * intros _. split; [done|]. split; [done|]. split; [by eexists|].
        split; [intros j Hj; now apply swept_pits|].
        destruct (swept_stores (board e2) (proj1 Hok2)) as [-> ->].
        pose proof (sumSlots_nonneg (board e2) 0 5 (fun k _ => Hnn2 k)).
        pose proof (sumSlots_nonneg (board e2) 7 12 (fun k _ => Hnn2 k)).
        lia.
      * intros [Hh Ha]. exfalso.
        destruct Hempty as [Hz|Hz]; apply sumSlots_zero in Hz; done.
    + split; [|split; [done|exact Hexact]].
      intros Hzero. exfalso. apply Hfull.
      destruct Hzero as [Hz|Hz]; [left|right];
        apply (sumSlots_zero_iff _ _ _ (fun k _ => Hnn2 k)); exact Hz.
  - eexists _, _. split; [vm_compute; reflexivity|]. by vm_compute.
Qed.

Lemma game_end_sweep_witness :
  board_ok (board sweep_engine)
  /\ sumRange 0 13 sweep_engine <= MAX_SAFE_INTEGER
  /\ exists summary e',
       applyMove 5 sweep_engine = (Returned summary, e')
       /\ gameOver e' = true.
Proof.
  compute_move 5 sweep_engine Hrun.
  assert (board_ok (board sweep_engine)) as Hok
    by (split; [reflexivity|repeat constructor; lia]).
  assert (sumRange 0 13 sweep_engine <= MAX_SAFE_INTEGER) as Hsafe
    by (vm_compute; discriminate).
  split; [exact Hok|]. split; [exact Hsafe|]. eexists _, _. split; [exact Hrun|].
  destruct (proj1 game_end_sweep sweep_engine 5 _ _ Hok Hsafe Hrun)
    as (e1 & e2 & Hsow & Hcap & Hends & _).
  vm_compute in Hsow. injection Hsow as <-.
  vm_compute in Hcap. injection Hcap as <-.
  apply Hends. left. reflexivity.
Defined.

(** ** Reset *)

(** C8 (as the code has it). [reset] never throws and clears [gameOver]; with
    no board it reinstates the recorded initial board, which is the last
    board given to the constructor or to an earlier [reset] (the default
    layout if none was ever given) and which moves do not touch; with no
    player it falls back to the recorded starting player, or to 0 when a
    board is given in the same call. *)
Theorem reset_semantics :
  (forall e newBoard newPlayer,
      gameOver (reset newBoard newPlayer e) = false
      /\ board (reset newBoard newPlayer e)
         = match newBoard with Some b => b | None => initialBoard e end
      /\ initialBoard (reset newBoard newPlayer e) = board (reset newBoard newPlayer e)
      /\ currentPlayer (reset newBoard newPlayer e)
         = match newPlayer, newBoard with
           | Some p, _ => p
           | None, Some _ => 0
           | None, None => initialPlayer e
           end
      /\ initialPlayer (reset newBoard newPlayer e)
         = currentPlayer (reset newBoard newPlayer e))
  /\ (forall b p,
        initialBoard (new_engine b p) = default INITIAL_BOARD b
        /\ board (new_engine b p) = default INITIAL_BOARD b
        /\ initialPlayer (new_engine b p) = default 0 p
        /\ INITIAL_BOARD = [4; 4; 4; 4; 4; 4; 0; 4; 4; 4; 4; 4; 4; 0])
  /\ (forall e pitIndex summary e',
        applyMove pitIndex e = (Returned summary, e') ->
        initialBoard e' = initialBoard e /\ initialPlayer e' = initialPlayer e).
Proof.
  split; [|split].
  - intros e [b|] [p|]; done.
  - intros [b|] [p|]; done.
  - intros e pitIndex summary e' Hmove. run_move Hmove.
    assert (initialBoard e3 = initialBoard e /\ initialPlayer e3 = initialPlayer e)
      as [Hb Hpl].
    { destruct (ending_frame _ _ _ Hend) as (_ & -> & ->).
      rewrite (capturing_frame _ _ _ _ _ _ Hr Hcap). simpl.
      now rewrite (sowing_frame _ _ _ _ _ _ Hsow). }
    unfold passed.
    now destruct (negb (position =? store range) && negb (gameOver e3)).
Qed.

Lemma reset_semantics_witness :
  exists summary e',
    applyMove 2 default_engine = (Returned summary, e')
    /\ initialBoard e' = initialBoard default_engine
    /\ board (reset None None e') = initialBoard e'.
Proof.
  compute_move 2 default_engine Hrun.
  eexists _, _. split; [exact Hrun|]. split.
  - apply (proj2 (proj2 reset_semantics) default_engine 2 _ _ Hrun).
  - apply (proj1 reset_semantics).
Defined.

(** C8 as stated fails: an engine constructed without a board, then reset
    with a board, does not come back to the board of its construction (the
    default layout) on a later [reset()]. *)
Lemma reset_construction_board_counterexample :
  initialBoard (new_engine None None) = INITIAL_BOARD
  /\ board (reset None None
              (reset (Some (board skip_engine)) None (new_engine None None)))
     <> INITIAL_BOARD.
Proof. split; [reflexivity|discriminate]. Qed.

(** ** Simulation *)

Lemma isValidMove_clone e pitIndex player :
  isValidMove (clone e) pitIndex player = isValidMove e pitIndex player.
Proof. reflexivity. Qed.

Lemma simulateMove_returns e pitIndex :
  isValidMove e pitIndex (currentPlayer e) = true ->
  exists sim result,
    simulateMove e pitIndex = Returned (sim, result)
    /\ applyMove pitIndex (clone e) = (Returned result, sim).
Proof.
  intros Hvalid.
  assert (gameOver (clone e) = false) as Hover
    by (apply isValidMove_true in Hvalid as [Hover _]; exact Hover).
  destruct (applyMove_run pitIndex (clone e) Hover Hvalid)
    as (range & position & sequence & e1 & capture & e2 & sweep & e3
        & _ & _ & _ & _ & _ & _ & Heq).
  eexists _, _. unfold simulateMove. rewrite Heq. done.
Qed.

(** The turn after a successful move. *)
Lemma applyMove_turn pitIndex e summary e' :
  applyMove pitIndex e = (Returned summary, e') ->
  (currentPlayer e = 0 \/ currentPlayer e = 1)
  /\ MoveSummary.gameOver summary = gameOver e'
  /\ currentPlayer e'
     = if negb (MoveSummary.extraTurn summary) && negb (gameOver e')
       then 1 - currentPlayer e else currentPlayer e.
Proof.
  intros Hmove. run_move Hmove. simpl.
  assert (currentPlayer e3 = currentPlayer e) as Hcp.
  { destruct (ending_frame _ _ _ Hend) as (-> & _).
    rewrite (capturing_frame _ _ _ _ _ _ Hr Hcap). simpl.
    now rewrite (sowing_frame _ _ _ _ _ _ Hsow). }
  split; [destruct (PIT_RANGE_Some _ _ Hr) as [[? _]|[? _]]; auto|].
  split; [done|]. rewrite gameOver_passed. unfold passed.
  destruct (negb (position =? store range) && negb (gameOver e3)); simpl; done.
Qed.

Lemma getValidMoves_returns e player :
  player = 0 \/ player = 1 -> exists moves, getValidMoves e player = Returned moves.
Proof.
  intros [-> | ->]; unfold getValidMoves; destruct (gameOver e); by eexists.
Qed.

Lemma getValidMoves_valid e player moves :
  getValidMoves e player = Returned moves ->
  forall pit, pit ∈ moves <-> isValidMove e pit player = true.
Proof.
  unfold getValidMoves, isValidMove. destruct (gameOver e).
  { intros [= <-] pit. split; [intros Hin; inversion Hin|discriminate]. }
  destruct (PIT_RANGE player) as [range|]; [|discriminate].
  intros [= <-] pit. rewrite list_elem_of_filter, elem_of_pits.
  rewrite !andb_true_iff, !Z.leb_le, Z.ltb_lt. tauto.
Qed.

Lemma sorted_filter_pits (P : Z -> Prop) `{!forall x, Decision (P x)} first last :
  StronglySorted Z.lt (filter P (pits first last)).
Proof.
  revert first last.
  refine (range_ind _ _ _); [intros first last Hlt|intros first last Hle IH].
  - rewrite pits_nil by lia. constructor.
  - rewrite pits_cons, filter_cons by lia. case_decide; [|done].
    constructor; [done|]. apply list.Forall_forall. intros x Hx.
    apply list_elem_of_filter in Hx as [_ Hx]. apply elem_of_pits in Hx. lia.
Qed.

Lemma getValidMoves_sorted e player moves :
  getValidMoves e player = Returned moves -> StronglySorted Z.lt moves.
Proof.
  unfold getValidMoves. destruct (gameOver e); [intros [= <-]; constructor|].
  destruct (PIT_RANGE player) as [range|]; [|discriminate].
  intros [= <-]. apply sorted_filter_pits.
Qed.

(** ** The look-ahead loop *)

Section Replies.
Variable reply : num -> Z -> result num.
Variable moves : list Z.
Hypothesis reply_returns :
  forall worst pit, pit ∈ moves -> exists v, reply worst pit = Returned v.

Lemma for_of_replies_return : forall l worst,
  (forall pit, pit ∈ l -> pit ∈ moves) ->
  exists w, for_of l reply worst = Returned w.
Proof.
  induction l as [|x l IH]; intros worst Hsub; [by eexists|]. simpl.
  destruct (reply_returns worst x (Hsub x ltac:(left))) as (v & ->).
  apply IH. intros pit Hin. apply Hsub. now right.
Qed.
End Replies.

(** ** The evaluator returns *)

Lemma simulateMove_Returned e pitIndex sim result :
  simulateMove e pitIndex = Returned (sim, result) ->
  applyMove pitIndex (clone e) = (Returned result, sim).
Proof.
  unfold simulateMove. destruct (applyMove pitIndex (clone e)) as [[summary|x|] c];
    [|discriminate|discriminate].
  now intros [= <- <-].
Qed.

Lemma Game_reply_returns sim opponent playerKey opponentKey worst pit :
  isValidMove sim pit opponent = true ->
  exists v, Game.reply sim opponent playerKey opponentKey worst pit = Returned v.
Proof.
  intros Hvalid. unfold Game.reply.
  destruct (simulateMove_returns (setCurrentPlayer opponent (clone sim)) pit Hvalid)
    as (sim' & result & -> & _).
  by eexists.
Qed.

Lemma PlainGame_reply_returns sim playerKey opponentKey worst pit :
  isValidMove sim pit (currentPlayer sim) = true ->
  exists v, PlainGame.reply sim playerKey opponentKey worst pit = Returned v.
Proof.
  intros Hvalid. unfold PlainGame.reply.
  destruct (simulateMove_returns sim pit Hvalid) as (sim' & result & -> & _).
  by eexists.
Qed.

Lemma opponent_is_a_player player :
  (if player =? HUMAN_PLAYER then AI_PLAYER else HUMAN_PLAYER) = 0
  \/ (if player =? HUMAN_PLAYER then AI_PLAYER else HUMAN_PLAYER) = 1.
Proof. destruct (player =? HUMAN_PLAYER); auto. Qed.

Lemma length_zero_nil (l : list Z) : (Z.of_nat (length l) =? 0) = false -> l <> [].
Proof. intros H ->. discriminate. Qed.

Lemma Game_evaluateMove_returns e player pitIndex :
  isValidMove e pitIndex (currentPlayer e) = true ->
  exists score, Game.evaluateMove e player pitIndex = Returned score.
Proof.
  intros Hvalid.
  destruct (simulateMove_returns e pitIndex Hvalid) as (sim & result & Hsim & _).
  unfold Game.evaluateMove. rewrite Hsim.
  destruct (MoveSummary.gameOver result); [by eexists|].
  destruct (MoveSummary.extraTurn result); [by eexists|].
  destruct (getValidMoves_returns sim _ (opponent_is_a_player player))
    as (moves & Hmoves).
  rewrite Hmoves.
  destruct (Z.of_nat (length moves) =? 0) eqn:Hnone; [by eexists|].
  edestruct (for_of_replies_return
               (Game.reply sim (if player =? HUMAN_PLAYER then AI_PLAYER else HUMAN_PLAYER)
                  (if player =? HUMAN_PLAYER then human_key else ai_key)
                  (if player =? HUMAN_PLAYER then ai_key else human_key))
               moves) as (w & ->).
  - intros worst pit Hin. apply Game_reply_returns.
    now apply (getValidMoves_valid _ _ _ Hmoves).
  - done.
  - by eexists.
Qed.

Lemma PlainGame_evaluateMove_returns e pitIndex sim result :
  simulateMove e pitIndex = Returned (sim, result) ->
  MoveSummary.extraTurn result = false \/ MoveSummary.gameOver result = true ->
  exists score, PlainGame.evaluateMove e (currentPlayer e) pitIndex = Returned score.
Proof.
  intros Hsim Hturn. unfold PlainGame.evaluateMove. rewrite Hsim.
  destruct (MoveSummary.gameOver result) eqn:Hover; [by eexists|].
  destruct Hturn as [Hturn|]; [|done].
  apply simulateMove_Returned in Hsim.
  destruct (applyMove_turn _ _ _ _ Hsim) as (Hplayer & Hgo & Hcp).
  rewrite Hturn, <- Hgo, Hover in Hcp. simpl in Hcp.
  change (currentPlayer (clone e)) with (currentPlayer e) in Hcp, Hplayer.
  assert ((if currentPlayer e =? HUMAN_PLAYER then AI_PLAYER else HUMAN_PLAYER)
          = currentPlayer sim) as Hopp
    by (rewrite Hcp; destruct Hplayer as [-> | ->]; reflexivity).
  rewrite Hopp.
  destruct (getValidMoves_returns sim (currentPlayer sim)) as (moves & Hmoves);
    [rewrite Hcp; destruct Hplayer as [-> | ->]; auto|].
  rewrite Hmoves.
  destruct (Z.of_nat (length moves) =? 0) eqn:Hnone; [by eexists|].
  edestruct (for_of_replies_return
               (PlainGame.reply sim
                  (if currentPlayer e =? HUMAN_PLAYER then human_key else ai_key)
                  (if currentPlayer e =? HUMAN_PLAYER then ai_key else human_key))
               moves) as (w & ->).
  - intros worst pit Hin. apply PlainGame_reply_returns.
    now apply (getValidMoves_valid _ _ _ Hmoves).
  - done.
  - by eexists.
Qed.




(** In the plain front end the evaluator throws on a move of the current
    player that earns an extra turn without ending the game: the replies of
    the opponent are simulated on an engine whose turn is still the mover's.
    The front end with animation returns there: 46, which is 1 * 6 + 40. *)
Example plain_evaluateMove_extra_turn :
  isValidMove default_engine 2 (currentPlayer default_engine) = true
  /\ PlainGame.evaluateMove default_engine HUMAN_PLAYER 2 = Raised (InvalidMove 7)
  /\ Game.evaluateMove default_engine HUMAN_PLAYER 2 = Returned (Number.of_Z 46).
Proof. repeat split; vm_compute; reflexivity. Qed.

(** The look-ahead rounds: for pit 0 on the default board the move's own
    score is 0 and the best reply scores 41; [0 - 41 * 0.6] is
    -6924284427082137 / 2^48, the binary64 number just above -24.6. *)
Example evaluateMove_rounds :
  Game.evaluateMove default_engine HUMAN_PLAYER 0
  = Returned (S754_finite true 6924284427082137 (-48))
  /\ dampen (Number.of_Z 0) (Number.of_Z 41) = S754_finite true 6924284427082137 (-48)
  /\ Number.gt (S754_finite true 6924284427082137 (-48))
       (Number.sub (Number.of_Z 0) (Number.of_Z 25)) = true.
Proof. repeat split; vm_compute; reflexivity. Qed.

(** ** The order of the scores *)

Lemma gt_rank a b :
  Number.gt a b = true
  <-> Number.isNaN a = false /\ Number.isNaN b = false /\ before (rank b) (rank a).
Proof.
  unfold Number.gt, SFltb, SFcompare, before.
  destruct a as [[|]|[|]| |[|] ma ea], b as [[|]|[|]| |[|] mb eb]; simpl;
    try (split; [discriminate|intros (? & ? & ?); (discriminate || lia)]);
    try (split; [intros _; repeat split; lia|done]).
  - destruct (Z.compare_spec eb ea); simpl;
      [change (Pos.compare_cont Eq mb ma) with (Pos.compare mb ma);
       destruct (Pos.compare_spec mb ma); simpl|..];
      (split; [try discriminate; intros _; repeat split; lia
              |try done; intros (_ & _ & ?); lia]).
  - destruct (Z.compare_spec eb ea); simpl;
      [change (Pos.compare_cont Eq mb ma) with (Pos.compare mb ma);
       destruct (Pos.compare_spec mb ma); simpl|..];
      (split; [try discriminate; intros _; repeat split; lia
              |try done; intros (_ & _ & ?); lia]).
Qed.

Lemma gt_false a b :
  Number.gt a b = false ->
  Number.isNaN a = false -> Number.isNaN b = false ->
  before (rank a) (rank b) \/ rank a = rank b.
Proof.
  intros Hgt Ha Hb.
  destruct (Number.gt a b) eqn:Hab; [discriminate|].
  assert (~ before (rank b) (rank a)) as Hnot.
  { intros Hbefore. assert (Number.gt a b = true) by now apply gt_rank. congruence. }
  unfold before in *.
  destruct (rank a) as [[a1 a2] a3], (rank b) as [[b1 b2] b3]. simpl in *.
  destruct (decide (a1 = b1)), (decide (a2 = b2)), (decide (a3 = b3)); subst;
    [by right|left; lia..].
Qed.

Lemma gt_numbers a b :
  Number.gt a b = true -> Number.isNaN a = false /\ Number.isNaN b = false.
Proof. intros Hgt. apply gt_rank in Hgt. tauto. Qed.

Lemma gt_trans a b c :
  Number.gt a b = true -> Number.gt b c = true -> Number.gt a c = true.
Proof.
  rewrite !gt_rank. unfold before.
  destruct (rank a) as [[a1 a2] a3], (rank b) as [[b1 b2] b3],
    (rank c) as [[c1 c2] c3]. simpl.
  intros (? & ? & ?) (? & ? & ?). repeat split; try done. lia.
Qed.

Lemma gt_asym a b : Number.gt a b = true -> Number.gt b a = false.
Proof.
  intros Hab. destruct (Number.gt b a) eqn:Hba; [|done].
  apply gt_rank in Hab, Hba. unfold before in *.
  destruct (rank a) as [[a1 a2] a3], (rank b) as [[b1 b2] b3]. simpl in *. lia.
Qed.

Lemma gt_NaN a b : Number.isNaN a = true -> Number.gt a b = false.
Proof.
  intros Ha. destruct (Number.gt a b) eqn:Hab; [|done].
  apply gt_numbers in Hab. destruct Hab. congruence.
Qed.

(** [a <= b < c] for numbers that compare *)
Lemma not_gt_trans a b c :
  Number.gt a b = false -> Number.isNaN a = false ->
  Number.gt c b = true -> Number.gt c a = true.
Proof.
  intros Hab Ha Hcb. destruct (gt_numbers _ _ Hcb) as [Hc Hb].
  pose proof (gt_false _ _ Hab Ha Hb) as Hle.
  apply gt_rank in Hcb as (_ & _ & Hcb). apply gt_rank.
  split; [done|]. split; [done|]. unfold before in *.
  destruct (rank a) as [[a1 a2] a3], (rank b) as [[b1 b2] b3],
    (rank c) as [[c1 c2] c3]. simpl in *.
  destruct Hle as [Hle|[= -> -> ->]]; lia.
Qed.

(** Nothing that fails [> -Infinity] is greater than anything. *)
Lemma not_gt_NegInfinity a b :
  Number.gt a Number.NegInfinity = false -> Number.gt a b = false.
Proof.
  unfold Number.gt, Number.NegInfinity, SFltb, SFcompare.
  destruct a as [[|]|[|]| |[|] ma ea]; simpl; try discriminate; intros _;
    destruct b as [[|]|[|]| |[|] mb eb]; reflexivity.
Qed.

(** ** Choosing the best move *)

Section Argmax.
Variable evaluateMove : Engine -> Z -> Z -> result num.
Variables (e : Engine) (player : Z) (score : Z -> num).

Lemma for_of_better l : forall b0 s0,
  (forall pit, pit ∈ l -> evaluateMove e player pit = Returned (score pit)) ->
  Number.isNaN s0 = false ->
  (for_of l (better evaluateMove e player) (b0, s0) = Returned (b0, s0)
   /\ forall q, q ∈ l -> Number.gt (score q) s0 = false)
  \/ (exists l1 b l2,
        l = l1 ++ b :: l2
        /\ for_of l (better evaluateMove e player) (b0, s0)
           = Returned (b, score b)
        /\ Number.gt (score b) s0 = true
        /\ (forall q, q ∈ l1 ->
              Number.gt (score q) (score b) = false
              /\ (Number.isNaN (score q) = false ->
                  Number.gt (score b) (score q) = true))
        /\ (forall q, q ∈ l2 -> Number.gt (score q) (score b) = false)).
Proof.
  induction l as [|x l IH]; intros b0 s0 Heval Hs0.
  { left. split; [done|]. intros q Hq. inversion Hq. }
  assert (forall pit, pit ∈ l ->
            evaluateMove e player pit = Returned (score pit)) as Heval'
    by (intros pit Hin; apply Heval; now right).
  assert (for_of (x :: l) (better evaluateMove e player) (b0, s0)
          = for_of l (better evaluateMove e player)
              (if Number.gt (score x) s0 then (x, score x) else (b0, s0)))
    as Hstep by (simpl; unfold better at 1; now rewrite (Heval x) by left).
  rewrite !Hstep. clear Hstep.
  destruct (Number.gt (score x) s0) eqn:Hgt.
  - right. destruct (gt_numbers _ _ Hgt) as [Hx _].
    destruct (IH x (score x) Heval' Hx)
      as [[Hrun Hall]|(l1 & b & l2 & -> & Hrun & Hb & H1 & H2)].
    + exists [], x, l. split; [done|]. split; [done|]. split; [done|].
      split; [|done]. intros q Hq. inversion Hq.
    + exists (x :: l1), b, l2.
      split; [done|]. split; [done|].
      split; [exact (gt_trans _ _ _ Hb Hgt)|]. split; [|done].
      intros q Hq. apply elem_of_cons in Hq as [->|Hq]; [|now apply H1].
      split; [now apply gt_asym|done].
  - destruct (IH b0 s0 Heval' Hs0)
      as [[Hrun Hall]|(l1 & b & l2 & -> & Hrun & Hb & H1 & H2)].
    + left. split; [done|].
      intros q Hq. apply elem_of_cons in Hq as [->|Hq]; [done|now apply Hall].
    + right. exists (x :: l1), b, l2. repeat (split; [done|]). split; [|done].
      intros q Hq. apply elem_of_cons in Hq as [->|Hq]; [|now apply H1].
      destruct (Number.isNaN (score x)) eqn:Hnan.
      * split; [now apply gt_NaN|done].
      * pose proof (not_gt_trans _ _ _ Hgt Hnan Hb) as Hless.
        split; [now apply gt_asym|done].
Qed.

Lemma chooseBest_argmax moves :
  getValidMoves e player = Returned moves ->
  (forall pit, pit ∈ moves -> evaluateMove e player pit = Returned (score pit)) ->
  (moves = [] /\ chooseBest evaluateMove e player = Returned None)
  \/ (exists best,
        chooseBest evaluateMove e player = Returned (Some best)
        /\ best ∈ moves
        /\ forall pit, pit ∈ moves ->
             Number.gt (score pit) (score best) = false
             /\ (pit < best -> Number.isNaN (score pit) = false ->
                 Number.gt (score best) (score pit) = true)).
Proof.
  intros Hmoves Heval. unfold chooseBest. rewrite Hmoves.
  pose proof (getValidMoves_sorted _ _ _ Hmoves) as Hsorted.
  destruct moves as [|first rest]; [by left|right].
  destruct (for_of_better (first :: rest) first Number.NegInfinity Heval eq_refl)
    as [[-> Hall]|(l1 & best & l2 & Hsplit & -> & _ & H1 & H2)].
  - exists first. split; [done|]. split; [left|].
    intros pit Hin. split; [apply not_gt_NegInfinity; now apply Hall|].
    intros Hlt. exfalso.
    apply StronglySorted_inv in Hsorted as [_ Hfirst].
    rewrite list.Forall_forall in Hfirst.
    apply elem_of_cons in Hin as [->|Hin]; [lia|].
    specialize (Hfirst _ Hin). lia.
  - exists best. split; [done|]. rewrite Hsplit in *.
    split; [apply elem_of_app; right; left|].
    intros pit Hin.
    apply StronglySorted_app in Hsorted as (Hlt & _ & Hs2).
    apply StronglySorted_inv in Hs2 as [_ Hbest].
    rewrite list.Forall_forall in Hbest.
    apply elem_of_app in Hin as [Hin|Hin].
    + destruct (H1 _ Hin) as [Hle Hless]. split; [done|]. intros _. exact Hless.
    + apply elem_of_cons in Hin as [Heq|Hin].
      * subst pit. split; [|lia].
        destruct (Number.gt (score best) (score best)) eqn:Hself; [|done].
        pose proof (gt_asym _ _ Hself). congruence.
      * split; [now apply H2|]. specialize (Hbest _ Hin). lia.
Qed.

End Argmax.

(** [chooseBest] with an evaluator that returns on the valid moves. *)
Lemma chooseBest_chosen evaluateMove e player :
  player = 0 \/ player = 1 ->
  (forall pit, isValidMove e pit player = true ->
     exists sp, evaluateMove e player pit = Returned sp) ->
  exists moves,
    getValidMoves e player = Returned moves
    /\ (chooseBest evaluateMove e player = Returned None <-> moves = [])
    /\ (moves <> [] ->
        exists best,
          chooseBest evaluateMove e player = Returned (Some best)
          /\ best ∈ moves
          /\ chosen evaluateMove e player best).
Proof.
  intros Hplayer Hreturns.
  destruct (getValidMoves_returns e player Hplayer) as (moves & Hmoves).
  exists moves. split; [done|].
  assert (forall pit, isValidMove e pit player = true ->
            evaluateMove e player pit
            = Returned (score_of_move evaluateMove e player pit)) as Hscore.
  { intros pit Hvalid. unfold score_of_move.
    now destruct (Hreturns pit Hvalid) as (sp & ->). }
  destruct (chooseBest_argmax evaluateMove e player
              (score_of_move evaluateMove e player) moves Hmoves)
    as [[-> Hnone]|(best & Hbest & Hin & Hmax)].
  { intros pit Hin. apply Hscore. now apply (getValidMoves_valid _ _ _ Hmoves). }
  - split; [done|]. intros Hne. done.
  - split; [rewrite Hbest; split; [discriminate|intros ->; inversion Hin]|].
    intros _.
    assert (isValidMove e best player = true) as Hvalid
      by now apply (getValidMoves_valid _ _ _ Hmoves).
    exists best. split; [done|]. split; [done|]. split; [done|].
    eexists. split; [now apply Hscore|].
    intros pit Hpit. eexists. split; [now apply Hscore|].
    apply Hmax. now apply (getValidMoves_valid _ _ _ Hmoves).
Qed.




(** Rounding decides a choice.  Seventeen moves into a game (pits 3, 7, 4, 12,
    2, 8, 0, 4, 2, 9, 2, 11, 3, 10, 2, 8, 3 from the default start) the AI's
    pits 9 and 12 would score the same were the look-ahead exact:
    [-6 - 43 * 0.6] and [0 - 53 * 0.6] are both -31.8.  In binary64 the first
    rounds below the second, and [chooseBestAIMove] returns pit 12. *)
Example rounding_decides :
  let e := new_engine (Some [3; 9; 0; 0; 4; 11; 6; 3; 0; 2; 0; 1; 4; 5]) (Some 1) in
  Game.evaluateMove e AI_PLAYER 9 = Returned (dampen (Number.of_Z (-6)) (Number.of_Z 43))
  /\ Game.evaluateMove e AI_PLAYER 12 = Returned (dampen (Number.of_Z 0) (Number.of_Z 53))
  /\ Number.gt (dampen (Number.of_Z 0) (Number.of_Z 53))
       (dampen (Number.of_Z (-6)) (Number.of_Z 43)) = true
  /\ Game.chooseBestAIMove e = Returned (Some 12).
Proof. repeat split; vm_compute; reflexivity. Qed.

(** * Further properties of the engine *)

(** ** The board stays in the data model *)

(** X1. Every successful move keeps the board at 14 slots, none negative; so
    does every state a game reaches from such a board. *)
Theorem board_stays_ok e0 :
  board_ok (board e0) ->
  (forall pitIndex summary e',
      applyMove pitIndex e0 = (Returned summary, e') -> board_ok (board e'))
  /\ (forall e, reachable e0 e -> board_ok (board e)).
Proof.
  intros Hok. split.
  - intros pitIndex summary e' Hmove. exact (applyMove_board_ok _ _ _ _ Hok Hmove).
  - intros e Hreach. exact (reachable_board_ok _ _ Hok Hreach).
Qed.

Lemma board_stays_ok_witness :
  board_ok (board capture_engine)
  /\ exists summary e',
       applyMove 3 capture_engine = (Returned summary, e')
       /\ board_ok (board e').
Proof.
  compute_move 3 capture_engine Hrun.
  assert (board_ok (board capture_engine)) as Hok
    by (split; [reflexivity|repeat constructor; lia]).
  split; [exact Hok|]. eexists _, _. split; [exact Hrun|].
  exact (proj1 (board_stays_ok capture_engine Hok) 3 _ _ Hrun).
Defined.

(** From a successful move on a board of the data model to its phases and
    the boards between them. *)
Ltac run_ok_move Hok H :=
  run_move H;
  match goal with
  | Hr' : PIT_RANGE (currentPlayer ?e) = Some ?range,
    Hp' : start ?range <= ?pit <= end_ ?range,
    Hst' : 0 < slot (board ?e) ?pit,
    Hsow' : sowing ?pit _ _ ?e = _,
    Hcap' : capturing _ _ _ _ = _ |- _ =>
      assert (0 <= pit < 14) as Hpit
        by (destruct (own_side_facts _ _ _ Hr' Hp') as (? & _); lia);
      pose proof (sowing_sown _ _ _ _ _ _ (proj1 Hok) Hr' Hp' Hst' Hsow') as Hs;
      pose proof (sown_board_ok _ _ _ _ _ _ _ Hok Hpit Hs) as Hok1;
      pose proof (capturing_board_ok _ _ _ _ _ _ Hok1 Hr' Hcap') as Hok2
  end.

Lemma allZero_false b first last :
  allZero b first last = false ->
  exists j, first <= j <= last /\ slot b j <> 0.
Proof.
  unfold allZero.
  generalize (fun k => proj1 (elem_of_pits first last k)).
  induction (pits first last) as [|x l IH]; intros Hin; simpl; [discriminate|].
  destruct (Z.eqb_spec (slot b x) 0) as [Hx|Hx]; simpl.
  - intros Hl. destruct IH as (j & Hj & Hne); [|done|by exists j].
    intros k Hk. apply Hin. now right.
  - intros _. exists x. split; [|done]. apply Hin. left.
Qed.

Lemma phases_turn position player range e e1 capture e2 sweep e3 pitIndex stones sequence :
  PIT_RANGE player = Some range ->
  sowing pitIndex player stones e = (Returned (position, sequence), e1) ->
  capturing position player (position =? store range) e1 = (Returned capture, e2) ->
  ending e2 = (Returned sweep, e3) ->
  currentPlayer e3 = currentPlayer e
  /\ gameOver e2 = gameOver e
  /\ (gameOver e3 = gameOver e2 /\ e3 = e2
      \/ gameOver e3 = true /\ board e3 = swept (board e2)).
Proof.
  intros Hr Hsow Hcap Hend.
  assert (e2 = setBoard (board e2) e) as He2.
  { rewrite (capturing_frame _ _ _ _ _ _ Hr Hcap). simpl.
    now rewrite (sowing_frame _ _ _ _ _ _ Hsow). }
  destruct (ending_frame _ _ _ Hend) as (Hcp & _).
  split; [rewrite Hcp, He2; reflexivity|]. split; [rewrite He2; reflexivity|].
  destruct (ending_cases _ _ _ Hend) as [(_ & _ & ->)|(_ & _ & ->)]; [right|left]; done.
Qed.

(** ** No player is left without a move *)

Lemma applyMove_no_stuck e pitIndex summary e' :
  board_ok (board e) ->
  applyMove pitIndex e = (Returned summary, e') ->
  gameOver e' = false ->
  forall player, player = 0 \/ player = 1 ->
    exists pit moves,
      getValidMoves e' player = Returned (pit :: moves)
      /\ isValidMove e' pit player = true.
Proof.
  intros Hok Hmove Hgo player Hplayer. run_ok_move Hok Hmove.
  rewrite gameOver_passed in Hgo.
  assert (gameOver (passed (currentPlayer e) (position =? store range) e3) = false)
    as Hgo' by now rewrite gameOver_passed.
  rewrite ending_eq in Hend.
  destruct (allZero (board e2) 0 5) eqn:H0; simpl in Hend;
    [injection Hend as _ <-; discriminate|].
  destruct (allZero (board e2) 7 12) eqn:H1; simpl in Hend;
    [injection Hend as _ <-; discriminate|].
  injection Hend as _ <-.
  pose proof (Forall_slot _ (proj2 Hok2)) as Hnn.
  assert (exists range', PIT_RANGE player = Some range'
            /\ exists j, start range' <= j <= end_ range' /\ 0 < slot (board e2) j)
    as (range' & Hr' & j & Hj & Hpos).
  { destruct Hplayer as [-> | ->]; eexists; (split; [reflexivity|]).
    - destruct (allZero_false _ _ _ H0) as (j & Hj & Hne).
      exists j. split; [done|]. specialize (Hnn j). lia.
    - destruct (allZero_false _ _ _ H1) as (j & Hj & Hne).
      exists j. split; [done|]. specialize (Hnn j). lia. }
  set (e' := passed (currentPlayer e) (position =? store range) e2) in *.
  assert (board e' = board e2) as Hb by apply board_passed.
  assert (isValidMove e' j player = true) as Hj'.
  { apply isValidMove_true. split; [done|]. exists range'. now rewrite Hb. }
  destruct (getValidMoves_returns e' player Hplayer) as (moves & Hmoves).
  pose proof (proj2 (getValidMoves_valid _ _ _ Hmoves j) Hj') as Hin.
  destruct moves as [|pit moves]; [inversion Hin|].
  exists pit, moves. split; [done|].
  apply (getValidMoves_valid _ _ _ Hmoves). left.
Qed.

(** X2. After a successful move on a board of the data model, either the game
    is over or each of the two players has a valid move: [getValidMoves] is
    not empty for player 0 and for player 1, so in particular the player to
    move is never stuck.  Hence in a game that starts with a move for each
    player nobody is ever stuck before the game is over. *)
Theorem no_player_stuck e0 :
  board_ok (board e0) ->
  (forall pitIndex summary e',
      applyMove pitIndex e0 = (Returned summary, e') ->
      gameOver e' = false ->
      forall player, player = 0 \/ player = 1 ->
        exists pit moves,
          getValidMoves e' player = Returned (pit :: moves)
          /\ isValidMove e' pit player = true)
  /\ ((forall player, player = 0 \/ player = 1 ->
         exists pit, isValidMove e0 pit player = true) ->
      forall e, reachable e0 e -> gameOver e = false ->
      forall player, player = 0 \/ player = 1 ->
        exists pit moves,
          getValidMoves e player = Returned (pit :: moves)
          /\ isValidMove e pit player = true).
Proof.
  intros Hok. split.
  - intros pitIndex summary e'. now apply applyMove_no_stuck.
  - intros Hstart e Hreach Hgo player Hplayer.
    destruct Hreach as [|e pitIndex summary e' Hreach Hmove].
    + destruct (Hstart player Hplayer) as (j & Hj).
      destruct (getValidMoves_returns e0 player Hplayer) as (moves & Hmoves).
      pose proof (proj2 (getValidMoves_valid _ _ _ Hmoves j) Hj) as Hin.
      destruct moves as [|pit moves]; [inversion Hin|].
      exists pit, moves. split; [done|].
      apply (getValidMoves_valid _ _ _ Hmoves). left.
    + pose proof (reachable_board_ok _ _ Hok Hreach) as Hoke.
      exact (applyMove_no_stuck _ _ _ _ Hoke Hmove Hgo player Hplayer).
Qed.

Lemma no_player_stuck_witness :
  board_ok (board default_engine)
  /\ exists summary e',
       applyMove 0 default_engine = (Returned summary, e')
       /\ gameOver e' = false
       /\ exists pit moves,
            getValidMoves e' (currentPlayer e') = Returned (pit :: moves).
Proof.
  compute_move 0 default_engine Hrun.
  assert (board_ok (board default_engine)) as Hok
    by (split; [reflexivity|repeat constructor; lia]).
  split; [exact Hok|]. eexists _, _. split; [exact Hrun|]. split; [reflexivity|].
  destruct (proj1 (no_player_stuck default_engine Hok) 0 _ _ Hrun eq_refl 1
              (or_intror eq_refl))
    as (pit & moves & Hmoves & _).
  exists pit, moves. exact Hmoves.
Defined.

(** ** The end of a game *)

Lemma game_over_move e pitIndex summary e' :
  board_ok (board e) ->
  applyMove pitIndex e = (Returned summary, e') ->
  gameOver e' = true ->
  (forall j, 0 <= j <= 5 \/ 7 <= j <= 12 -> slot (board e') j = 0)
  /\ slot (board e') 6 + slot (board e') 13 = sumSlots (board e) 0 13.
Proof.
  intros Hok Hmove Hgo.
  destruct (applyMove_total _ _ _ _ (proj1 Hok) Hmove) as [Hlen' Htotal].
  assert (forall j, 0 <= j <= 5 \/ 7 <= j <= 12 -> slot (board e') j = 0) as Hpits.
  { run_ok_move Hok Hmove. rewrite gameOver_passed in Hgo.
    destruct (phases_turn _ _ _ _ _ _ _ _ _ _ _ _ Hr Hsow Hcap Hend)
      as (_ & Hgo2 & [[Hgo3 _]|[_ Hb]]); [congruence|].
    intros j Hj. rewrite board_passed, Hb. now apply swept_pits. }
  split; [done|].
  rewrite <- Htotal, (total_split (board e')).
  rewrite (sumSlots_zero (board e') 0 5), (sumSlots_zero (board e') 7 12); [lia| |];
    intros j Hj; apply Hpits; lia.
Qed.

(** X3. When a successful move on a board of the data model whose stones
    total at most [MAX_SAFE_INTEGER] ends the game, no stone is left in a pit
    and the two scores add up to all the stones of the board; the same holds
    for any state with [gameOver] that a game reaches from such a state
    without it (48 stones on the default board).  Both scores are within the
    range in which the program counts exactly. *)
Theorem final_scores_add_up e0 :
  board_ok (board e0) ->
  sumRange 0 13 e0 <= MAX_SAFE_INTEGER ->
  gameOver e0 = false ->
  forall e, reachable e0 e -> gameOver e = true ->
    (forall j, 0 <= j <= 5 \/ 7 <= j <= 12 -> slot (board e) j = 0)
    /\ human (getScores e) + ai (getScores e) = sumRange 0 13 e0
    /\ 0 <= human (getScores e) <= MAX_SAFE_INTEGER
    /\ 0 <= ai (getScores e) <= MAX_SAFE_INTEGER
    /\ (board e0 = INITIAL_BOARD -> human (getScores e) + ai (getScores e) = 48).
Proof.
  intros Hok Hsafe Hgo0 e Hreach Hgo. rewrite sumRange_sumSlots in Hsafe.
  destruct (reachable_safe _ _ Hok Hsafe Hreach) as (_ & _ & Hexact).
  destruct Hreach as [|e pitIndex summary e' Hreach Hmove]; [congruence|].
  pose proof (reachable_board_ok _ _ Hok Hreach) as Hoke.
  destruct (reachable_total _ _ (proj1 Hok) Hreach) as [_ Htotal].
  destruct (game_over_move _ _ _ _ Hoke Hmove Hgo) as [Hpits Hsum].
  split; [done|]. unfold getScores, sumRange. simpl.
  split; [lia|]. split; [apply Hexact|]. split; [apply Hexact|].
  intros Hinit. rewrite Hsum, Htotal, Hinit. reflexivity.
Qed.

Lemma final_scores_add_up_witness :
  board_ok (board sweep_engine)
  /\ sumRange 0 13 sweep_engine <= MAX_SAFE_INTEGER
  /\ gameOver sweep_engine = false
  /\ exists summary e',
       applyMove 5 sweep_engine = (Returned summary, e')
       /\ gameOver e' = true
       /\ human (getScores e') + ai (getScores e') = sumRange 0 13 sweep_engine.
Proof.
  compute_move 5 sweep_engine Hrun.
  assert (board_ok (board sweep_engine)) as Hok
    by (split; [reflexivity|repeat constructor; lia]).
  assert (sumRange 0 13 sweep_engine <= MAX_SAFE_INTEGER) as Hsafe
    by (vm_compute; discriminate).
  split; [exact Hok|]. split; [exact Hsafe|]. split; [reflexivity|].
  eexists _, _. split; [exact Hrun|]. split; [reflexivity|].
  apply (final_scores_add_up sweep_engine Hok Hsafe eq_refl _
           (reach_move _ _ _ _ _ (reach_start sweep_engine) Hrun) eq_refl).
Defined.

(** ** Scores only grow *)

Lemma stores_grow e pitIndex summary e' :
  board_ok (board e) ->
  applyMove pitIndex e = (Returned summary, e') ->
  slot (board e) 6 <= slot (board e') 6
  /\ slot (board e) 13 <= slot (board e') 13
  /\ (MoveSummary.extraTurn summary = true ->
      slot (board e) (store_of (currentPlayer e)) + 1
      <= slot (board e') (store_of (currentPlayer e)))
  /\ (forall c, MoveSummary.capture summary = Some c ->
      2 <= Capture.captured c
      /\ slot (board e) (store_of (currentPlayer e)) + Capture.captured c
         <= slot (board e') (store_of (currentPlayer e))).
Proof.
  intros Hok Hmove. run_ok_move Hok Hmove. simpl. rewrite board_passed.
  pose proof (proj1 Hok) as Hlen.
  pose proof (Forall_slot _ (proj2 Hok)) as Hnn.
  pose proof (Forall_slot _ (proj2 Hok1)) as Hnn1.
  pose proof (Forall_slot _ (proj2 Hok2)) as Hnn2.
  assert (store_of (currentPlayer e) = store range
          /\ (store range = 6 \/ store range = 13)
          /\ pitIndex <> 6 /\ pitIndex <> 13) as (Hstore & Hst613 & Hp6 & Hp13).
  { destruct (PIT_RANGE_Some _ _ Hr) as [[-> ->]|[-> ->]]; simpl in *;
      repeat split; auto; lia. }
  rewrite Hstore.
  (* sowing *)
  assert (forall j, j = 6 \/ j = 13 ->
            slot (board e1) j = slot (board e) j + drops j sequence) as Hsow1.
  { intros j Hj. rewrite (sown_slots _ _ _ _ _ _ _ Hs) by lia. simpl.
    rewrite slot_setSlot by lia. case_decide; [lia|done]. }
  (* capture *)
  assert (forall j, j = 6 \/ j = 13 -> slot (board e1) j <= slot (board e2) j)
    as Hcap2.
  { intros j Hj.
    destruct (capturing_cases _ _ _ _ _ _ Hr Hcap)
      as [(Hown & Hone & Hopp & _ & ->)|(_ & _ & ->)]; [|lia].
    destruct (own_side_facts _ _ _ Hr Hown) as (? & ? & ? & ? & ?). simpl.
    rewrite slot_capture_board by (try apply Hok1; lia).
    pose proof (Hnn1 (12 - position)).
    repeat case_decide; subst; lia. }
  (* sweep *)
  assert (forall j, j = 6 \/ j = 13 -> slot (board e2) j <= slot (board e3) j)
    as Hend3.
  { intros j Hj.
    destruct (ending_cases _ _ _ Hend) as [(_ & _ & ->)|(_ & _ & ->)]; [|lia].
    simpl. destruct (swept_stores (board e2) (proj1 Hok2)) as [H6 H13].
    destruct Hj as [-> | ->]; lia. }
  pose proof (drops_nonneg 6 sequence). pose proof (drops_nonneg 13 sequence).
  pose proof (Hsow1 6 (or_introl eq_refl)). pose proof (Hsow1 13 (or_intror eq_refl)).
  pose proof (Hcap2 6 (or_introl eq_refl)). pose proof (Hcap2 13 (or_intror eq_refl)).
  pose proof (Hend3 6 (or_introl eq_refl)). pose proof (Hend3 13 (or_intror eq_refl)).
  split; [lia|]. split; [lia|]. split.
  - intros Hland. apply Z.eqb_eq in Hland. subst position.
    pose proof (sown_last _ _ _ _ _ _ _ Hs) as Hlast.
    destruct (decide (slot (board e) pitIndex = 0)); [lia|].
    pose proof (drops_last _ _ Hlast).
    destruct Hst613 as [Hsix|Hsix]; rewrite Hsix in *; lia.
  - intros c Hc.
    destruct (capturing_cases _ _ _ _ _ _ Hr Hcap)
      as [(Hown & Hone & Hopp & Hcapt & He2)|(_ & Hnone & _)]; [|congruence].
    rewrite Hcapt in Hc. injection Hc as <-. simpl.
    destruct (own_side_facts _ _ _ Hr Hown) as (? & ? & ? & ? & ?).
    pose proof (Hnn1 (12 - position)).
    split; [lia|].
    assert (slot (board e2) (store range)
            = slot (board e1) (store range) + (slot (board e1) (12 - position) + 1))
      as Hgain.
    { rewrite He2. simpl. rewrite slot_capture_board by (try apply Hok1; lia).
      repeat case_decide; lia. }
    destruct Hst613 as [Hsix|Hsix]; rewrite Hsix in *; lia.
Qed.

(** X4. Scores only grow: a successful move on a board of the data model
    whose stones total at most [MAX_SAFE_INTEGER] lowers neither store; a
    move that earns an extra turn raises the mover's store by at least 1 and
    a capture raises it by at least the stones captured, which are at least
    2.  So along a game the scores never decrease, and they stay within the
    range in which the program counts exactly. *)
Theorem scores_never_decrease e0 :
  board_ok (board e0) ->
  sumRange 0 13 e0 <= MAX_SAFE_INTEGER ->
  (forall pitIndex summary e',
      applyMove pitIndex e0 = (Returned summary, e') ->
      human (getScores e0) <= human (getScores e')
      /\ ai (getScores e0) <= ai (getScores e')
      /\ (MoveSummary.extraTurn summary = true ->
          slot (board e0) (store_of (currentPlayer e0)) + 1
          <= slot (board e') (store_of (currentPlayer e0)))
      /\ (forall c, MoveSummary.capture summary = Some c ->
          2 <= Capture.captured c
          /\ slot (board e0) (store_of (currentPlayer e0)) + Capture.captured c
             <= slot (board e') (store_of (currentPlayer e0))))
  /\ (forall e, reachable e0 e ->
        human (getScores e0) <= human (getScores e) <= MAX_SAFE_INTEGER
        /\ ai (getScores e0) <= ai (getScores e) <= MAX_SAFE_INTEGER).
Proof.
  intros Hok Hsafe. rewrite sumRange_sumSlots in Hsafe. split.
  - intros pitIndex summary e' Hmove. exact (stores_grow _ _ _ _ Hok Hmove).
  - intros e Hreach. unfold getScores. simpl.
    destruct (reachable_safe _ _ Hok Hsafe Hreach) as (_ & _ & Hexact).
    pose proof (Hexact 6). pose proof (Hexact 13).
    assert (slot (board e0) 6 <= slot (board e) 6
            /\ slot (board e0) 13 <= slot (board e) 13); [|lia].
    clear Hexact.
    induction Hreach as [|e pitIndex summary e' Hreach IH Hmove]; [lia|].
    pose proof (reachable_board_ok _ _ Hok Hreach) as Hoke.
    destruct (stores_grow _ _ _ _ Hoke Hmove) as (H6 & H13 & _).
    destruct (reachable_safe _ _ Hok Hsafe Hreach) as (_ & _ & Hexact).
    pose proof (Hexact 6). pose proof (Hexact 13).
    destruct IH as [IH6 IH13]; [done|done|]. lia.
Qed.

Lemma scores_never_decrease_witness :
  board_ok (board capture_engine)
  /\ sumRange 0 13 capture_engine <= MAX_SAFE_INTEGER
  /\ exists summary e',
       applyMove 3 capture_engine = (Returned summary, e')
       /\ human (getScores capture_engine) <= human (getScores e').
Proof.
  compute_move 3 capture_engine Hrun.
  assert (board_ok (board capture_engine)) as Hok
    by (split; [reflexivity|repeat constructor; lia]).
  assert (sumRange 0 13 capture_engine <= MAX_SAFE_INTEGER) as Hsafe
    by (vm_compute; discriminate).
  split; [exact Hok|]. split; [exact Hsafe|]. eexists _, _. split; [exact Hrun|].
  destruct (proj1 (scores_never_decrease capture_engine Hok Hsafe) 3 _ _ Hrun)
    as (Hhuman & _).
  exact Hhuman.
Defined.

(** ** After the end *)

(** X5. Once [gameOver] is set nothing but [reset] changes the engine:
    [applyMove] throws the game-ended error for every pit, valid or not, and
    leaves the engine as it is, [getValidMoves] is empty for every player
    (even an unknown one), [isValidMove] is false, [simulateMove] throws, and
    no state other than the engine itself is reachable. *)
Theorem game_over_is_final e :
  gameOver e = true ->
  (forall pitIndex, applyMove pitIndex e = (Raised GameEnded, e))
  /\ (forall player, getValidMoves e player = Returned [])
  /\ (forall pitIndex player, isValidMove e pitIndex player = false)
  /\ (forall pitIndex, simulateMove e pitIndex = Raised GameEnded)
  /\ (forall e', reachable e e' -> e' = e).
Proof.
  intros Hover.
  assert (forall pitIndex, applyMove pitIndex e = (Raised GameEnded, e)) as Hthrow
    by (intros pitIndex; now rewrite applyMove_throws_or_moves, Hover).
  split; [done|]. split; [intros player; unfold getValidMoves; now rewrite Hover|].
  split; [intros pitIndex player; unfold isValidMove; now rewrite Hover|].
  split.
  - intros pitIndex. unfold simulateMove. rewrite applyMove_throws_or_moves.
    change (gameOver (clone e)) with (gameOver e). now rewrite Hover.
  - intros e' Hreach. induction Hreach as [|e1 pitIndex summary e2 _ IH Hmove]; [done|].
    subst e1. rewrite Hthrow in Hmove. discriminate.
Qed.

Lemma game_over_is_final_witness :
  exists summary e',
    applyMove 5 sweep_engine = (Returned summary, e')
    /\ gameOver e' = true
    /\ applyMove 0 e' = (Raised GameEnded, e').
Proof.
  compute_move 5 sweep_engine Hrun.
  eexists _, _. split; [exact Hrun|]. split; [reflexivity|].
  match goal with
  | |- applyMove 0 ?e' = _ => exact (proj1 (game_over_is_final e' eq_refl) 0)
  end.
Defined.

(** ** Listing the valid moves *)

(** X6. On a board of 14 slots, for player 0 and player 1, [getValidMoves]
    returns exactly the pits for which [isValidMove] holds, in increasing
    order, without repetition and at most six of them, all in the player's
    own range and holding a stone; for any other player it throws a type
    error unless the game is over (then it returns the empty list), while
    [isValidMove] just answers false. *)
Theorem valid_moves_listing e :
  length (board e) = 14%nat ->
  (forall player, player = 0 \/ player = 1 ->
     exists moves range,
       getValidMoves e player = Returned moves
       /\ PIT_RANGE player = Some range
       /\ (forall pit, pit ∈ moves <-> isValidMove e pit player = true)
       /\ (forall pit, pit ∈ moves ->
             start range <= pit <= end_ range /\ 0 < slot (board e) pit)
       /\ StronglySorted Z.lt moves
       /\ NoDup moves
       /\ (length moves <= 6)%nat)
  /\ (forall player, player <> 0 -> player <> 1 ->
        (forall pit, isValidMove e pit player = false)
        /\ getValidMoves e player
           = if gameOver e then Returned [] else Raised TypeError).
Proof.
  intros _. split.
  - intros player Hplayer.
    destruct (getValidMoves_returns e player Hplayer) as (moves & Hmoves).
    assert (exists range, PIT_RANGE player = Some range
              /\ (length (pits (start range) (end_ range)) = 6)%nat)
      as (range & Hr & Hsix)
      by (destruct Hplayer as [-> | ->]; eexists; split; reflexivity).
    exists moves, range. split; [done|]. split; [done|].
    pose proof (getValidMoves_valid _ _ _ Hmoves) as Hvalid.
    split; [done|]. split; [|split; [|split]].
    + intros pit Hin. apply Hvalid in Hin.
      apply isValidMove_true in Hin as (_ & range' & Hr' & Hin & Hpos).
      rewrite Hr in Hr'. injection Hr' as <-. done.
    + exact (getValidMoves_sorted _ _ _ Hmoves).
    + unfold getValidMoves in Hmoves. destruct (gameOver e).
      * injection Hmoves as <-. constructor.
      * rewrite Hr in Hmoves. injection Hmoves as <-.
        apply NoDup_filter, NoDup_seqZ.
    + unfold getValidMoves in Hmoves. destruct (gameOver e).
      * injection Hmoves as <-. simpl. lia.
      * rewrite Hr in Hmoves. injection Hmoves as <-.
        rewrite <- Hsix. apply length_filter.
  - intros player H0 H1.
    assert (PIT_RANGE player = None) as Hnone.
    { unfold PIT_RANGE. destruct (Z.eqb_spec player 0); [done|].
      destruct (Z.eqb_spec player 1); done. }
    split.
    + intros pit. unfold isValidMove. rewrite Hnone. now destruct (gameOver e).
    + unfold getValidMoves. now rewrite Hnone.
Qed.

Lemma valid_moves_listing_witness :
  length (board skip_engine) = 14%nat
  /\ exists moves,
       getValidMoves skip_engine 0 = Returned moves /\ (length moves <= 6)%nat.
Proof.
  split; [reflexivity|].
  destruct (proj1 (valid_moves_listing skip_engine eq_refl) 0 (or_introl eq_refl))
    as (moves & range & Hmoves & _ & _ & _ & _ & _ & Hlen).
  exists moves. split; [exact Hmoves|exact Hlen].
Defined.

(** ** Simulation against the real move *)

Lemma respects_ret {A} (a : A) : respects (ret a).
Proof. intros b p e. reflexivity. Qed.

Lemma respects_throw {A} x : respects (@throw A x).
Proof. intros b p e. reflexivity. Qed.

Lemma respects_diverge {A} : respects (@diverge A).
Proof. intros b p e. reflexivity. Qed.

Lemma respects_bind {A B} (c : M A) (k : A -> M B) :
  respects c -> (forall a, respects (k a)) -> respects (bind c k).
Proof.
  intros Hc Hk b p e. unfold bind. rewrite Hc.
  destruct (c e) as [[a|x|] e1]; simpl; [apply Hk|done|done].
Qed.

Lemma respects_this {A} (f : Engine -> A) :
  (forall b p e, f (reinit b p e) = f e) -> respects (this f).
Proof. intros Hf b p e. unfold this. now rewrite Hf. Qed.

Lemma respects_call {A} (f : Engine -> result A) :
  (forall b p e, f (reinit b p e) = f e) -> respects (call f).
Proof. intros Hf b p e. unfold call. now rewrite Hf. Qed.

Lemma respects_assign (f : Engine -> Engine) :
  (forall b p e, f (reinit b p e) = reinit b p (f e)) -> respects (assign f).
Proof. intros Hf b p e. unfold assign. now rewrite Hf. Qed.

(** The methods of the engine are built from reads, writes and calls that
    leave the recorded initial state alone. *)
Ltac respectful :=
  repeat first
    [ apply respects_ret
    | apply respects_throw
    | apply respects_diverge
    | apply respects_bind; [|intros ?]
    | apply respects_this; reflexivity
    | apply respects_call; reflexivity
    | apply respects_assign; reflexivity
    | match goal with
      | |- respects (if ?c then _ else _) => destruct c
      | |- respects (match ?x with Some _ => _ | None => _ end) => destruct x
      end ].

Lemma respects_tryCapture position player : respects (tryCapture position player).
Proof. unfold tryCapture, writeSlot. respectful. Qed.

Lemma respects_collectRemainingStones : respects collectRemainingStones.
Proof. unfold collectRemainingStones, writeSlot, clearRange. respectful. Qed.

Lemma respects_sow_loop fuel : forall player stones position sequence,
  respects (sow_loop fuel player stones position sequence).
Proof.
  induction fuel as [|fuel IH]; intros player stones position sequence; simpl;
    unfold writeSlot; respectful; apply IH.
Qed.

Lemma respects_applyMove pitIndex : respects (applyMove pitIndex).
Proof.
  unfold applyMove, sowing, capturing, ending, passing, writeSlot. respectful;
    first [apply respects_sow_loop
          |apply respects_tryCapture
          |apply respects_collectRemainingStones].
Qed.

Lemma clone_reinit e : clone e = reinit (board e) (currentPlayer e) e.
Proof. reflexivity. Qed.

(** X7. [simulateMove] predicts [applyMove] exactly: it throws when
    [applyMove] would throw, and otherwise returns the same summary together
    with an engine that has the board, the player to move and the [gameOver]
    flag [applyMove] would leave; only the recorded initial state differs,
    which is the position before the simulated move, so [reset()] on the
    simulated engine goes back to that position. *)
Theorem simulateMove_is_applyMove e pitIndex :
  simulateMove e pitIndex
  = match applyMove pitIndex e with
    | (Returned result, e') =>
        Returned (reinit (board e) (currentPlayer e) e', result)
    | (Raised x, _) => Raised x
    | (Diverged, _) => Diverged
    end
  /\ (forall sim result,
        simulateMove e pitIndex = Returned (sim, result) ->
        exists e',
          applyMove pitIndex e = (Returned result, e')
          /\ board sim = board e'
          /\ currentPlayer sim = currentPlayer e'
          /\ gameOver sim = gameOver e'
          /\ reset None None sim
             = new_engine (Some (board e)) (Some (currentPlayer e))).
Proof.
  assert (simulateMove e pitIndex
          = match applyMove pitIndex e with
            | (Returned result, e') =>
                Returned (reinit (board e) (currentPlayer e) e', result)
            | (Raised x, _) => Raised x
            | (Diverged, _) => Diverged
            end) as Heq.
  { unfold simulateMove. rewrite clone_reinit, respects_applyMove.
    destruct (applyMove pitIndex e) as [[result|x|] e']; reflexivity. }
  split; [exact Heq|].
  intros sim result Hsim. rewrite Heq in Hsim.
  destruct (applyMove pitIndex e) as [[result'|x|] e']; [|discriminate|discriminate].
  injection Hsim as <- <-. exists e'. repeat split; reflexivity.
Qed.

Lemma simulateMove_is_applyMove_witness :
  exists sim result e',
    simulateMove default_engine 2 = Returned (sim, result)
    /\ applyMove 2 default_engine = (Returned result, e')
    /\ board sim = board e'.
Proof.
  assert (exists sim result, simulateMove default_engine 2 = Returned (sim, result))
    as (sim & result & Hsim) by (eexists _, _; vm_compute; reflexivity).
  destruct (proj2 (simulateMove_is_applyMove default_engine 2) sim result Hsim)
    as (e' & Hmove & Hboard & _).
  exists sim, result, e'. split; [exact Hsim|]. split; [exact Hmove|exact Hboard].
Defined.

(** ** The path of the stones *)

Lemma step_skipped player position :
  player = 0 \/ player = 1 -> 0 <= position < 14 ->
  shouldSkipPosition (next position) player = true ->
  step player (next position) = step player position.
Proof.
  intros Hplayer Hpos Hskip. unfold step at 2. rewrite Hskip.
  unfold step. now rewrite (skip_once player Hplayer (next position))
    by (try apply next_range; done).
Qed.

Lemma sow_loop_walk player fuel :
  player = 0 \/ player = 1 ->
  forall stones position sequence e position' sequence' e',
    0 <= position < 14 ->
    sow_loop fuel player stones position sequence e
    = (Returned (position', sequence'), e') ->
    sequence' = sequence ++ walk player position (Z.to_nat stones).
Proof.
  intros Hplayer.
  induction fuel as [|fuel IH];
    intros stones position sequence e position' sequence' e' Hpos;
    rewrite sow_loop_eq; destruct (Z.ltb_spec 0 stones) as [Hlt|Hle];
    try discriminate;
    try (intros [= _ <- _]; replace (Z.to_nat stones) with 0%nat by lia;
         simpl; now rewrite app_nil_r).
  pose proof (next_range position Hpos) as Hnext.
  replace (Z.to_nat stones) with (S (Z.to_nat (stones - 1))) by lia.
  destruct (shouldSkipPosition (next position) player) eqn:Hskip; intros Hrun.
  - apply IH in Hrun; [|done]. rewrite Hrun.
    replace (Z.to_nat stones) with (S (Z.to_nat (stones - 1))) by lia.
    simpl. now rewrite (step_skipped player position Hplayer Hpos Hskip).
  - apply IH in Hrun; [|done]. rewrite Hrun, <- app_assoc. simpl.
    unfold step. now rewrite Hskip.
Qed.

Lemma walk_prefix player n : forall position m,
  (n <= m)%nat -> exists rest, walk player position m = walk player position n ++ rest.
Proof.
  induction n as [|n IH]; intros position m Hle; [by eexists|].
  destruct m as [|m]; [lia|]. simpl.
  destruct (IH (step player position) m ltac:(lia)) as (rest & ->). by eexists.
Qed.

Lemma walk_lap player position :
  player = 0 \/ player = 1 -> 0 <= position < 14 ->
  NoDup (walk player position 13)
  /\ (shouldSkipPosition position player = false ->
      list.last (walk player position 13) = Some position).
Proof.
  intros Hplayer Hpos.
  assert (position = 0 \/ position = 1 \/ position = 2 \/ position = 3
          \/ position = 4 \/ position = 5 \/ position = 6 \/ position = 7
          \/ position = 8 \/ position = 9 \/ position = 10 \/ position = 11
          \/ position = 12 \/ position = 13) as Hcases by lia.
  destruct Hplayer as [-> | ->];
    repeat (destruct Hcases as [->|Hcases]); try subst position;
    (split; [apply (bool_decide_unpack _); vm_compute; reflexivity
            |vm_compute; intros H; first [reflexivity|discriminate H]]).
Qed.

(** X8. The path of a move: [sequence] lists the slots after the played pit
    in board order, going round from 13 to 0 and leaving out the opponent's
    store.  With at most 13 stones no slot is listed twice, so no slot gains
    more than one stone; with exactly 13 the last stone lands in the pit
    that was played. *)
Theorem sequence_is_the_walk e pitIndex summary e' :
  length (board e) = 14%nat ->
  applyMove pitIndex e = (Returned summary, e') ->
  MoveSummary.sequence summary
  = walk (currentPlayer e) pitIndex (Z.to_nat (MoveSummary.stonesPicked summary))
  /\ (MoveSummary.stonesPicked summary <= 13 ->
      NoDup (MoveSummary.sequence summary)
      /\ forall j, drops j (MoveSummary.sequence summary) <= 1)
  /\ (MoveSummary.stonesPicked summary = 13 ->
      MoveSummary.lastPosition summary = pitIndex).
Proof.
  intros Hlen Hmove. run_move Hmove. simpl.
  assert (currentPlayer e = 0 \/ currentPlayer e = 1) as Hplayer
    by (destruct (PIT_RANGE_Some _ _ Hr) as [[? _]|[? _]]; auto).
  assert (0 <= pitIndex < 14) as Hpit
    by (destruct (own_side_facts _ _ _ Hr Hp) as (? & _); lia).
  assert (sequence
          = walk (currentPlayer e) pitIndex (Z.to_nat (slot (board e) pitIndex)))
    as Hwalk.
  { unfold sowing, bind, writeSlot, assign in Hsow.
    exact (sow_loop_walk _ _ Hplayer _ _ _ _ _ _ _ Hpit Hsow). }
  destruct (walk_lap (currentPlayer e) pitIndex Hplayer Hpit) as [Hnodup Hlap].
  split; [done|]. split.
  - intros Hle.
    destruct (walk_prefix (currentPlayer e) (Z.to_nat (slot (board e) pitIndex))
                pitIndex 13 ltac:(lia)) as (rest & Hrest).
    rewrite Hrest, <- Hwalk in Hnodup. apply NoDup_app in Hnodup as (Hnd & _).
    split; [done|]. intros j. unfold drops.
    destruct (decide (j ∈ sequence)) as [Hin|Hout].
    + enough (count_occ Z.eq_dec sequence j = 1%nat) by lia.
      apply NoDup_count_occ'; [now apply NoDup_ListNoDup|now apply list_elem_of_In].
    + rewrite (proj1 (count_occ_not_In Z.eq_dec _ _)); [lia|].
      intros Hin. apply Hout. now apply list_elem_of_In.
  - intros H13.
    pose proof (sown_last _ _ _ _ _ _ _
                  (sowing_sown _ _ _ _ _ _ Hlen Hr Hp Hst Hsow)) as Hlast.
    destruct (decide (slot (board e) pitIndex = 0)); [lia|].
    rewrite Hwalk, H13 in Hlast. change (Z.to_nat 13) with 13%nat in Hlast.
    rewrite Hlap in Hlast; [congruence|].
    destruct (PIT_RANGE_Some _ _ Hr) as [[-> ->]|[-> ->]]; simpl in *;
      unfold shouldSkipPosition; simpl.
    + rewrite orb_false_r. apply Z.eqb_neq. lia.
    + apply Z.eqb_neq. lia.
Qed.

Lemma sequence_is_the_walk_witness :
  length (board skip_engine) = 14%nat
  /\ exists summary e',
       applyMove 0 skip_engine = (Returned summary, e')
       /\ MoveSummary.stonesPicked summary <= 13
       /\ NoDup (MoveSummary.sequence summary).
Proof.
  compute_move 0 skip_engine Hrun.
  split; [reflexivity|]. eexists _, _. split; [exact Hrun|].
  split; [simpl; lia|].
  destruct (sequence_is_the_walk skip_engine 0 _ _ eq_refl Hrun) as (_ & Hnd & _).
  apply Hnd. simpl. lia.
Defined.

(** ** What the summary records *)

(** X9. The summary of a successful move is a snapshot of the engine after
    it: its board and scores are those of the engine, a sweep is recorded
    exactly when the move ended the game, the board and scores recorded in
    the sweep are the final ones, and a recorded capture names the last
    position, the slot opposite to it and the mover's own store. *)
Theorem summary_is_snapshot e pitIndex summary e' :
  applyMove pitIndex e = (Returned summary, e') ->
  MoveSummary.pitIndex summary = pitIndex
  /\ MoveSummary.board summary = getBoard e'
  /\ MoveSummary.scores summary = getScores e'
  /\ (is_Some (MoveSummary.sweep summary) <-> gameOver e' = true)
  /\ (forall s, MoveSummary.sweep summary = Some s ->
        Sweep.board s = getBoard e' /\ Sweep.scores s = getScores e')
  /\ (forall c, MoveSummary.capture summary = Some c ->
        Capture.pit c = MoveSummary.lastPosition summary
        /\ Capture.opposite c = 12 - MoveSummary.lastPosition summary
        /\ Capture.store c = store_of (currentPlayer e)).
Proof.
  intros Hmove. run_move Hmove. simpl.
  destruct (phases_turn _ _ _ _ _ _ _ _ _ _ _ _ Hr Hsow Hcap Hend)
    as (_ & Hgo2 & _).
  assert (forall e3', getScores (passed (currentPlayer e) (position =? store range) e3')
                      = getScores e3') as Hsc
    by (intros e3'; unfold getScores; now rewrite board_passed).
  unfold getBoard. rewrite gameOver_passed, !board_passed, Hsc.
  repeat (split; [done|]).
  split; [|split].
  - destruct (ending_cases _ _ _ Hend) as [(_ & -> & ->)|(_ & -> & ->)]; simpl.
    + split; [done|by eexists].
    + rewrite Hgo2, Hover. split; [intros [s [=]]|discriminate].
  - intros s Hs.
    destruct (ending_cases _ _ _ Hend) as [(_ & Hsw & He3)|(_ & Hsw & _)];
      rewrite Hsw in Hs; [|discriminate].
    injection Hs as <-. rewrite He3. simpl. done.
  - intros c Hc.
    destruct (capturing_cases _ _ _ _ _ _ Hr Hcap)
      as [(_ & _ & _ & Hcapt & _)|(_ & Hcapt & _)];
      rewrite Hcapt in Hc; [|discriminate].
    injection Hc as <-. simpl. repeat split.
    destruct (PIT_RANGE_Some _ _ Hr) as [[-> ->]|[-> ->]]; reflexivity.
Qed.

Lemma summary_is_snapshot_witness :
  exists summary e',
    applyMove 5 sweep_engine = (Returned summary, e')
    /\ is_Some (MoveSummary.sweep summary)
    /\ MoveSummary.board summary = getBoard e'.
Proof.
  compute_move 5 sweep_engine Hrun.
  eexists _, _. split; [exact Hrun|].
  destruct (summary_is_snapshot sweep_engine 5 _ _ Hrun)
    as (_ & Hboard & _ & Hsweep & _).
  split; [apply Hsweep; reflexivity|exact Hboard].
Defined.

(** * Further properties of the evaluator *)

Lemma simulateMove_no_stuck e pitIndex sim result player :
  board_ok (board e) ->
  simulateMove e pitIndex = Returned (sim, result) ->
  MoveSummary.gameOver result = false ->
  player = 0 \/ player = 1 ->
  exists pit moves,
    getValidMoves sim player = Returned (pit :: moves)
    /\ isValidMove sim pit player = true.
Proof.
  intros Hok Hsim Hgo Hplayer. apply simulateMove_Returned in Hsim.
  destruct (applyMove_turn _ _ _ _ Hsim) as (_ & Hgo' & _).
  rewrite Hgo' in Hgo.
  exact (applyMove_no_stuck (clone e) pitIndex result sim Hok Hsim Hgo player Hplayer).
Qed.

(** ** The look-ahead is the best reply *)


Section WorstReply.
Variable reply : num -> Z -> result num.
Variable value : Z -> num.
Variable moves : list Z.
Hypothesis reply_value_eq :
  forall worst pit, pit ∈ moves ->
    reply worst pit
    = Returned (if Number.gt (value pit) worst then value pit else worst).

End WorstReply.

Lemma key_of_opponent player :
  key_of (opponent_of player) = if player =? HUMAN_PLAYER then ai_key else human_key.
Proof. unfold key_of, opponent_of. now destruct (player =? HUMAN_PLAYER). Qed.



(** ** The plain front end on extra turns *)

Lemma other_side e pit player :
  player = 0 \/ player = 1 ->
  isValidMove e pit (opponent_of player) = true ->
  isValidMove e pit player = false.
Proof.
  unfold isValidMove. destruct (gameOver e); [done|].
  intros [-> | ->]; simpl;
    rewrite !andb_true_iff, !Z.leb_le; intros [[? ?] _];
    apply andb_false_iff; left; apply andb_false_iff;
    [right|left]; apply Z.leb_gt; lia.
Qed.

Lemma PlainGame_evaluateMove_throws e pitIndex sim result :
  board_ok (board e) ->
  simulateMove e pitIndex = Returned (sim, result) ->
  MoveSummary.extraTurn result = true ->
  MoveSummary.gameOver result = false ->
  exists oppPit moves,
    getValidMoves sim (opponent_of (currentPlayer e)) = Returned (oppPit :: moves)
    /\ PlainGame.evaluateMove e (currentPlayer e) pitIndex = Raised (InvalidMove oppPit).
Proof.
  intros Hok Hsim Hextra Hgo.
  destruct (simulateMove_no_stuck _ _ _ _ (opponent_of (currentPlayer e)) Hok Hsim Hgo
              (opponent_is_a_player _)) as (oppPit & moves & Hmoves & Hvalid).
  exists oppPit, moves. split; [done|].
  unfold PlainGame.evaluateMove. rewrite Hsim, Hgo.
  fold (opponent_of (currentPlayer e)). rewrite Hmoves. simpl length.
  replace (Z.of_nat (S (length moves)) =? 0) with false
    by (symmetry; apply Z.eqb_neq; lia).
  apply simulateMove_Returned in Hsim.
  destruct (applyMove_turn _ _ _ _ Hsim) as (Hplayer & Hgo' & Hcp).
  rewrite Hextra in Hcp. simpl in Hcp.
  change (currentPlayer (clone e)) with (currentPlayer e) in Hcp, Hplayer.
  rewrite Hgo' in Hgo.
  simpl. unfold PlainGame.reply at 1, simulateMove.
  rewrite applyMove_throws_or_moves.
  change (gameOver (clone sim)) with (gameOver sim). rewrite Hgo.
  change (currentPlayer (clone sim)) with (currentPlayer sim).
  rewrite isValidMove_clone, Hcp, (other_side _ _ _ Hplayer Hvalid).
  reflexivity.
Qed.

(** X11. In the plain front end (the second copy of the front end),
    [evaluateMove] throws for every move of the player to move that earns an
    extra turn without ending the game: on a board of the data model whose
    stones total at most [MAX_SAFE_INTEGER] the opponent has a reply, and the
    first reply is simulated on an engine whose turn is still the mover's,
    where it is an invalid move.  The front end with animation returns the
    move's own score there, without looking at replies. *)
Theorem plain_evaluateMove_throws e pitIndex sim result :
  board_ok (board e) ->
  sumRange 0 13 e <= MAX_SAFE_INTEGER ->
  simulateMove e pitIndex = Returned (sim, result) ->
  MoveSummary.extraTurn result = true ->
  MoveSummary.gameOver result = false ->
  (exists oppPit moves,
     getValidMoves sim (opponent_of (currentPlayer e)) = Returned (oppPit :: moves)
     /\ PlainGame.evaluateMove e (currentPlayer e) pitIndex
        = Raised (InvalidMove oppPit))
  /\ Game.evaluateMove e (currentPlayer e) pitIndex
     = Returned
         (own_score (key_of (currentPlayer e)) (key_of (opponent_of (currentPlayer e)))
            result).
Proof.
  intros Hok _ Hsim Hextra Hgo.
  split; [now apply (PlainGame_evaluateMove_throws e pitIndex sim result)|].
  unfold Game.evaluateMove. rewrite Hsim, Hgo, Hextra.
  now rewrite key_of_opponent.
Qed.

Lemma plain_evaluateMove_throws_witness :
  board_ok (board default_engine)
  /\ sumRange 0 13 default_engine <= MAX_SAFE_INTEGER
  /\ exists sim result,
       simulateMove default_engine 2 = Returned (sim, result)
       /\ MoveSummary.extraTurn result = true
       /\ MoveSummary.gameOver result = false
       /\ exists oppPit,
            PlainGame.evaluateMove default_engine (currentPlayer default_engine) 2
            = Raised (InvalidMove oppPit).
Proof.
  assert (board_ok (board default_engine)) as Hok
    by (split; [reflexivity|repeat constructor; lia]).
  assert (sumRange 0 13 default_engine <= MAX_SAFE_INTEGER) as Hsafe
    by (vm_compute; discriminate).
  split; [exact Hok|]. split; [exact Hsafe|].
  assert (exists v, simulateMove default_engine 2 = Returned v) as ([sim result] & Hsim)
    by (eexists; vm_compute; reflexivity).
  assert (MoveSummary.extraTurn result = true /\ MoveSummary.gameOver result = false)
    as [Hextra Hgo] by (vm_compute in Hsim; injection Hsim as <- <-; done).
  exists sim, result. split; [exact Hsim|]. split; [exact Hextra|]. split; [exact Hgo|].
  destruct (plain_evaluateMove_throws default_engine 2 sim result Hok Hsafe Hsim
              Hextra Hgo)
    as [(oppPit & moves & _ & Heval) _].
  exists oppPit. exact Heval.
Defined.

Section Throws.
Variable evaluateMove : Engine -> Z -> Z -> result num.
Variables (e : Engine) (player : Z).

Lemma for_of_better_throws : forall l best,
  (forall pit, pit ∈ l ->
     (exists score, evaluateMove e player pit = Returned score)
     \/ (exists oppPit, evaluateMove e player pit = Raised (InvalidMove oppPit))) ->
  (exists pit oppPit, pit ∈ l /\ evaluateMove e player pit = Raised (InvalidMove oppPit)) ->
  exists oppPit, for_of l (better evaluateMove e player) best = Raised (InvalidMove oppPit).
Proof.
  induction l as [|x l IH]; intros best Hall (pit & oppPit & Hin & Hpit).
  { inversion Hin. }
  simpl. unfold better at 1.
  destruct (Hall x ltac:(left)) as [(score & Hx)|(oppPit' & ->)]; [|by eexists].
  rewrite Hx. apply IH.
  - intros pit' Hin'. apply Hall. now right.
  - apply elem_of_cons in Hin as [->|Hin]; [congruence|]. by exists pit, oppPit.
Qed.
End Throws.

(** X12. So the AI of the plain front end cannot choose a move whenever one
    of its valid moves earns an extra turn without ending the game:
    [chooseBestAIMove] throws instead of returning a pit. *)
Theorem plain_chooseBestAIMove_throws e pitIndex sim result :
  board_ok (board e) ->
  currentPlayer e = AI_PLAYER ->
  simulateMove e pitIndex = Returned (sim, result) ->
  MoveSummary.extraTurn result = true ->
  MoveSummary.gameOver result = false ->
  exists oppPit, PlainGame.chooseBestAIMove e = Raised (InvalidMove oppPit).
Proof.
  intros Hok Hai Hsim Hextra Hgo.
  unfold PlainGame.chooseBestAIMove, chooseBest.
  destruct (getValidMoves_returns e AI_PLAYER) as (moves & Hmoves); [by right|].
  rewrite Hmoves.
  assert (pitIndex ∈ moves) as Hin.
  { apply (getValidMoves_valid _ _ _ Hmoves). rewrite <- Hai.
    pose proof (simulateMove_Returned _ _ _ _ Hsim) as Hmove.
    now destruct (applyMove_Returned _ _ _ _ Hmove) as [_ Hvalid]. }
  destruct moves as [|first rest]; [inversion Hin|].
  destruct (for_of_better_throws PlainGame.evaluateMove e AI_PLAYER (first :: rest)
              (first, Number.NegInfinity)) as (oppPit & ->); [| |by eexists].
  - intros pit Hpit. apply (getValidMoves_valid _ _ _ Hmoves) in Hpit.
    rewrite <- Hai in Hpit |- *.
    destruct (simulateMove_returns e pit Hpit) as (sim' & result' & Hsim' & _).
    destruct (MoveSummary.gameOver result') eqn:Hgo';
      [|destruct (MoveSummary.extraTurn result') eqn:Hextra'].
    + left. destruct (PlainGame_evaluateMove_returns _ _ _ _ Hsim') as (q & ->);
        [by right|by eexists].
    + right.
      destruct (PlainGame_evaluateMove_throws _ _ _ _ Hok Hsim' Hextra' Hgo')
        as (oppPit & _ & _ & ->). by eexists.
    + left. destruct (PlainGame_evaluateMove_returns _ _ _ _ Hsim') as (q & ->);
        [by left|by eexists].
  - destruct (PlainGame_evaluateMove_throws _ _ _ _ Hok Hsim Hextra Hgo)
      as (oppPit & _ & _ & Heval).
    exists pitIndex, oppPit. split; [done|]. now rewrite <- Hai.
Qed.

Lemma plain_chooseBestAIMove_throws_witness :
  board_ok (board reply_engine)
  /\ currentPlayer reply_engine = AI_PLAYER
  /\ exists sim result,
       simulateMove reply_engine 9 = Returned (sim, result)
       /\ MoveSummary.extraTurn result = true
       /\ MoveSummary.gameOver result = false
       /\ exists oppPit,
            PlainGame.chooseBestAIMove reply_engine = Raised (InvalidMove oppPit).
Proof.
  assert (board_ok (board reply_engine)) as Hok
    by (split; [reflexivity|repeat constructor; lia]).
  split; [exact Hok|]. split; [reflexivity|].
  assert (exists v, simulateMove reply_engine 9 = Returned v) as ([sim result] & Hsim)
    by (eexists; vm_compute; reflexivity).
  assert (MoveSummary.extraTurn result = true /\ MoveSummary.gameOver result = false)
    as [Hextra Hgo] by (vm_compute in Hsim; injection Hsim as <- <-; done).
  exists sim, result. split; [exact Hsim|]. split; [exact Hextra|]. split; [exact Hgo|].
  exact (plain_chooseBestAIMove_throws reply_engine 9 sim result Hok eq_refl Hsim
           Hextra Hgo).
Defined.

(** * Properties of the game around the engine *)

(** ** Clicks *)

Lemma applyMove_player pitIndex e summary e' :
  applyMove pitIndex e = (Returned summary, e') ->
  MoveSummary.player summary = currentPlayer e.
Proof. intros Hmove. run_move Hmove. reflexivity. Qed.

Lemma applyMove_returns pitIndex e :
  gameOver e = false ->
  isValidMove e pitIndex (currentPlayer e) = true ->
  exists result e', applyMove pitIndex e = (Returned result, e').
Proof.
  intros Hover Hvalid.
  destruct (applyMove_run _ _ Hover Hvalid)
    as (range & position & sequence & e1 & capture & e2 & sweep & e3
        & _ & _ & _ & _ & _ & _ & Heq).
  by eexists _, _.
Qed.

(** X13. A pit of the human side is drawn enabled exactly when a click on it
    is accepted: [shouldEnable] of [updatePitInteractivity], on the engine's
    board, holds for one of the six pits exactly when [makeMove] gets past its
    four guards.  An accepted click shows no message, and [applyMove] then
    returns for it, as a move of the human player: [performMove] does not
    reach its [catch]. *)
Theorem enabled_iff_accepted g index :
  0 <= index <= 5 ->
  (MancalaGame.shouldEnable g (getBoard (MancalaGame.engine g)) index = true
   <-> snd (MancalaGame.makeMove index g) = Some index)
  /\ (snd (MancalaGame.makeMove index g) = Some index ->
      fst (MancalaGame.makeMove index g) = g
      /\ exists result e',
           applyMove index (MancalaGame.engine g) = (Returned result, e')
           /\ MoveSummary.player result = HUMAN_PLAYER).
Proof.
  intros Hindex. unfold MancalaGame.shouldEnable, MancalaGame.makeMove, getBoard.
  destruct (gameOver (MancalaGame.engine g)) eqn:Hover; simpl; [done|].
  destruct (MancalaGame.inputLocked g); simpl; [done|].
  destruct (Z.eqb_spec (currentPlayer (MancalaGame.engine g)) HUMAN_PLAYER)
    as [Hcp|Hcp]; simpl; [|done].
  unfold isValidMove at 1 2 3. rewrite Hover. simpl.
  replace (0 <=? index) with true by (symmetry; apply Z.leb_le; lia).
  replace (index <=? 5) with true by (symmetry; apply Z.leb_le; lia).
  simpl.
  destruct (0 <? slot (board (MancalaGame.engine g)) index) eqn:Hstones; simpl;
    [|done].
  split; [done|]. intros _. split; [done|].
  destruct (applyMove_returns index (MancalaGame.engine g) Hover)
    as (result & e' & Hmove).
  { rewrite Hcp. unfold isValidMove. rewrite Hover. simpl.
    rewrite Hstones, andb_true_r. apply andb_true_iff.
    split; apply Z.leb_le; lia. }
  exists result, e'. split; [done|].
  now rewrite (applyMove_player _ _ _ _ Hmove).
Qed.

Lemma enabled_iff_accepted_witness :
  0 <= 2 <= 5
  /\ MancalaGame.shouldEnable (MancalaGame.new_game true)
       (getBoard (MancalaGame.engine (MancalaGame.new_game true))) 2 = true
  /\ snd (MancalaGame.makeMove 2 (MancalaGame.new_game true)) = Some 2.
Proof.
  split; [lia|]. split; [reflexivity|].
  apply (proj1 (enabled_iff_accepted (MancalaGame.new_game true) 2 ltac:(lia))).
  reflexivity.
Defined.

(** ** Whose turn the game waits for *)

Lemma engine_handleMoveOutcome result g :
  MancalaGame.engine (MancalaGame.handleMoveOutcome result g) = MancalaGame.engine g.
Proof.
  unfold MancalaGame.handleMoveOutcome, MancalaGame.handleGameOver,
    MancalaGame.scheduleAIMove, MancalaGame.play.
  repeat match goal with
         | |- context [match ?c with _ => _ end] => destruct c; simpl
         end; reflexivity.
Qed.

(** X14. After a successful move, [handleMoveOutcome] leaves the game waiting
    for the player the engine names: when the move ended the game the input
    stays locked, no AI move is scheduled and the game-over dialog opens;
    when it is the human's turn the input is unlocked and no AI move is
    scheduled; when it is the AI's turn the input is locked and exactly one
    call of [makeAIMove] is scheduled, with delay 0.  The engine is not
    touched. *)
Theorem handleMoveOutcome_hands_over g e pitIndex result :
  applyMove pitIndex e = (Returned result, MancalaGame.engine g) ->
  MancalaGame.engine (MancalaGame.handleMoveOutcome result g) = MancalaGame.engine g
  /\ if gameOver (MancalaGame.engine g) then
       MancalaGame.inputLocked (MancalaGame.handleMoveOutcome result g) = true
       /\ MancalaGame.timers (MancalaGame.handleMoveOutcome result g)
          = MancalaGame.timers g
       /\ is_Some (MancalaGame.gameOverModal (MancalaGame.handleMoveOutcome result g))
     else if currentPlayer (MancalaGame.engine g) =? HUMAN_PLAYER then
       MancalaGame.inputLocked (MancalaGame.handleMoveOutcome result g) = false
       /\ MancalaGame.timers (MancalaGame.handleMoveOutcome result g)
          = MancalaGame.timers g
       /\ MancalaGame.gameOverModal (MancalaGame.handleMoveOutcome result g)
          = MancalaGame.gameOverModal g
     else
       currentPlayer (MancalaGame.engine g) = AI_PLAYER
       /\ MancalaGame.inputLocked (MancalaGame.handleMoveOutcome result g) = true
       /\ MancalaGame.timers (MancalaGame.handleMoveOutcome result g)
          = 0 :: MancalaGame.timers g
       /\ MancalaGame.gameOverModal (MancalaGame.handleMoveOutcome result g)
          = MancalaGame.gameOverModal g.
Proof.
  intros Hmove. split; [apply engine_handleMoveOutcome|].
  destruct (applyMove_turn _ _ _ _ Hmove) as (Hplayer & Hgo & Hcp).
  pose proof (applyMove_player _ _ _ _ Hmove) as Hmover.
  unfold MancalaGame.handleMoveOutcome.
  set (g1 := match MoveSummary.capture result with Some _ => _ | None => g end).
  assert (MancalaGame.engine g1 = MancalaGame.engine g
          /\ MancalaGame.inputLocked g1 = MancalaGame.inputLocked g
          /\ MancalaGame.timers g1 = MancalaGame.timers g
          /\ MancalaGame.gameOverModal g1 = MancalaGame.gameOverModal g)
    as (He1 & Hl1 & Ht1 & Hm1).
  { subst g1. unfold MancalaGame.play.
    destruct (MoveSummary.capture result); [|done].
    destruct (MoveSummary.player result =? HUMAN_PLAYER); simpl;
      destruct (MancalaGame.soundManager g); done. }
  clearbody g1. rewrite Hgo, Hmover. rewrite He1.
  destruct (gameOver (MancalaGame.engine g)) eqn:Hover.
  { unfold MancalaGame.handleGameOver, MancalaGame.play. simpl.
    repeat match goal with
           | |- context [if ?c then _ else _] => destruct c; simpl
           end; rewrite ?Ht1; done. }
  simpl in Hcp. rewrite andb_true_r in Hcp.
  unfold MancalaGame.scheduleAIMove. rewrite ?He1, Hover.
  destruct (MoveSummary.extraTurn result); simpl in Hcp; rewrite Hcp.
  - destruct Hplayer as [-> | ->]; simpl; rewrite ?He1, ?Hover; simpl;
      rewrite ?Ht1, ?Hm1; done.
  - destruct Hplayer as [-> | ->]; simpl; rewrite ?He1, ?Hover; simpl;
      rewrite ?Ht1, ?Hm1; done.
Qed.

Lemma handleMoveOutcome_hands_over_witness :
  exists result e',
    applyMove 0 default_engine = (Returned result, e')
    /\ currentPlayer e' = AI_PLAYER
    /\ MancalaGame.timers
         (MancalaGame.handleMoveOutcome result
            (MancalaGame.setEngine e' (MancalaGame.new_game true))) = [0].
Proof.
  compute_move 0 default_engine Hrun.
  eexists _, _. split; [exact Hrun|]. split; [reflexivity|].
  match type of Hrun with
  | _ = (Returned ?r, ?e') =>
      pose proof (handleMoveOutcome_hands_over
                    (MancalaGame.setEngine e' (MancalaGame.new_game true))
                    default_engine 0 r Hrun) as [_ Hturn]
  end.
  simpl in Hturn. destruct Hturn as (_ & _ & Htimers & _). exact Htimers.
Defined.

(** ** The AI's move and the hint *)

Lemma board_ok_default : board_ok (board default_engine).
Proof. split; [reflexivity|repeat constructor; lia]. Qed.

Lemma reachable_player e :
  reachable default_engine e -> currentPlayer e = 0 \/ currentPlayer e = 1.
Proof.
  intros Hreach. destruct Hreach as [|e pitIndex summary e' _ Hmove]; [by left|].
  destruct (applyMove_turn _ _ _ _ Hmove) as (Hplayer & _ & ->).
  destruct (negb (MoveSummary.extraTurn summary) && negb (gameOver e'));
    destruct Hplayer as [-> | ->]; auto.
Qed.

Lemma reachable_in_play e player :
  reachable default_engine e -> gameOver e = false -> player = 0 \/ player = 1 ->
  exists pit moves, getValidMoves e player = Returned (pit :: moves).
Proof.
  intros Hreach Hgo Hplayer.
  destruct Hreach as [|e pitIndex summary e' Hreach Hmove].
  - destruct Hplayer as [-> | ->]; by eexists _, _.
  - pose proof (reachable_board_ok _ _ board_ok_default Hreach) as Hok.
    destruct (applyMove_no_stuck _ _ _ _ Hok Hmove Hgo player Hplayer)
      as (pit & moves & Hmoves & _).
    by exists pit, moves.
Qed.

Lemma chooseBest_in_play e :
  reachable default_engine e -> gameOver e = false ->
  exists best,
    chooseBest Game.evaluateMove e (currentPlayer e) = Returned (Some best)
    /\ chosen Game.evaluateMove e (currentPlayer e) best.
Proof.
  intros Hreach Hgo. pose proof (reachable_player e Hreach) as Hplayer.
  destruct (reachable_in_play e (currentPlayer e) Hreach Hgo Hplayer)
    as (pit & moves & Hmoves).
  destruct (chooseBest_chosen Game.evaluateMove e (currentPlayer e) Hplayer)
    as (moves' & Hmoves' & _ & Hbest).
  { intros p Hvalid. now apply Game_evaluateMove_returns. }
  rewrite Hmoves in Hmoves'. injection Hmoves' as <-.
  destruct (Hbest ltac:(done)) as (best & Hrun & _ & Hchosen).
  by exists best.
Qed.

(** X15. In a game played from the default start, the AI always finds a move
    on its turn: when the game is not over and the engine names the AI,
    [makeAIMove] hands a pit of the AI's side to [performMove], without a
    message and without touching the lock, and [applyMove] returns for that
    pit as a move of the AI.  The pit is the choice of [chooseBestAIMove] by
    the binary64 scores of the program: no valid pit scores more, and it
    scores more than every valid pit of lower index whose score is not NaN.
    Neither the branch for an AI without moves nor the [catch] of
    [performMove] is reached. *)
Theorem makeAIMove_moves g :
  reachable default_engine (MancalaGame.engine g) ->
  gameOver (MancalaGame.engine g) = false ->
  currentPlayer (MancalaGame.engine g) = AI_PLAYER ->
  exists move result e',
    MancalaGame.makeAIMove g = Returned (g, Some move)
    /\ 7 <= move <= 12
    /\ applyMove move (MancalaGame.engine g) = (Returned result, e')
    /\ MoveSummary.player result = AI_PLAYER
    /\ chosen Game.evaluateMove (MancalaGame.engine g) AI_PLAYER move.
Proof.
  intros Hreach Hgo Hai.
  destruct (chooseBest_in_play _ Hreach Hgo) as (best & Hbest & Hchosen).
  pose proof (proj1 Hchosen) as Hvalid.
  destruct (applyMove_returns _ _ Hgo Hvalid) as (result & e' & Hmove).
  exists best, result, e'.
  unfold MancalaGame.makeAIMove, Game.chooseBestAIMove.
  rewrite Hai in Hbest, Hvalid, Hchosen. rewrite Hgo, Hai, Hbest. simpl.
  split; [done|]. split.
  - apply isValidMove_true in Hvalid as (_ & range & [= <-] & Hrange & _).
    exact Hrange.
  - split; [done|]. split; [|done]. now rewrite (applyMove_player _ _ _ _ Hmove).
Qed.

Lemma makeAIMove_moves_witness :
  exists result e',
    applyMove 0 default_engine = (Returned result, e')
    /\ gameOver e' = false
    /\ currentPlayer e' = AI_PLAYER
    /\ exists move,
         MancalaGame.makeAIMove (MancalaGame.setEngine e' (MancalaGame.new_game true))
         = Returned (MancalaGame.setEngine e' (MancalaGame.new_game true), Some move).
Proof.
  compute_move 0 default_engine Hrun.
  eexists _, _. split; [exact Hrun|]. split; [reflexivity|]. split; [reflexivity|].
  match type of Hrun with
  | _ = (_, ?e') =>
      destruct (makeAIMove_moves (MancalaGame.setEngine e' (MancalaGame.new_game true))
                  (reach_move _ _ _ _ _ (reach_start default_engine) Hrun)
                  eq_refl eq_refl) as (move & _ & _ & Hmove & _)
  end.
  exists move. exact Hmove.
Defined.

(** X16. In a game played from the default start, a hint asked on the
    human's turn with the input unlocked names one of the pits 1 to 6, and
    the pit it names is drawn enabled and accepted by [makeMove]: the hint is
    never "No moves available!".  The pit is the choice of the loop of
    [showHint] by the binary64 scores of the program: no valid pit scores
    more, and it scores more than every valid pit of lower index whose score
    is not NaN. *)
Theorem showHint_names_a_move g :
  reachable default_engine (MancalaGame.engine g) ->
  gameOver (MancalaGame.engine g) = false ->
  currentPlayer (MancalaGame.engine g) = HUMAN_PLAYER ->
  MancalaGame.inputLocked g = false ->
  exists bestMove,
    MancalaGame.showHint g
    = Returned (MancalaGame.showMessage (MancalaGame.Hint (bestMove + 1)) g)
    /\ 1 <= bestMove + 1 <= 6
    /\ MancalaGame.shouldEnable g (getBoard (MancalaGame.engine g)) bestMove = true
    /\ snd (MancalaGame.makeMove bestMove g) = Some bestMove
    /\ chosen Game.evaluateMove (MancalaGame.engine g) HUMAN_PLAYER bestMove.
Proof.
  intros Hreach Hgo Hhuman Hlock.
  destruct (chooseBest_in_play _ Hreach Hgo) as (best & Hbest & Hchosen).
  pose proof (proj1 Hchosen) as Hvalid.
  rewrite Hhuman in Hbest, Hvalid, Hchosen.
  exists best.
  unfold MancalaGame.showHint, Game.hintMove, MancalaGame.shouldEnable,
    MancalaGame.makeMove.
  rewrite Hgo, Hhuman, Hlock, Hbest, Hvalid. simpl.
  apply isValidMove_true in Hvalid as (_ & range & [= <-] & Hrange & Hstones).
  simpl in Hrange. split; [done|]. split; [lia|]. split; [|done].
  unfold getBoard. now apply Z.ltb_lt.
Qed.

Lemma showHint_names_a_move_witness :
  exists bestMove,
    MancalaGame.showHint (MancalaGame.new_game true)
    = Returned (MancalaGame.showMessage (MancalaGame.Hint (bestMove + 1))
                  (MancalaGame.new_game true))
    /\ 1 <= bestMove + 1 <= 6.
Proof.
  destruct (showHint_names_a_move (MancalaGame.new_game true)
              (reach_start default_engine) eq_refl eq_refl eq_refl)
    as (bestMove & Hhint & Hrange & _).
  exists bestMove. split; [exact Hhint|exact Hrange].
Defined.

(** Rounding decides a hint.  Sixteen moves into a game from the default
    start it is the human's turn, and pits 2, 4 and 5 would score the same
    were the look-ahead exact, -31.8, so that the first of them would be
    named.  In binary64 pit 2 scores [-6 - 43 * 0.6], which rounds below the
    [0 - 53 * 0.6] of pit 4: the hint is "Try pit 5". *)
Example rounding_decides_hint :
  let e := foldl (fun e pitIndex => snd (applyMove pitIndex e)) default_engine
             [3; 8; 1; 11; 5; 10; 4; 9; 2; 8; 3; 7; 0; 11; 0; 10] in
  let g := MancalaGame.setEngine e (MancalaGame.new_game true) in
  board e = [1; 8; 2; 1; 3; 4; 5; 1; 2; 3; 0; 1; 11; 6]
  /\ currentPlayer e = HUMAN_PLAYER
  /\ Game.evaluateMove e HUMAN_PLAYER 2
     = Returned (dampen (Number.of_Z (-6)) (Number.of_Z 43))
  /\ Game.evaluateMove e HUMAN_PLAYER 4
     = Returned (dampen (Number.of_Z 0) (Number.of_Z 53))
  /\ Number.gt (dampen (Number.of_Z 0) (Number.of_Z 53))
       (dampen (Number.of_Z (-6)) (Number.of_Z 43)) = true
  /\ MancalaGame.showHint g
     = Returned (MancalaGame.showMessage (MancalaGame.Hint 5) g).
Proof. vm_compute. repeat (apply conj); reflexivity. Qed.

(** ** The animation of a move *)

Lemma board_ext (b b' : list Z) :
  length b = length b' ->
  (forall j, 0 <= j < Z.of_nat (length b) -> slot b j = slot b' j) ->
  b = b'.
Proof.
  intros Hlen Hslots. apply (list_eq_same_length b b' (length b)); [done|done|].
  intros i x y Hi Hx Hy. specialize (Hslots (Z.of_nat i) ltac:(lia)).
  unfold slot in Hslots.
  replace (Z.of_nat i <? 0) with false in Hslots
    by (symmetry; apply Z.ltb_ge; lia).
  rewrite Nat2Z.id, Hx, Hy in Hslots. simpl in Hslots. congruence.
Qed.

Lemma redraw_inside b p v :
  0 <= p < Z.of_nat (length b) ->
  MancalaGame.redraw b p v = setSlot b p (v (slot b p)).
Proof.
  intros Hp. unfold MancalaGame.redraw, MancalaGame.inside.
  replace (0 <=? p) with true by (symmetry; apply Z.leb_le; lia).
  replace (p <? Z.of_nat (length b)) with true by (symmetry; apply Z.ltb_lt; lia).
  reflexivity.
Qed.

Lemma length_redraw b p v : length (MancalaGame.redraw b p v) = length b.
Proof.
  unfold MancalaGame.redraw. destruct (MancalaGame.inside b p); [|done].
  apply length_setSlot.
Qed.

Lemma replay_drops : forall dropped b,
  Forall (fun p => 0 <= p < Z.of_nat (length b)) dropped ->
  length (foldl (fun b position => MancalaGame.redraw b position (fun v => v + 1))
            b dropped) = length b
  /\ forall j, 0 <= j ->
       slot (foldl (fun b position => MancalaGame.redraw b position (fun v => v + 1))
               b dropped) j
       = slot b j + drops j dropped.
Proof.
  induction dropped as [|p dropped IH]; intros b Hin.
  { split; [done|]. intros j _. rewrite drops_nil. simpl. lia. }
  apply Forall_cons in Hin as [Hp Hin]. simpl.
  rewrite (redraw_inside b p) by done.
  destruct (IH (setSlot b p (slot b p + 1))) as [Hlen Hslots].
  { now rewrite length_setSlot. }
  split; [now rewrite Hlen, length_setSlot|].
  intros j Hj. rewrite Hslots, drops_cons, slot_setSlot by done.
  repeat case_decide; subst; lia.
Qed.

Lemma copy_slots (src : list Z) : forall (l : list Z) b,
  Forall (fun i => 0 <= i < Z.of_nat (length b)) l ->
  length (foldl (fun b i => setSlot b i (slot src i)) b l) = length b
  /\ forall j, 0 <= j ->
       slot (foldl (fun b i => setSlot b i (slot src i)) b l) j
       = if decide (j ∈ l) then slot src j else slot b j.
Proof.
  induction l as [|i l IH]; intros b Hin.
  { split; [done|]. intros j _. rewrite decide_False; [done|].
    intros Hc. inversion Hc. }
  apply Forall_cons in Hin as [Hi Hin]. simpl.
  destruct (IH (setSlot b i (slot src i))) as [Hlen Hslots].
  { now rewrite length_setSlot. }
  split; [now rewrite Hlen, length_setSlot|].
  intros j Hj. rewrite Hslots, slot_setSlot by done.
  destruct (decide (j ∈ l)) as [Hjl|Hjl].
  - rewrite decide_True by now right. done.
  - destruct (decide (i = j)) as [->|Hne].
    + rewrite decide_True by left. done.
    + rewrite decide_False; [done|].
      intros Hc. apply elem_of_cons in Hc as [->|Hc]; done.
Qed.

Lemma copy_board (src b : list Z) :
  length src = length b ->
  foldl (fun b i => setSlot b i (slot src i)) b (seqZ 0 (Z.of_nat (length b))) = src.
Proof.
  intros Hlen.
  destruct (copy_slots src (seqZ 0 (Z.of_nat (length b))) b) as [Hl Hslots].
  { apply list.Forall_forall. intros i Hi. apply elem_of_seqZ in Hi. lia. }
  apply board_ext; [congruence|].
  intros j Hj. rewrite Hl in Hj. rewrite Hslots by lia.
  rewrite decide_True; [done|]. apply elem_of_seqZ. lia.
Qed.

(** X17. The animation of a move ends on the board of the engine: replaying
    the summary on the board before the move (the origin emptied, one stone
    per position of the sequence, the capture, the copy of the sweep) gives
    the board the engine has after [applyMove], which is also the board of
    the summary.  The last [renderBoard] of [animateMove] so redraws what is
    on display. *)
Theorem animation_ends_on_board e pitIndex result e' :
  length (board e) = 14%nat ->
  applyMove pitIndex e = (Returned result, e') ->
  MancalaGame.animateMove (getBoard e) result = Some (getBoard e')
  /\ MoveSummary.board result = getBoard e'.
Proof.
  intros Hlen Hmove. run_move Hmove.
  pose proof (sowing_sown _ _ _ _ _ _ Hlen Hr Hp Hst Hsow) as Hs.
  destruct (own_side_facts _ _ _ Hr Hp) as (Hpit & Hstore & _).
  pose proof (sown_length _ _ _ _ _ _ _ Hs) as Hlen1.
  unfold MancalaGame.animateMove, getBoard. simpl.
  rewrite Hlen, board_passed. simpl. split; [|done]. f_equal.
  rewrite (redraw_inside (board e) pitIndex) by lia.
  assert (foldl (fun b position => MancalaGame.redraw b position (fun v => v + 1))
            (setSlot (board e) pitIndex 0) sequence = board e1) as ->.
  { destruct (replay_drops sequence (setSlot (board e) pitIndex 0)) as [Hl Hslots].
    { rewrite length_setSlot, Hlen.
      eapply Forall_impl; [exact (sown_range _ _ _ _ _ _ _ Hs)|].
      simpl. intros p [Hp' _]. lia. }
    apply board_ext; [rewrite Hl, length_setSlot; congruence|].
    intros j Hj. rewrite Hslots by lia.
    now rewrite (sown_slots _ _ _ _ _ _ _ Hs j) by lia. }
  assert (match capture with
          | Some c =>
              MancalaGame.redraw
                (MancalaGame.redraw
                   (MancalaGame.redraw (board e1) (Capture.pit c) (fun _ => 0))
                   (Capture.opposite c) (fun _ => 0))
                (Capture.store c) (fun v => v + Capture.captured c)
          | None => board e1
          end = board e2) as ->.
  { destruct (capturing_cases _ _ _ _ _ _ Hr Hcap)
      as [(Hside & _ & _ & -> & ->)|(_ & -> & ->)]; [|done].
    simpl. destruct (own_side_facts _ _ _ Hr Hside) as (Hpos & Hst' & Hne1 & Hne2 & _).
    rewrite !redraw_inside by (rewrite ?length_redraw; lia).
    apply board_ext; [unfold capture_board; now rewrite !length_setSlot|].
    intros j Hj. rewrite !length_setSlot in Hj.
    rewrite slot_capture_board by (done || lia).
    rewrite !slot_setSlot by (rewrite ?length_setSlot; lia).
    repeat case_decide; subst; try lia. }
  destruct (ending_cases _ _ _ Hend) as [(_ & -> & ->)|(_ & -> & ->)]; [|done].
  simpl. apply copy_board. apply length_swept.
Qed.

Lemma animation_ends_on_board_witness :
  length (board capture_engine) = 14%nat
  /\ exists result e',
       applyMove 3 capture_engine = (Returned result, e')
       /\ is_Some (MoveSummary.capture result)
       /\ MancalaGame.animateMove (getBoard capture_engine) result = Some (getBoard e').
Proof.
  compute_move 3 capture_engine Hrun.
  split; [reflexivity|]. eexists _, _. split; [exact Hrun|].
  split; [by eexists|].
  exact (proj1 (animation_ends_on_board capture_engine 3 _ _ eq_refl Hrun)).
Defined.

(** ** A new game *)

Lemma applyMove_initial pitIndex e r e' :
  applyMove pitIndex e = (r, e') ->
  initialBoard e' = initialBoard e /\ initialPlayer e' = initialPlayer e.
Proof.
  intros Hmove.
  pose proof (respects_applyMove pitIndex (initialBoard e) (initialPlayer e) e) as Hr.
  replace (reinit (initialBoard e) (initialPlayer e) e) with e in Hr
    by now destruct e.
  rewrite Hmove in Hr. simpl in Hr.
  assert (e' = reinit (initialBoard e) (initialPlayer e) e') as -> by congruence.
  done.
Qed.

Lemma reachable_initial e0 e :
  reachable e0 e ->
  initialBoard e = initialBoard e0 /\ initialPlayer e = initialPlayer e0.
Proof.
  intros Hreach. induction Hreach as [|e pitIndex summary e' _ [IHb IHp] Hmove];
    [done|].
  destruct (applyMove_initial _ _ _ _ Hmove) as [-> ->]. done.
Qed.

(** X18. Whatever has been played since the default start, [newGame] puts the
    engine back to the default start, unlocks the input and closes the
    game-over dialog.  It does not cancel a pending call of [makeAIMove];
    such a call then finds the human to move and makes no move. *)
Theorem newGame_restores g :
  reachable default_engine (MancalaGame.engine g) ->
  MancalaGame.engine (MancalaGame.newGame g) = default_engine
  /\ MancalaGame.inputLocked (MancalaGame.newGame g) = false
  /\ MancalaGame.gameOverModal (MancalaGame.newGame g) = None
  /\ MancalaGame.timers (MancalaGame.newGame g) = MancalaGame.timers g
  /\ MancalaGame.makeAIMove (MancalaGame.newGame g)
     = Returned (MancalaGame.newGame g, None).
Proof.
  intros Hreach. destruct (reachable_initial _ _ Hreach) as [Hb Hp].
  assert (MancalaGame.engine (MancalaGame.newGame g) = default_engine) as Hengine.
  { simpl. unfold reset. simpl. rewrite Hb, Hp. reflexivity. }
  split; [done|]. split; [done|]. split; [done|]. split; [done|].
  unfold MancalaGame.makeAIMove. rewrite Hengine. reflexivity.
Qed.

Lemma newGame_restores_witness :
  exists result e',
    applyMove 2 default_engine = (Returned result, e')
    /\ e' <> default_engine
    /\ MancalaGame.engine
         (MancalaGame.newGame (MancalaGame.setEngine e' (MancalaGame.new_game true)))
       = default_engine.
Proof.
  compute_move 2 default_engine Hrun.
  eexists _, _. split; [exact Hrun|]. split; [discriminate|].
  match type of Hrun with
  | _ = (_, ?e') =>
      exact (proj1 (newGame_restores
                      (MancalaGame.setEngine e' (MancalaGame.new_game true))
                      (reach_move _ _ _ _ _ (reach_start default_engine) Hrun)))
  end.
Defined.

(** ** The verdict *)

Lemma applyMove_scores pitIndex e summary e' :
  applyMove pitIndex e = (Returned summary, e') ->
  MoveSummary.scores summary = getScores e'.
Proof. intros Hmove. run_move Hmove. reflexivity. Qed.

(** X19. When a move of a game played from the default start ends the game,
    the dialog of [handleGameOver] shows the two scores of the summary, which
    add up to 48, and its verdict is a win of the human exactly when the
    human has more than 24 stones, a tie exactly at 24 each, and a win of the
    AI exactly when the human has fewer than 24. *)
Theorem handleGameOver_verdict g e pitIndex result :
  reachable default_engine e ->
  applyMove pitIndex e = (Returned result, MancalaGame.engine g) ->
  MoveSummary.gameOver result = true ->
  exists verdict,
    MancalaGame.gameOverModal (MancalaGame.handleGameOver g) = Some verdict
    /\ MancalaGame.humanScore verdict = human (MoveSummary.scores result)
    /\ MancalaGame.aiScore verdict = ai (MoveSummary.scores result)
    /\ MancalaGame.humanScore verdict + MancalaGame.aiScore verdict = 48
    /\ (MancalaGame.resultText verdict = MancalaGame.YouWin
        <-> 24 < MancalaGame.humanScore verdict)
    /\ (MancalaGame.resultText verdict = MancalaGame.Tie
        <-> MancalaGame.humanScore verdict = 24)
    /\ (MancalaGame.resultText verdict = MancalaGame.AIWins
        <-> MancalaGame.humanScore verdict < 24).
Proof.
  intros Hreach Hmove Hover.
  pose proof (reachable_board_ok _ _ board_ok_default Hreach) as Hok.
  destruct (reachable_total _ _ (proj1 board_ok_default) Hreach) as [_ Htotal].
  destruct (applyMove_turn _ _ _ _ Hmove) as (_ & Hgo & _).
  rewrite Hover in Hgo. symmetry in Hgo.
  destruct (game_over_move _ _ _ _ Hok Hmove Hgo) as [_ Hsum].
  rewrite Htotal in Hsum. change (sumSlots (board default_engine) 0 13) with 48 in Hsum.
  rewrite (applyMove_scores _ _ _ _ Hmove).
  unfold MancalaGame.handleGameOver, getBoard, getScores. simpl.
  eexists. split; [reflexivity|]. simpl.
  split; [done|]. split; [done|]. split; [done|].
  destruct (Z.ltb_spec (slot (board (MancalaGame.engine g)) 13)
              (slot (board (MancalaGame.engine g)) 6));
    [|destruct (Z.ltb_spec (slot (board (MancalaGame.engine g)) 6)
                 (slot (board (MancalaGame.engine g)) 13))];
    simpl; repeat split; intros; try discriminate; try done; lia.
Qed.

(** One more move of a game: from [Hreach : reachable e0 e] to the state
    after [pitIndex]. *)
Ltac play pitIndex Hreach :=
  match type of Hreach with
  | reachable _ ?e =>
      let Hrun := fresh "Hrun" in
      compute_move pitIndex e Hrun;
      apply (fun H => reach_move _ _ _ _ _ H Hrun) in Hreach;
      clear Hrun
  end.

Lemma handleGameOver_verdict_witness :
  exists e result e',
    reachable default_engine e
    /\ applyMove 12 e = (Returned result, e')
    /\ MoveSummary.gameOver result = true
    /\ exists verdict,
         MancalaGame.gameOverModal
           (MancalaGame.handleGameOver
              (MancalaGame.setEngine e' (MancalaGame.new_game true))) = Some verdict
         /\ MancalaGame.resultText verdict = MancalaGame.YouWin.
Proof.
  pose proof (reach_start default_engine) as Hreach.
  play 5 Hreach. play 8 Hreach. play 9 Hreach. play 0 Hreach. play 10 Hreach.
  play 0 Hreach. play 11 Hreach. play 0 Hreach.
  match type of Hreach with
  | reachable _ ?e => compute_move 12 e Hrun; exists e
  end.
  eexists _, _. split; [exact Hreach|]. split; [exact Hrun|]. split; [reflexivity|].
  match type of Hrun with
  | _ = (Returned ?r, ?e') =>
      destruct (handleGameOver_verdict
                  (MancalaGame.setEngine e' (MancalaGame.new_game true))
                  _ 12 r Hreach Hrun eq_refl)
        as (verdict & Hmodal & Hhuman & _ & _ & Hwin & _)
  end.
  exists verdict. split; [exact Hmodal|].
  apply Hwin. rewrite Hhuman. simpl. lia.
Defined.

(** ** The Konami code *)

Lemma konami_keys_snoc codes code :
  konami_keys (codes ++ [code]) = konami_keydown (fst (konami_keys codes)) code.
Proof. unfold konami_keys. now rewrite foldl_app. Qed.

Lemma konami_input codes :
  fst (konami_keys codes) = skipn (length codes - 10)%nat codes.
Proof.
  induction codes as [|code codes IH] using rev_ind; [done|].
  rewrite konami_keys_snoc. unfold konami_keydown. simpl fst. rewrite IH.
  rewrite !length_app, length_drop. simpl length.
  destruct (Nat.ltb_spec 10 (length codes - (length codes - 10) + 1)%nat) as [Hlong|Hshort].
  - replace (length codes + 1 - 10)%nat with (S (length codes - 10)) by lia.
    rewrite drop_app_le by lia.
    replace (S (length codes - 10)) with (length codes - 10 + 1)%nat by lia.
    rewrite <- (drop_drop codes 1 (length codes - 10)%nat).
    pose proof (length_drop codes (length codes - 10)%nat) as Hlen.
    destruct (skipn (length codes - 10)%nat codes) as [|first rest] eqn:Hdrop;
      [simpl in Hlen; lia|].
    simpl. now rewrite drop_0.
  - replace (length codes + 1 - 10)%nat with 0%nat by lia.
    replace (length codes - 10)%nat with 0%nat by lia. now rewrite !drop_0.
Qed.

(** X20. The buffer of the Konami listener always holds the last ten key
    codes (all of them while fewer than ten keys have been pressed), and
    rainbow mode is switched on by every key that completes the sequence,
    whatever was pressed before. *)
Theorem konami_last_ten codes :
  fst (konami_keys codes) = skipn (length codes - 10)%nat codes
  /\ (length (fst (konami_keys codes)) <= 10)%nat
  /\ (forall before, codes = before ++ konamiSequence -> snd (konami_keys codes) = true).
Proof.
  split; [apply konami_input|]. split.
  - rewrite konami_input, length_drop. lia.
  - intros before ->.
    change konamiSequence with
      ((["ArrowUp"; "ArrowUp"; "ArrowDown"; "ArrowDown"; "ArrowLeft"; "ArrowRight";
         "ArrowLeft"; "ArrowRight"; "KeyB"]%string) ++ ["KeyA"%string]) at 1.
    rewrite app_assoc, konami_keys_snoc.
    pose proof (konami_input (before ++ konamiSequence)) as Hinput.
    change konamiSequence with
      ((["ArrowUp"; "ArrowUp"; "ArrowDown"; "ArrowDown"; "ArrowLeft"; "ArrowRight";
         "ArrowLeft"; "ArrowRight"; "KeyB"]%string) ++ ["KeyA"%string])
      in Hinput at 1 2.
    rewrite app_assoc, konami_keys_snoc in Hinput.
    unfold konami_keydown in *. simpl fst in Hinput. simpl snd. rewrite Hinput.
    rewrite <- app_assoc.
    change ((["ArrowUp"; "ArrowUp"; "ArrowDown"; "ArrowDown"; "ArrowLeft";
              "ArrowRight"; "ArrowLeft"; "ArrowRight"; "KeyB"]%string)
            ++ ["KeyA"%string]) with konamiSequence.
    rewrite length_app.
    replace (length before + length konamiSequence - 10)%nat with (length before)
      by (simpl; lia).
    rewrite drop_app_length. now apply bool_decide_eq_true.
Qed.

Lemma konami_last_ten_witness :
  snd (konami_keys (["KeyA"; "Enter"]%string ++ konamiSequence)) = true
  /\ snd (konami_keys ["KeyA"; "Enter"]%string) = false.
Proof.
  split; [|reflexivity].
  exact (proj2 (proj2 (konami_last_ten (["KeyA"; "Enter"]%string ++ konamiSequence)))
           ["KeyA"; "Enter"]%string eq_refl).
Defined.
